(** * The flatpak transaction planner and executor (app/flatpak-transaction.c)

    A shallow embedding of [flatpak-transaction.c].  A transaction owns a
    hash table from refs to operations and a [GList] of the same operation
    objects; both hold pointers to one heap-allocated
    [FlatpakTransactionOp], so an assignment through either is seen through
    the other.  The embedding keeps that sharing: operations live in a store
    ([tx_heap]) and the table and the list hold addresses into it.

    Everything the file calls on its [FlatpakDir] (deploy store, remote
    catalog, prompts, deploy engine) is outside the file; it is taken here
    as an interface, [FlatpakDir], over an abstract state of the outside
    world.  The OCI registry client that
    [flatpak_transaction_add_install_oci] calls is a second interface,
    [FlatpakOci].  [g_print], [g_printerr] and [g_debug] output is not
    modelled, nor are the two functions that free the structures. *)

From Stdlib Require Import Ascii String ZArith.
From stdpp Require Import gmap strings list fin_maps.

Local Open Scope string_scope.
Local Open Scope list_scope.

(** ** Data *)

(** [char **subpaths]: [None] is the NULL pointer ("keep what is deployed",
    printed as [$old]), [Some []] the empty vector ("all subpaths", printed
    as [*]) and [Some (x :: l)] an explicit restriction. *)
Record FlatpakTransactionOp := {
  op_remote : string;
  op_ref : string;
  op_subpaths : option (list string);
  op_commit : option string;
  op_update : bool;
  op_install : bool;
  op_non_fatal : bool
}.

(** The fields of a [FlatpakRelated] that the transaction reads. *)
Record FlatpakRelated := {
  rel_ref : string;
  rel_subpaths : option (list string);
  rel_download : bool
}.

(** What the transaction reads from a deploy-data [GVariant]. *)
Record DeployData := {
  dd_origin : string;
  dd_commit : string
}.

(** A [GError]: the two [FLATPAK_ERROR] codes the file names, the error
    set by [flatpak_fail], and any other error of the deploy engine. *)
Inductive GError :=
  | FLATPAK_ERROR_ALREADY_INSTALLED (msg : string)
  | FLATPAK_ERROR_NOT_INSTALLED (msg : string)
  | FLATPAK_FAIL (msg : string)
  | OTHER_ERROR (code : Z) (msg : string).

(** [struct FlatpakTransaction].  [tx_heap] is the store of allocated
    operations, an address being an index into it; [tx_refs] is the
    [GHashTable] and [tx_ops] the [GList], both holding addresses.  The
    [dir] field is the handle on the outside world, which the functions
    below receive as their [World] argument. *)
Record FlatpakTransaction := {
  tx_heap : list FlatpakTransactionOp;
  tx_refs : gmap string nat;
  tx_ops : list nat;
  tx_no_pull : bool;
  tx_no_deploy : bool;
  tx_add_deps : bool;
  tx_add_related : bool
}.

(** The functions of other files that the transaction calls.  A [gboolean]
    result with a [GError **] is an [option GError], [None] being [TRUE].
    [key_file_runtime] stands for [g_key_file_load_from_data] followed by
    [g_key_file_get_string (metakey, "Application", "runtime")].
    [flatpak_dir_system_get_if_deployed] is [flatpak_dir_get_if_deployed]
    on [flatpak_dir_get_system ()]. *)
Class FlatpakDir (World : Type) := {
  flatpak_dir_get_if_deployed : World → string → bool;
  flatpak_dir_is_user : World → bool;
  flatpak_dir_system_get_if_deployed : World → string → bool;
  flatpak_dir_get_deploy_data : World → string → option DeployData;
  flatpak_dir_get_remote_disabled : World → string → bool;
  flatpak_dir_fetch_ref_cache : World → string → string → option string;
  key_file_runtime : string → option string;
  flatpak_dir_find_local_related :
    World → string → string → option (list FlatpakRelated);
  flatpak_dir_find_remote_related :
    World → string → string → option (list FlatpakRelated);
  flatpak_dir_search_for_dependency : World → string → option (list string);
  flatpak_yes_no_prompt : World → string → bool;
  flatpak_number_prompt : World → Z → Z → Z;
  flatpak_dir_install :
    World → bool → bool → string → string → option (list string) →
    option GError * World;
  flatpak_dir_update :
    World → bool → bool → string → string → option string →
    option (list string) → option GError * World
}.

(** What an [add_*] entry point hands back: the [gboolean], the content of
    [*error] and the transaction after the call. *)
Record AddResult := {
  ar_ok : bool;
  ar_error : option GError;
  ar_tx : FlatpakTransaction
}.

(** [strchr (ref, '/') + 1].  The C code is undefined on a ref without a
    slash; the embedding yields the empty string there.  The value is only
    used in messages. *)
Fixpoint pref_of (ref : string) : string :=
  match ref with
  | EmptyString => EmptyString
  | String c s => if Ascii.eqb c "/"%char then s else pref_of s
  end.

(** ** Field updates *)

Definition op_set_subpaths (subpaths : option (list string))
    (op : FlatpakTransactionOp) : FlatpakTransactionOp :=
  {| op_remote := op_remote op; op_ref := op_ref op;
     op_subpaths := subpaths; op_commit := op_commit op;
     op_update := op_update op; op_install := op_install op;
     op_non_fatal := op_non_fatal op |}.

Definition op_set_non_fatal (b : bool)
    (op : FlatpakTransactionOp) : FlatpakTransactionOp :=
  {| op_remote := op_remote op; op_ref := op_ref op;
     op_subpaths := op_subpaths op; op_commit := op_commit op;
     op_update := op_update op; op_install := op_install op;
     op_non_fatal := b |}.

Definition op_set_install (b : bool)
    (op : FlatpakTransactionOp) : FlatpakTransactionOp :=
  {| op_remote := op_remote op; op_ref := op_ref op;
     op_subpaths := op_subpaths op; op_commit := op_commit op;
     op_update := op_update op; op_install := b;
     op_non_fatal := op_non_fatal op |}.

Definition op_set_update (b : bool)
    (op : FlatpakTransactionOp) : FlatpakTransactionOp :=
  {| op_remote := op_remote op; op_ref := op_ref op;
     op_subpaths := op_subpaths op; op_commit := op_commit op;
     op_update := b; op_install := op_install op;
     op_non_fatal := op_non_fatal op |}.

Definition tx_set_heap (heap : list FlatpakTransactionOp)
    (self : FlatpakTransaction) : FlatpakTransaction :=
  {| tx_heap := heap; tx_refs := tx_refs self; tx_ops := tx_ops self;
     tx_no_pull := tx_no_pull self; tx_no_deploy := tx_no_deploy self;
     tx_add_deps := tx_add_deps self;
     tx_add_related := tx_add_related self |}.

Definition tx_set_ops (ops : list nat)
    (self : FlatpakTransaction) : FlatpakTransaction :=
  {| tx_heap := tx_heap self; tx_refs := tx_refs self; tx_ops := ops;
     tx_no_pull := tx_no_pull self; tx_no_deploy := tx_no_deploy self;
     tx_add_deps := tx_add_deps self;
     tx_add_related := tx_add_related self |}.

(** ** The operation table *)

Definition flatpak_transaction_operation_new (remote ref : string)
    (subpaths : option (list string)) (commit : option string)
    (install update : bool) : FlatpakTransactionOp :=
  {| op_remote := remote; op_ref := ref; op_subpaths := subpaths;
     op_commit := commit; op_update := update; op_install := install;
     op_non_fatal := false |}.

Definition flatpak_transaction_new (no_pull no_deploy add_deps
    add_related : bool) : FlatpakTransaction :=
  {| tx_heap := []; tx_refs := ∅; tx_ops := [];
     tx_no_pull := no_pull; tx_no_deploy := no_deploy;
     tx_add_deps := add_deps; tx_add_related := add_related |}.

Definition flatpak_transaction_contains_ref (self : FlatpakTransaction)
    (ref : string) : bool :=
  match tx_refs self !! ref with
  | Some _ => true
  | None => false
  end.

(** The test [op->subpaths != NULL && op->subpaths[0] != NULL &&
    subpaths != NULL] of [flatpak_transaction_add_op]. *)
Definition overrides_subpaths (old new : option (list string)) : bool :=
  match old, new with
  | Some (_ :: _), Some _ => true
  | _, _ => false
  end.

(** The value of [op->subpaths] after a second request for its ref. *)
Definition merge_subpaths (old new : option (list string))
    : option (list string) :=
  if overrides_subpaths old new then new else old.

(** Returns the address of the operation and the transaction.  An address
    in the table with no operation behind it cannot arise (see [wf]); the
    embedding leaves the transaction as it is there. *)
Definition flatpak_transaction_add_op (self : FlatpakTransaction)
    (remote ref : string) (subpaths : option (list string))
    (commit : option string) (install update : bool)
    : nat * FlatpakTransaction :=
  match tx_refs self !! ref with
  | Some p =>
      match tx_heap self !! p with
      | Some op =>
          if overrides_subpaths (op_subpaths op) subpaths
          then (p, tx_set_heap
                     (<[p := op_set_subpaths subpaths op]> (tx_heap self))
                     self)
          else (p, self)
      | None => (p, self)
      end
  | None =>
      let op := flatpak_transaction_operation_new remote ref subpaths commit
                  install update in
      let p := length (tx_heap self) in
      (p, {| tx_heap := (tx_heap self ++ [op])%list;
             tx_refs := <[ref := p]> (tx_refs self);
             tx_ops := p :: tx_ops self;
             tx_no_pull := tx_no_pull self;
             tx_no_deploy := tx_no_deploy self;
             tx_add_deps := tx_add_deps self;
             tx_add_related := tx_add_related self |})
  end.

(** The operation the table holds for a ref, read through the pointer. *)
Definition lookup_op (self : FlatpakTransaction) (ref : string)
    : option FlatpakTransactionOp :=
  match tx_refs self !! ref with
  | Some p => tx_heap self !! p
  | None => None
  end.

(** ** Expansion and request intake *)

Section Planner.
Context {World : Type} `{!FlatpakDir World}.

(** Deployed in [dir], or in the system dir when [dir] is a user dir. *)
Definition ref_is_installed (w : World) (ref : string) : bool :=
  if flatpak_dir_get_if_deployed w ref then true
  else if flatpak_dir_is_user w
       then (if flatpak_dir_system_get_if_deployed w ref then true
             else false)
       else false.

(** [Some origin] is [TRUE] with [*remote_out = origin]; [None] is
    [FALSE]. *)
Definition dir_ref_is_installed (w : World) (ref : string)
    : option string :=
  match flatpak_dir_get_deploy_data w ref with
  | None => None
  | Some deploy_data => Some (dd_origin deploy_data)
  end.

Definition transaction_fetch_runtime_ref (w : World)
    (remote ref : string) : option string :=
  if negb (String.prefix "app/" ref) then None
  else match flatpak_dir_fetch_ref_cache w remote ref with
       | None => None
       | Some metadata => key_file_runtime metadata
       end.

(** [remotes] is a non-empty vector here.  [flatpak_number_prompt] is
    to answer within [0 .. n_remotes]; [remotes[n_remotes]] is the NULL
    terminator, and the embedding also yields NULL for an answer outside
    the range, where the C code reads outside the vector. *)
Definition ask_for_remote (w : World) (remotes : list string)
    : option string :=
  let n_remotes := Z.of_nat (length remotes) in
  let chosen :=
    match remotes with
    | [r0] => if flatpak_yes_no_prompt w r0 then 1%Z else 0%Z
    | _ => flatpak_number_prompt w 0%Z n_remotes
    end in
  if (chosen =? 0)%Z then None
  else if (chosen <? 0)%Z then None
  else remotes !! Z.to_nat (chosen - 1).

(** One turn of the loop of [add_related]. *)
Definition add_related_step (remote : string)
    (self : FlatpakTransaction) (rel : FlatpakRelated)
    : FlatpakTransaction :=
  if negb (rel_download rel) then self
  else
    let '(p, self1) :=
      flatpak_transaction_add_op self remote (rel_ref rel)
        (rel_subpaths rel) None true true in
    tx_set_heap (alter (op_set_non_fatal true) p (tx_heap self1)) self1.

(** Never touches [*error]; always returns [TRUE]. *)
Definition add_related (w : World) (self : FlatpakTransaction)
    (remote ref : string) : bool * FlatpakTransaction :=
  if negb (tx_add_related self) then (true, self)
  else
    let related :=
      if tx_no_pull self
      then flatpak_dir_find_local_related w ref remote
      else flatpak_dir_find_remote_related w ref remote in
    match related with
    | None => (true, self)
    | Some rels => (true, foldl (add_related_step remote) self rels)
    end.

Definition missing_runtime_error (pref runtime_ref : string) : GError :=
  FLATPAK_FAIL ("The Application " +:+ pref +:+ " requires the runtime "
                +:+ runtime_ref +:+ " which is not installed").

(** The block guarded by [!flatpak_transaction_contains_ref] in
    [add_deps]: [None] when it leaves through [return flatpak_fail],
    otherwise the value of [runtime_remote] and the transaction. *)
Definition add_deps_runtime (w : World) (self : FlatpakTransaction)
    (full_runtime_ref : string)
    : option (option string * FlatpakTransaction) :=
  if negb (flatpak_transaction_contains_ref self full_runtime_ref)
  then
    if negb (ref_is_installed w full_runtime_ref)
    then
      let runtime_remote :=
        match flatpak_dir_search_for_dependency w full_runtime_ref with
        | None | Some [] => None
        | Some remotes => ask_for_remote w remotes
        end in
      match runtime_remote with
      | None => None
      | Some r =>
          Some (Some r,
                (flatpak_transaction_add_op self r full_runtime_ref
                   None None true true).2)
      end
    else
      match dir_ref_is_installed w full_runtime_ref with
      | Some origin =>
          Some (Some origin,
                (flatpak_transaction_add_op self origin full_runtime_ref
                   None None false true).2)
      | None => Some (None, self)
      end
  else Some (None, self).

Definition add_deps (w : World) (self : FlatpakTransaction)
    (remote ref : string) : AddResult :=
  match transaction_fetch_runtime_ref w remote ref with
  | None => {| ar_ok := true; ar_error := None; ar_tx := self |}
  | Some runtime_ref =>
      let pref := pref_of ref in
      let full_runtime_ref := "runtime/" +:+ runtime_ref in
      match add_deps_runtime w self full_runtime_ref with
      | None =>
          {| ar_ok := false;
             ar_error := Some (missing_runtime_error pref runtime_ref);
             ar_tx := self |}
      | Some (None, self1) =>
          {| ar_ok := true; ar_error := None; ar_tx := self1 |}
      | Some (Some runtime_remote, self1) =>
          let '(ok, self2) :=
            add_related w self1 runtime_remote full_runtime_ref in
          if negb ok
          then {| ar_ok := false; ar_error := None; ar_tx := self2 |}
          else {| ar_ok := true; ar_error := None; ar_tx := self2 |}
      end
  end.

(** [flatpak_transaction_add_ref] from [if (self->add_deps)] to its end:
    the dependency pass, whose result is dropped but whose [*error]
    stays, the operation itself, and the related pass. *)
Definition add_ref_record (w : World) (self : FlatpakTransaction)
    (remote ref : string) (subpaths : option (list string))
    (commit : option string) (is_update : bool) : AddResult :=
  let deps :=
    if tx_add_deps self then add_deps w self remote ref
    else {| ar_ok := true; ar_error := None; ar_tx := self |} in
  let self2 :=
    (flatpak_transaction_add_op (ar_tx deps) remote ref subpaths commit
       (negb is_update) is_update).2 in
  let '(ok, self3) := add_related w self2 remote ref in
  if negb ok
  then {| ar_ok := false; ar_error := ar_error deps; ar_tx := self3 |}
  else {| ar_ok := true; ar_error := ar_error deps; ar_tx := self3 |}.

(** [remote] is NULL ([None]) when called for an update.  For an install
    [g_assert (remote != NULL)] aborts the program on NULL; no entry point
    below passes NULL there, and the embedding answers with a failure
    that leaves the transaction alone. *)
Definition flatpak_transaction_add_ref (w : World)
    (self : FlatpakTransaction) (remote : option string) (ref : string)
    (subpaths : option (list string)) (commit : option string)
    (is_update : bool) : AddResult :=
  let pref := pref_of ref in
  if is_update
  then
    match dir_ref_is_installed w ref with
    | None =>
        {| ar_ok := false;
           ar_error :=
             Some (FLATPAK_ERROR_NOT_INSTALLED (pref +:+ " not installed"));
           ar_tx := self |}
    | Some origin =>
        if flatpak_dir_get_remote_disabled w origin
        then {| ar_ok := true; ar_error := None; ar_tx := self |}
        else add_ref_record w self origin ref subpaths commit is_update
    end
  else
    match remote with
    | None =>
        {| ar_ok := false;
           ar_error := Some (OTHER_ERROR 0 "assertion failed: remote");
           ar_tx := self |}
    | Some remote =>
        match dir_ref_is_installed w ref with
        | Some _ =>
            {| ar_ok := false;
               ar_error :=
                 Some (FLATPAK_ERROR_ALREADY_INSTALLED
                         (pref +:+ " already installed"));
               ar_tx := self |}
        | None =>
            add_ref_record w self remote ref subpaths commit is_update
        end
    end.

(** [remote] is a string: the entry point is not given NULL. *)
Definition flatpak_transaction_add_install (w : World)
    (self : FlatpakTransaction) (remote ref : string)
    (subpaths : option (list string)) : AddResult :=
  let all_paths : list string := [] in
  let subpaths :=
    match subpaths with
    | None => Some all_paths
    | Some _ => subpaths
    end in
  flatpak_transaction_add_ref w self (Some remote) ref subpaths None false.

Definition flatpak_transaction_add_update (w : World)
    (self : FlatpakTransaction) (ref : string)
    (subpaths : option (list string)) (commit : option string)
    : AddResult :=
  flatpak_transaction_add_ref w self None ref subpaths commit true.

End Planner.

(** ** The executor *)

(** What the executor did with one operation: the state of the outside
    world when it reached the operation, the operation as the table held it
    and as it was after [install] and [update] were settled, what the
    deploy engine returned, and the error left after the check for an
    update with nothing to do ([None] when [res] is [TRUE]). *)
Record OpEvent (World : Type) := {
  ev_world : World;
  ev_ptr : nat;
  ev_before : FlatpakTransactionOp;
  ev_op : FlatpakTransactionOp;
  ev_engine : option GError;
  ev_local_error : option GError
}.
Arguments ev_world {World} _.
Arguments ev_ptr {World} _.
Arguments ev_before {World} _.
Arguments ev_op {World} _.
Arguments ev_engine {World} _.
Arguments ev_local_error {World} _.

(** The [gboolean] of [flatpak_transaction_run], the content of [*error],
    the outside world and the transaction after the run, and the
    operations in the order they were handed to the deploy engine. *)
Record RunResult (World : Type) := {
  run_ok : bool;
  run_error : option GError;
  run_world : World;
  run_tx : FlatpakTransaction;
  run_trace : list (OpEvent World)
}.
Arguments run_ok {World} _.
Arguments run_error {World} _.
Arguments run_world {World} _.
Arguments run_tx {World} _.
Arguments run_trace {World} _.

Section Executor.
Context {World : Type} `{!FlatpakDir World}.

(** [if (op->install && op->update) ...] at the head of the loop. *)
Definition resolve_flags (w : World) (op : FlatpakTransactionOp)
    : FlatpakTransactionOp :=
  if op_install op && op_update op
  then match dir_ref_is_installed w (op_ref op) with
       | Some _ => op_set_install false op
       | None => op_set_update false op
       end
  else op.

(** The call of the deploy engine: what the engine returned, the world
    after it, and [local_error] once a failed update with
    [FLATPAK_ERROR_ALREADY_INSTALLED] has been turned into a success.
    After a successful update the C code reads the deploy data once more,
    only to print the new commit. *)
Definition dispatch (w : World) (self : FlatpakTransaction)
    (op : FlatpakTransactionOp)
    : option GError * option GError * World :=
  if op_install op
  then
    let '(res, w1) :=
      flatpak_dir_install w (tx_no_pull self) (tx_no_deploy self)
        (op_ref op) (op_remote op) (op_subpaths op) in
    (res, res, w1)
  else
    let '(res, w1) :=
      flatpak_dir_update w (tx_no_pull self) (tx_no_deploy self)
        (op_ref op) (op_remote op) (op_commit op) (op_subpaths op) in
    match res with
    | Some (FLATPAK_ERROR_ALREADY_INSTALLED _) => (res, None, w1)
    | _ => (res, res, w1)
    end.

Definition operations_failed : GError :=
  FLATPAK_FAIL "One or more operations failed".

(** The block [if (!res)] at the end of the loop body: either the loop
    goes on with these values of [succeeded] and [*error], or the
    function returns [FALSE] with the error of the operation. *)
Inductive Outcome :=
  | Continue (succeeded : bool) (error : option GError)
  | Return (error : GError).

Definition failure_policy (stop_on_first_error : bool)
    (op : FlatpakTransactionOp) (local_error : option GError)
    (succeeded : bool) (error : option GError) : Outcome :=
  match local_error with
  | None => Continue succeeded error
  | Some e =>
      if op_non_fatal op then Continue succeeded error
      else if negb stop_on_first_error
      then
        if succeeded then Continue false (Some operations_failed)
        else Continue succeeded error
      else Return e
  end.

(** The [for] loop over [self->ops].  [succeeded] and [error] are the
    local variable and [*error]; [trace] collects the events.  A list
    cell whose address holds no operation cannot arise (see [wf]) and is
    stepped over. *)
Fixpoint run_loop (stop_on_first_error : bool) (w : World)
    (self : FlatpakTransaction) (l : list nat) (succeeded : bool)
    (error : option GError) (trace : list (OpEvent World))
    : RunResult World :=
  match l with
  | [] =>
      {| run_ok := succeeded; run_error := error; run_world := w;
         run_tx := self; run_trace := trace |}
  | p :: l' =>
      match tx_heap self !! p with
      | None =>
          run_loop stop_on_first_error w self l' succeeded error trace
      | Some op0 =>
          let op := resolve_flags w op0 in
          let self1 := tx_set_heap (<[p := op]> (tx_heap self)) self in
          let '(engine, local_error, w1) := dispatch w self1 op in
          let trace1 :=
            (trace ++ [ {| ev_world := w; ev_ptr := p; ev_before := op0;
                           ev_op := op; ev_engine := engine;
                           ev_local_error := local_error |} ])%list in
          match failure_policy stop_on_first_error op local_error
                  succeeded error with
          | Continue succeeded1 error1 =>
              run_loop stop_on_first_error w1 self1 l' succeeded1 error1
                trace1
          | Return e =>
              {| run_ok := false; run_error := Some e; run_world := w1;
                 run_tx := self1; run_trace := trace1 |}
          end
      end
  end.

(** [*error] is empty on entry, as a caller of a [GError **] function
    has it. *)
Definition flatpak_transaction_run (w : World)
    (self : FlatpakTransaction) (stop_on_first_error : bool)
    : RunResult World :=
  let self1 := tx_set_ops (rev (tx_ops self)) self in
  run_loop stop_on_first_error w self1 (tx_ops self1) true None [].

End Executor.

(** ** A concrete outside world

    A small deploy store, catalog and user, used to run the transaction on
    explicit inputs. *)
Module Demo.

Record World := {
  w_user : bool;
  w_deployed : list (string * DeployData);
  w_system : list string;
  w_disabled : list string;
  w_metadata : list (string * string);
  w_related : list (string * list FlatpakRelated);
  w_providers : list (string * list string);
  w_yes : bool;
  w_number : Z;
  w_failing : list string
}.

Fixpoint assoc {A : Type} (k : string) (l : list (string * A))
    : option A :=
  match l with
  | [] => None
  | (k', a) :: l' => if String.eqb k k' then Some a else assoc k l'
  end.

Definition mem (k : string) (l : list string) : bool :=
  existsb (String.eqb k) l.

Definition set_deployed (d : list (string * DeployData)) (w : World)
    : World :=
  {| w_user := w_user w; w_deployed := d; w_system := w_system w;
     w_disabled := w_disabled w; w_metadata := w_metadata w;
     w_related := w_related w; w_providers := w_providers w;
     w_yes := w_yes w; w_number := w_number w;
     w_failing := w_failing w |}.

(** The engine refuses the refs of [w_failing]; otherwise an install
    deploys the ref and an update of a deployed ref succeeds. *)
Definition install (w : World) (ref remote : string)
    : option GError * World :=
  if mem ref (w_failing w) then (Some (OTHER_ERROR 1 "deploy failed"), w)
  else match assoc ref (w_deployed w) with
       | Some _ => (Some (FLATPAK_ERROR_ALREADY_INSTALLED ref), w)
       | None =>
           (None,
            set_deployed
              ((ref, {| dd_origin := remote; dd_commit := "0123456789ab" |})
                 :: w_deployed w) w)
       end.

Definition update (w : World) (ref : string) : option GError * World :=
  if mem ref (w_failing w) then (Some (OTHER_ERROR 1 "deploy failed"), w)
  else match assoc ref (w_deployed w) with
       | Some _ => (None, w)
       | None => (Some (FLATPAK_ERROR_NOT_INSTALLED ref), w)
       end.

#[global] Instance dir : FlatpakDir World := {|
  flatpak_dir_get_if_deployed w ref :=
    match assoc ref (w_deployed w) with Some _ => true | None => false end;
  flatpak_dir_is_user := w_user;
  flatpak_dir_system_get_if_deployed w ref := mem ref (w_system w);
  flatpak_dir_get_deploy_data w ref := assoc ref (w_deployed w);
  flatpak_dir_get_remote_disabled w remote := mem remote (w_disabled w);
  flatpak_dir_fetch_ref_cache w remote ref := assoc ref (w_metadata w);
  key_file_runtime metadata := Some metadata;
  flatpak_dir_find_local_related w ref remote :=
    Some (default [] (assoc ref (w_related w)));
  flatpak_dir_find_remote_related w ref remote :=
    Some (default [] (assoc ref (w_related w)));
  flatpak_dir_search_for_dependency w ref := assoc ref (w_providers w);
  flatpak_yes_no_prompt w remote := w_yes w;
  flatpak_number_prompt w lo hi := w_number w;
  flatpak_dir_install w no_pull no_deploy ref remote subpaths :=
    install w ref remote;
  flatpak_dir_update w no_pull no_deploy ref remote commit subpaths :=
    update w ref
|}.

Definition app : string := "app/com.X/x86_64/stable".
Definition runtime : string := "runtime/org.Y/x86_64/stable".
Definition locale : string := "runtime/com.X.Locale/x86_64/stable".

(** An empty user-scope store, nothing in the catalog. *)
Definition empty : World :=
  {| w_user := true; w_deployed := []; w_system := []; w_disabled := [];
     w_metadata := []; w_related := []; w_providers := []; w_yes := true;
     w_number := 0; w_failing := [] |}.

(** [app] declares the runtime [org.Y/x86_64/stable]; [providers] are
    the remotes that offer it and [number] is the user's answer when
    there are several. *)
Definition needs_runtime (providers : list string) (yes : bool)
    (number : Z) : World :=
  {| w_user := true; w_deployed := []; w_system := []; w_disabled := [];
     w_metadata := [(app, "org.Y/x86_64/stable")]; w_related := [];
     w_providers := [(runtime, providers)]; w_yes := yes;
     w_number := number; w_failing := [] |}.

(** A user-scope store in which [app] is deployed in the system scope
    only. *)
Definition system_only : World :=
  {| w_user := true; w_deployed := []; w_system := [app];
     w_disabled := []; w_metadata := []; w_related := [];
     w_providers := []; w_yes := true; w_number := 0; w_failing := [] |}.

(** [app] is deployed from the remote [origin]; [disabled] says whether
    that remote is disabled. *)
Definition app_deployed (disabled : bool) : World :=
  {| w_user := true;
     w_deployed :=
       [(app, {| dd_origin := "origin"; dd_commit := "0123456789ab" |})];
     w_system := [];
     w_disabled := if disabled then ["origin"] else [];
     w_metadata := []; w_related := []; w_providers := [];
     w_yes := true; w_number := 0; w_failing := [] |}.

(** [app] has one downloaded related ref, [locale], restricted to the
    subpath [/de]; the engine refuses the refs of [failing]. *)
Definition with_locale (failing : list string) : World :=
  {| w_user := true; w_deployed := []; w_system := []; w_disabled := [];
     w_metadata := [];
     w_related :=
       [(app, [ {| rel_ref := locale; rel_subpaths := Some ["/de"];
                   rel_download := true |} ])];
     w_providers := []; w_yes := true; w_number := 0;
     w_failing := failing |}.

(** An empty store whose deploy engine refuses the refs of [failing]. *)
Definition refusing (failing : list string) : World :=
  {| w_user := true; w_deployed := []; w_system := []; w_disabled := [];
     w_metadata := []; w_related := []; w_providers := []; w_yes := true;
     w_number := 0; w_failing := failing |}.

(** A new transaction with dependency and related expansion enabled. *)
Definition fresh : FlatpakTransaction :=
  flatpak_transaction_new false false true true.

End Demo.

(** ** Properties of transactions *)

(** The states a transaction can be in.  Every entry of the table points
    at an operation for its key, every operation is in the table under its
    ref, and the list holds each address once, newest first. *)
Record wf (self : FlatpakTransaction) : Prop := {
  wf_refs : ∀ r p, tx_refs self !! r = Some p →
            ∃ op, tx_heap self !! p = Some op ∧ op_ref op = r;
  wf_heap : ∀ p op, tx_heap self !! p = Some op →
            tx_refs self !! op_ref op = Some p;
  wf_ops : tx_ops self = rev (seq 0 (length (tx_heap self)))
}.

(** What a later state of one operation object can differ in: its
    subpaths, unless they were NULL, and [non_fatal], which is only ever
    set. *)
Definition op_le (a b : FlatpakTransactionOp) : Prop :=
  op_remote a = op_remote b ∧ op_ref a = op_ref b ∧
  op_commit a = op_commit b ∧ op_install a = op_install b ∧
  op_update a = op_update b ∧
  (op_non_fatal a = true → op_non_fatal b = true) ∧
  (op_subpaths a = None → op_subpaths b = None).

(** [b] is [a] after more requests: same options, the table only grows
    and every operation object stays at its address. *)
Record tx_le (a b : FlatpakTransaction) : Prop := {
  le_no_pull : tx_no_pull a = tx_no_pull b;
  le_no_deploy : tx_no_deploy a = tx_no_deploy b;
  le_add_deps : tx_add_deps a = tx_add_deps b;
  le_add_related : tx_add_related a = tx_add_related b;
  le_refs : ∀ r p, tx_refs a !! r = Some p → tx_refs b !! r = Some p;
  le_heap : ∀ p op, tx_heap a !! p = Some op →
            ∃ op', tx_heap b !! p = Some op' ∧ op_le op op'
}.

(** The order in which [flatpak_transaction_run] walks the operations:
    the list after [g_list_reverse]. *)
Definition executor_order (self : FlatpakTransaction) : list nat :=
  rev (tx_ops self).

Definition precedes (l : list nat) (a b : nat) : Prop :=
  ∃ i j, l !! i = Some a ∧ l !! j = Some b ∧ i < j.

(** A call of [flatpak_transaction_add_op] and a sequence of them. *)
Record AddOpCall := {
  c_remote : string;
  c_ref : string;
  c_subpaths : option (list string);
  c_commit : option string;
  c_install : bool;
  c_update : bool
}.

Definition add_op_call (self : FlatpakTransaction) (c : AddOpCall)
    : FlatpakTransaction :=
  (flatpak_transaction_add_op self (c_remote c) (c_ref c) (c_subpaths c)
     (c_commit c) (c_install c) (c_update c)).2.

Definition add_op_calls (self : FlatpakTransaction) (cs : list AddOpCall)
    : FlatpakTransaction :=
  foldl add_op_call self cs.

(** The subpaths arguments of the calls that mention [ref], in order. *)
Definition subpaths_for (ref : string) (cs : list AddOpCall)
    : list (option (list string)) :=
  c_subpaths <$> filter (λ c, c_ref c = ref) cs.

Definition is_unrestricted (sp : option (list string)) : bool :=
  match sp with Some [] => true | _ => false end.

Definition is_restricted (sp : option (list string)) : bool :=
  match sp with Some (_ :: _) => true | _ => false end.

(** Invariant I2 as the specification words it: unrestricted if any call
    was unrestricted, otherwise the subpaths of the most recent restricted
    call ([None] when there is neither). *)
Definition I2_final (sps : list (option (list string)))
    : option (option (list string)) :=
  if existsb is_unrestricted sps then Some (Some [])
  else last (filter (λ sp, is_restricted sp = true) sps).

(** The related refs an expansion of [(remote, ref)] looks at: the local
    index under [no_pull], the remote one otherwise. *)
Definition find_related {World : Type} `{!FlatpakDir World} (w : World)
    (self : FlatpakTransaction) (remote ref : string)
    : option (list FlatpakRelated) :=
  if tx_no_pull self then flatpak_dir_find_local_related w ref remote
  else flatpak_dir_find_remote_related w ref remote.

(** The state in which [flatpak_transaction_add_ref] reaches its call of
    [flatpak_transaction_add_op]: after the dependency pass, if enabled. *)
Definition after_deps {World : Type} `{!FlatpakDir World} (w : World)
    (self : FlatpakTransaction) (remote ref : string)
    : FlatpakTransaction :=
  if tx_add_deps self then ar_tx (add_deps w self remote ref) else self.

(** The related refs that a related pass on [(remote, ref)] goes through:
    none when the pass is disabled or the lookup fails. *)
Definition related_list {World : Type} `{!FlatpakDir World} (w : World)
    (self : FlatpakTransaction) (remote ref : string)
    : list FlatpakRelated :=
  if tx_add_related self
  then default [] (find_related w self remote ref)
  else [].

(** What the loop of [add_related] makes of the operation [o] of a ref,
    given the subpaths [targets] of the downloaded related refs of that
    name: nothing if there are none; otherwise the operation, created by
    the first of them if there was none, with the subpaths merged in order
    and [non_fatal] set. *)
Definition related_result (remote r : string)
    (o : option FlatpakTransactionOp)
    (targets : list (option (list string)))
    : option FlatpakTransactionOp :=
  match targets with
  | [] => o
  | t0 :: targets' =>
      let a :=
        match o with
        | Some op =>
            op_set_subpaths (merge_subpaths (op_subpaths op) t0) op
        | None =>
            flatpak_transaction_operation_new remote r t0 None true true
        end in
      Some (op_set_non_fatal true
              (op_set_subpaths
                 (foldl merge_subpaths (op_subpaths a) targets') a))
  end.

(** Every operation has at least one of [install] and [update] set. *)
Definition flagged (self : FlatpakTransaction) : Prop :=
  ∀ p op, tx_heap self !! p = Some op →
          op_install op || op_update op = true.

(** The transactions that the entry points build from a new one, each
    request in an outside world of its own. *)
Inductive built {World : Type} `{!FlatpakDir World}
    : FlatpakTransaction → Prop :=
  | built_new no_pull no_deploy add_deps add_related :
      built (flatpak_transaction_new no_pull no_deploy add_deps add_related)
  | built_install w self remote ref subpaths :
      built self →
      built (ar_tx (flatpak_transaction_add_install w self remote ref
                      subpaths))
  | built_update w self ref subpaths commit :
      built self →
      built (ar_tx (flatpak_transaction_add_update w self ref subpaths
                      commit)).

(** The reading of the already-installed check under which a ref deployed
    in the system scope blocks an install into the user scope: whenever
    [ref_is_installed] holds, [flatpak_transaction_add_install] fails with
    [FLATPAK_ERROR_ALREADY_INSTALLED] and leaves the transaction alone. *)
Definition install_blocked_by_ref_is_installed {World : Type}
    `{!FlatpakDir World} (w : World) (self : FlatpakTransaction)
    (remote ref : string) (subpaths : option (list string)) : Prop :=
  ref_is_installed w ref = true →
  let r := flatpak_transaction_add_install w self remote ref subpaths in
  ar_ok r = false ∧
  (∃ msg, ar_error r = Some (FLATPAK_ERROR_ALREADY_INSTALLED msg)) ∧
  ar_tx r = self.

(** The round trip of an install request as the specification words it,
    with [w] and [w'] the outside world at the first and at the second
    call: the second call succeeds and changes nothing, the table holds
    the same operation object for the ref, and none of its fields has
    changed. *)
Definition second_install_is_no_op {World : Type} `{!FlatpakDir World}
    (w w' : World) (self : FlatpakTransaction) (remote ref : string)
    (subpaths : option (list string)) : Prop :=
  dir_ref_is_installed w ref = None →
  dir_ref_is_installed w' ref = None →
  let r1 := flatpak_transaction_add_install w self remote ref subpaths in
  let r2 :=
    flatpak_transaction_add_install w' (ar_tx r1) remote ref subpaths in
  ar_ok r2 = true ∧ ar_tx r2 = ar_tx r1 ∧
  ∃ p op1 op2,
    tx_refs (ar_tx r1) !! ref = Some p ∧
    tx_heap (ar_tx r1) !! p = Some op1 ∧
    tx_refs (ar_tx r2) !! ref = Some p ∧
    tx_heap (ar_tx r2) !! p = Some op2 ∧
    op_remote op2 = op_remote op1 ∧ op_ref op2 = op_ref op1 ∧
    op_subpaths op2 = op_subpaths op1 ∧ op_commit op2 = op_commit op1 ∧
    op_install op2 = op_install op1 ∧ op_update op2 = op_update op1.

(** Invariant I2 for a sequence of calls from [self] and the ref [ref]. *)
Definition I2_holds (self : FlatpakTransaction) (cs : list AddOpCall)
    (ref : string) : Prop :=
  op_subpaths <$> lookup_op (add_op_calls self cs) ref =
  I2_final (subpaths_for ref cs).

(** Invariant I5 for one request: every operation that the dependency
    pass put on the list comes before the operation of the requested ref
    in the order of the executor. *)
Definition I5_holds {World : Type} `{!FlatpakDir World} (w : World)
    (self : FlatpakTransaction) (remote ref : string)
    (subpaths : option (list string)) (commit : option string)
    (is_update : bool) : Prop :=
  let final :=
    ar_tx (add_ref_record w self remote ref subpaths commit is_update) in
  ∀ p, p ∈ tx_ops (after_deps w self remote ref) → p ∉ tx_ops self →
       ∃ p', tx_refs final !! ref = Some p' ∧
             precedes (executor_order final) p p'.

(** The subpaths of the related refs that are downloaded and name [ref]. *)
Definition related_subpaths_for (ref : string) (rels : list FlatpakRelated)
    : list (option (list string)) :=
  rel_subpaths <$>
    filter (λ rel, rel_download rel = true ∧ rel_ref rel = ref) rels.

(** The subpaths that a related pass on [(remote, ref)] merges into the
    operation of the ref [r], in order. *)
Definition related_targets {World : Type} `{!FlatpakDir World} (w : World)
    (self : FlatpakTransaction) (remote ref r : string)
    : list (option (list string)) :=
  if tx_add_related self
  then match find_related w self remote ref with
       | Some rels => related_subpaths_for r rels
       | None => []
       end
  else [].

(** ** Concrete requests

    Transactions and call sequences over the outside worlds of [Demo]. *)
Module Scenario.

Definition call (ref : string) (subpaths : option (list string))
    : AddOpCall :=
  {| c_remote := "origin"; c_ref := ref; c_subpaths := subpaths;
     c_commit := None; c_install := true; c_update := false |}.

(** A call with NULL subpaths, then one with the empty vector. *)
Definition null_then_all : list AddOpCall :=
  [call Demo.app None; call Demo.app (Some [])].

(** Restricted, unrestricted and restricted again, with a call for
    another ref in between. *)
Definition mixed : list AddOpCall :=
  [call Demo.app (Some ["/a"]); call Demo.locale None;
   call Demo.app (Some []); call Demo.app (Some ["/b"])].

(** [app] requested while the catalog has no metadata for it. *)
Definition app_recorded : FlatpakTransaction :=
  ar_tx (flatpak_transaction_add_install Demo.empty Demo.fresh "origin"
           Demo.app None).

(** The world in which the runtime of [app] is offered by [origin] and
    the user agrees to install it. *)
Definition runtime_offered : Demo.World :=
  Demo.needs_runtime ["origin"] true 0.

(** [app] requested in [runtime_offered]. *)
Definition planned : FlatpakTransaction :=
  ar_tx (flatpak_transaction_add_install runtime_offered Demo.fresh
           "origin" Demo.app None).

(** [app] requested where it has the related ref [locale], which the
    deploy engine will refuse. *)
Definition locale_fails : Demo.World := Demo.with_locale [Demo.locale].

Definition with_related : FlatpakTransaction :=
  ar_tx (flatpak_transaction_add_install locale_fails Demo.fresh "origin"
           Demo.app None).

(** [locale] requested directly, hence with a fatal operation. *)
Definition locale_direct : FlatpakTransaction :=
  ar_tx (flatpak_transaction_add_install Demo.empty Demo.fresh "origin"
           Demo.locale None).

Definition locale_related : FlatpakRelated :=
  {| rel_ref := Demo.locale; rel_subpaths := Some ["/de"];
     rel_download := true |}.

(** [app] and then [locale] requested directly, both fatal. *)
Definition two_installs : FlatpakTransaction :=
  ar_tx (flatpak_transaction_add_install Demo.empty app_recorded "origin"
           Demo.locale None).

End Scenario.

(** ** The operation table: basic facts *)

Section OpTable.
Implicit Types (self : FlatpakTransaction) (op : FlatpakTransactionOp).
Implicit Types (sp : option (list string)).

Lemma merge_subpaths_None sp : merge_subpaths None sp = None.
Proof. done. Qed.

Lemma merge_subpaths_all sp : merge_subpaths (Some []) sp = Some [].
Proof. done. Qed.

Lemma merge_subpaths_null sp : merge_subpaths sp None = sp.
Proof. by destruct sp as [[|]|]. Qed.

Lemma merge_subpaths_restricted x l (new : list string) :
  merge_subpaths (Some (x :: l)) (Some new) = Some new.
Proof. done. Qed.

Lemma op_le_refl op : op_le op op.
Proof. by repeat split. Qed.

Lemma op_le_trans a b c : op_le a b → op_le b c → op_le a c.
Proof.
  intros (?&?&?&?&?&?&?) (?&?&?&?&?&?&?).
  repeat split; try congruence; auto.
Qed.

Lemma op_le_set_subpaths op sp :
  op_le op (op_set_subpaths (merge_subpaths (op_subpaths op) sp) op).
Proof.
  repeat split; simpl; auto. intros ->. done.
Qed.

Lemma op_le_set_non_fatal op : op_le op (op_set_non_fatal true op).
Proof. by repeat split. Qed.

Lemma tx_le_refl self : tx_le self self.
Proof. split; eauto using op_le_refl. Qed.

Lemma tx_le_trans a b c : tx_le a b → tx_le b c → tx_le a c.
Proof.
  intros [] []. split; try congruence; auto.
  intros p op Hp. edestruct le_heap0 as (op' & Hp' & Hle); [done|].
  edestruct le_heap1 as (op'' & Hp'' & Hle'); [done|].
  eauto using op_le_trans.
Qed.

Lemma wf_new no_pull no_deploy add_deps add_related :
  wf (flatpak_transaction_new no_pull no_deploy add_deps add_related).
Proof. split; simpl; [intros r p Hr; by simplify_map_eq | done | done]. Qed.

Lemma contains_ref_true self ref :
  flatpak_transaction_contains_ref self ref = true ↔
  is_Some (tx_refs self !! ref).
Proof.
  unfold flatpak_transaction_contains_ref.
  destruct (tx_refs self !! ref) as [p|]; by split.
Qed.

Lemma contains_ref_false self ref :
  flatpak_transaction_contains_ref self ref = false ↔
  tx_refs self !! ref = None.
Proof.
  unfold flatpak_transaction_contains_ref.
  by destruct (tx_refs self !! ref).
Qed.

Lemma contains_ref_le a b ref :
  tx_le a b → flatpak_transaction_contains_ref a ref = true →
  flatpak_transaction_contains_ref b ref = true.
Proof.
  intros Hle. rewrite !contains_ref_true. intros [p Hp].
  exists p. by apply Hle.
Qed.

(** A second request for a ref rewrites the subpaths of the operation
    it finds and nothing else. *)
Lemma add_op_present self remote ref sp commit install update p op :
  tx_refs self !! ref = Some p → tx_heap self !! p = Some op →
  flatpak_transaction_add_op self remote ref sp commit install update =
  (p, tx_set_heap
        (<[p := op_set_subpaths (merge_subpaths (op_subpaths op) sp) op]>
           (tx_heap self)) self).
Proof.
  intros Hr Hp. unfold flatpak_transaction_add_op, merge_subpaths.
  rewrite Hr, Hp. destruct (overrides_subpaths _ _); [done|].
  f_equal. unfold tx_set_heap. rewrite list_insert_id.
  - by destruct self.
  - rewrite Hp. f_equal. by destruct op.
Qed.

Lemma add_op_absent self remote ref sp commit install update :
  tx_refs self !! ref = None →
  flatpak_transaction_add_op self remote ref sp commit install update =
  (length (tx_heap self),
   {| tx_heap := tx_heap self ++
        [flatpak_transaction_operation_new remote ref sp commit install
           update];
      tx_refs := <[ref := length (tx_heap self)]> (tx_refs self);
      tx_ops := length (tx_heap self) :: tx_ops self;
      tx_no_pull := tx_no_pull self; tx_no_deploy := tx_no_deploy self;
      tx_add_deps := tx_add_deps self;
      tx_add_related := tx_add_related self |}).
Proof. intros Hr. unfold flatpak_transaction_add_op. by rewrite Hr. Qed.

End OpTable.

Section OpTableInvariants.
Implicit Types (self : FlatpakTransaction) (op : FlatpakTransactionOp).
Implicit Types (sp : option (list string)).

Lemma rev_seq_S n : rev (seq 0 (S n)) = n :: rev (seq 0 n).
Proof. by rewrite seq_S, rev_unit. Qed.

(** Rewriting operations in place, each keeping its ref, keeps the
    transaction well formed. *)
Lemma wf_set_heap self heap' :
  wf self → length heap' = length (tx_heap self) →
  (∀ q o', heap' !! q = Some o' →
     ∃ o, tx_heap self !! q = Some o ∧ op_ref o' = op_ref o) →
  wf (tx_set_heap heap' self).
Proof.
  intros [Hrefs Hheap Hops] Hlen Hsame. split; simpl.
  - intros r p Hr. destruct (Hrefs r p Hr) as (o & Ho & Href).
    destruct (lookup_lt_is_Some_2 heap' p) as [o' Ho'].
    { rewrite Hlen. by eapply lookup_lt_Some. }
    exists o'. split; [done|].
    destruct (Hsame p o' Ho') as (o2 & Ho2 & ->). congruence.
  - intros p o' Ho'. destruct (Hsame p o' Ho') as (o & Ho & ->). auto.
  - by rewrite Hlen.
Qed.

Lemma tx_le_set_heap self heap' :
  (∀ q o, tx_heap self !! q = Some o →
     ∃ o', heap' !! q = Some o' ∧ op_le o o') →
  tx_le self (tx_set_heap heap' self).
Proof. intros Hh. by split. Qed.

Lemma wf_insert self p op op' :
  wf self → tx_heap self !! p = Some op → op_ref op' = op_ref op →
  wf (tx_set_heap (<[p := op']> (tx_heap self)) self).
Proof.
  intros Hwf Hp Href. apply wf_set_heap; [done|by rewrite length_insert|].
  intros q o' Hq. apply list_lookup_insert_Some in Hq as [(<-&<-&_)|[_ Hq]].
  - eauto.
  - eauto.
Qed.

Lemma tx_le_insert self p op op' :
  tx_heap self !! p = Some op → op_le op op' →
  tx_le self (tx_set_heap (<[p := op']> (tx_heap self)) self).
Proof.
  intros Hp Hle. apply tx_le_set_heap. intros q o Hq.
  destruct (decide (p = q)) as [<-|Hne].
  - rewrite list_lookup_insert_eq by (by eapply lookup_lt_Some).
    exists op'. split; [done|]. congruence.
  - rewrite list_lookup_insert_ne by done. eauto using op_le_refl.
Qed.

Lemma wf_injective self r1 r2 p :
  wf self → tx_refs self !! r1 = Some p → tx_refs self !! r2 = Some p →
  r1 = r2.
Proof.
  intros Hwf H1 H2.
  destruct (wf_refs _ Hwf _ _ H1) as (o1 & Ho1 & <-).
  destruct (wf_refs _ Hwf _ _ H2) as (o2 & Ho2 & <-). congruence.
Qed.

Lemma lookup_op_Some self r op :
  lookup_op self r = Some op ↔
  ∃ p, tx_refs self !! r = Some p ∧ tx_heap self !! p = Some op.
Proof.
  unfold lookup_op. destruct (tx_refs self !! r) as [p|]; split.
  - eauto.
  - by intros (? & [= <-] & ?).
  - done.
  - by intros (? & ? & ?).
Qed.

Lemma lookup_op_None self r :
  wf self → lookup_op self r = None ↔ tx_refs self !! r = None.
Proof.
  intros Hwf. unfold lookup_op.
  destruct (tx_refs self !! r) as [p|] eqn:Hr; [|done].
  destruct (wf_refs _ Hwf _ _ Hr) as (o & -> & _). done.
Qed.

Lemma lookup_op_ref self r op :
  wf self → lookup_op self r = Some op → op_ref op = r.
Proof.
  intros Hwf (p & Hr & Hp)%lookup_op_Some.
  destruct (wf_refs _ Hwf _ _ Hr) as (o & Ho & <-). congruence.
Qed.

Lemma lookup_op_le a b r op :
  tx_le a b → lookup_op a r = Some op →
  ∃ op', lookup_op b r = Some op' ∧ op_le op op'.
Proof.
  intros Hle (p & Hr & Hp)%lookup_op_Some.
  destruct (le_heap _ _ Hle _ _ Hp) as (op' & Hp' & Hop).
  exists op'. split; [|done]. apply lookup_op_Some.
  exists p. split; [by apply Hle|done].
Qed.

Lemma add_op_wf self remote ref sp commit install update :
  wf self →
  wf (flatpak_transaction_add_op self remote ref sp commit install
        update).2.
Proof.
  intros Hwf. destruct (tx_refs self !! ref) as [p|] eqn:Hr.
  - destruct (wf_refs _ Hwf _ _ Hr) as (op & Hp & Href).
    erewrite add_op_present by done. simpl. by eapply wf_insert.
  - rewrite add_op_absent by done. destruct Hwf as [Hrefs Hheap Hops].
    split; simpl.
    + intros r p [[<- <-]|[Hne Hr']]%lookup_insert_Some.
      * eexists. split; [by apply list_lookup_middle|done].
      * destruct (Hrefs r p Hr') as (o & Ho & Href).
        exists o. split; [by apply lookup_app_l_Some|done].
    + intros p o [[Hlt Ho]|[-> <-]]%lookup_snoc_Some.
      * rewrite lookup_insert_ne; [by apply Hheap|].
        intros ->. apply Hheap in Ho. congruence.
      * simpl. by rewrite lookup_insert_eq.
    + rewrite length_app, Nat.add_1_r, rev_seq_S. by rewrite Hops.
Qed.

Lemma add_op_le self remote ref sp commit install update :
  wf self →
  tx_le self
    (flatpak_transaction_add_op self remote ref sp commit install
       update).2.
Proof.
  intros Hwf. destruct (tx_refs self !! ref) as [p|] eqn:Hr.
  - destruct (wf_refs _ Hwf _ _ Hr) as (op & Hp & Href).
    erewrite add_op_present by done. simpl.
    eapply tx_le_insert; [done|apply op_le_set_subpaths].
  - rewrite add_op_absent by done. split; simpl; try done.
    + intros r p Hr'. rewrite lookup_insert_ne; [done|congruence].
    + intros p op Hp. exists op.
      split; [by apply lookup_app_l_Some|apply op_le_refl].
Qed.

(** The address returned is the table's entry for the ref. *)
Lemma add_op_fst self remote ref sp commit install update :
  tx_refs
    (flatpak_transaction_add_op self remote ref sp commit install
       update).2 !! ref =
  Some (flatpak_transaction_add_op self remote ref sp commit install
          update).1.
Proof.
  unfold flatpak_transaction_add_op.
  destruct (tx_refs self !! ref) as [p|] eqn:Hr; simpl.
  - destruct (tx_heap self !! p); [|done].
    by destruct (overrides_subpaths _ _).
  - by rewrite lookup_insert_eq.
Qed.

Lemma add_op_fst_present self remote ref sp commit install update p :
  tx_refs self !! ref = Some p →
  (flatpak_transaction_add_op self remote ref sp commit install
     update).1 = p.
Proof.
  intros Hr. unfold flatpak_transaction_add_op. rewrite Hr.
  destruct (tx_heap self !! p); [|done].
  by destruct (overrides_subpaths _ _).
Qed.

(** The operation of every ref after a call, in terms of the one
    before. *)
Lemma add_op_lookup self remote ref sp commit install update r :
  wf self →
  lookup_op
    (flatpak_transaction_add_op self remote ref sp commit install
       update).2 r =
  if decide (r = ref)
  then Some match lookup_op self ref with
            | Some op =>
                op_set_subpaths (merge_subpaths (op_subpaths op) sp) op
            | None =>
                flatpak_transaction_operation_new remote ref sp commit
                  install update
            end
  else lookup_op self r.
Proof.
  intros Hwf. destruct (tx_refs self !! ref) as [p|] eqn:Hr.
  - destruct (wf_refs _ Hwf _ _ Hr) as (op & Hp & Href).
    assert (Hl : lookup_op self ref = Some op)
      by (apply lookup_op_Some; eauto).
    erewrite add_op_present by done. rewrite Hl. unfold lookup_op. simpl.
    destruct (decide (r = ref)) as [->|Hne].
    + rewrite Hr. apply list_lookup_insert_eq. by eapply lookup_lt_Some.
    + destruct (tx_refs self !! r) as [q|] eqn:Hq; [|done].
      apply list_lookup_insert_ne. intros <-.
      apply Hne. eauto using wf_injective.
  - assert (Hl : lookup_op self ref = None)
      by (unfold lookup_op; by rewrite Hr).
    rewrite add_op_absent by done. rewrite Hl. unfold lookup_op. simpl.
    destruct (decide (r = ref)) as [->|Hne].
    + rewrite lookup_insert_eq. by apply list_lookup_middle.
    + rewrite lookup_insert_ne by done.
      destruct (tx_refs self !! r) as [q|] eqn:Hq; [|done].
      destruct (wf_refs _ Hwf _ _ Hq) as (o & Ho & _).
      rewrite Ho. by apply lookup_app_l_Some.
Qed.

End OpTableInvariants.

(** ** The related pass *)

Section RelatedFacts.
Implicit Types (self : FlatpakTransaction) (op : FlatpakTransactionOp).
Implicit Types (rel : FlatpakRelated) (rels : list FlatpakRelated).

Lemma alter_insert {A} (f : A → A) (l : list A) p x :
  l !! p = Some x → alter f p l = <[p := f x]> l.
Proof.
  intros Hp. apply list_eq. intros i.
  rewrite list_lookup_alter, list_lookup_insert.
  destruct (decide (p = i)) as [->|Hne].
  - rewrite Hp. simpl. rewrite decide_True; [done|].
    split; [done|by eapply lookup_lt_Some].
  - rewrite decide_False; [done|]. by intros [? _].
Qed.

Lemma set_non_fatal_wf self p :
  wf self →
  wf (tx_set_heap (alter (op_set_non_fatal true) p (tx_heap self)) self).
Proof.
  intros Hwf. destruct (tx_heap self !! p) as [op|] eqn:Hp.
  - erewrite alter_insert by done. by eapply wf_insert.
  - apply wf_set_heap; [done|by rewrite length_alter|].
    intros q o'. rewrite list_lookup_alter.
    destruct (decide (p = q)) as [->|]; [by rewrite Hp|eauto].
Qed.

Lemma set_non_fatal_le self p :
  tx_le self
    (tx_set_heap (alter (op_set_non_fatal true) p (tx_heap self)) self).
Proof.
  destruct (tx_heap self !! p) as [op|] eqn:Hp.
  - erewrite alter_insert by done.
    eapply tx_le_insert; [done|apply op_le_set_non_fatal].
  - apply tx_le_set_heap. intros q o Hq. exists o.
    split; [|apply op_le_refl]. rewrite list_lookup_alter_ne; [done|].
    congruence.
Qed.

Lemma add_related_step_wf remote self rel :
  wf self → wf (add_related_step remote self rel).
Proof.
  intros Hwf. unfold add_related_step.
  destruct (rel_download rel); simpl; [|done].
  destruct (flatpak_transaction_add_op _ _ _ _ _ _ _) as [p self1] eqn:Hop.
  apply set_non_fatal_wf.
  change self1 with (p, self1).2. rewrite <- Hop. by apply add_op_wf.
Qed.

Lemma add_related_step_le remote self rel :
  wf self → tx_le self (add_related_step remote self rel).
Proof.
  intros Hwf. unfold add_related_step.
  destruct (rel_download rel); simpl; [|apply tx_le_refl].
  destruct (flatpak_transaction_add_op _ _ _ _ _ _ _) as [p self1] eqn:Hop.
  eapply tx_le_trans; [|apply set_non_fatal_le].
  change self1 with (p, self1).2. rewrite <- Hop. by apply add_op_le.
Qed.

(** The operation of every ref after one turn of the loop. *)
Lemma add_related_step_lookup remote self rel r :
  wf self →
  lookup_op (add_related_step remote self rel) r =
  if rel_download rel && bool_decide (r = rel_ref rel)
  then Some (op_set_non_fatal true
               match lookup_op self r with
               | Some op =>
                   op_set_subpaths
                     (merge_subpaths (op_subpaths op) (rel_subpaths rel))
                     op
               | None =>
                   flatpak_transaction_operation_new remote r
                     (rel_subpaths rel) None true true
               end)
  else lookup_op self r.
Proof.
  intros Hwf. unfold add_related_step.
  destruct (rel_download rel); simpl; [|done].
  pose proof (add_op_wf self remote (rel_ref rel) (rel_subpaths rel) None
                true true Hwf) as Hwf1.
  pose proof (add_op_fst self remote (rel_ref rel) (rel_subpaths rel) None
                true true) as Hfst.
  pose proof (add_op_lookup self remote (rel_ref rel) (rel_subpaths rel)
                None true true) as Hlk.
  destruct (flatpak_transaction_add_op _ _ _ _ _ _ _) as [p self1].
  simpl in *. destruct (wf_refs _ Hwf1 _ _ Hfst) as (o & Ho & Href).
  specialize (Hlk r Hwf). unfold lookup_op in Hlk |- * at 1. simpl.
  case_bool_decide as Hr.
  - subst r. rewrite decide_True in Hlk by done.
    rewrite Hfst in Hlk |- *. rewrite list_lookup_alter_eq, Hlk. done.
  - rewrite decide_False in Hlk by done.
    destruct (tx_refs self1 !! r) as [q|] eqn:Hq; [|done].
    rewrite list_lookup_alter_ne; [done|].
    intros <-. apply Hr. eauto using wf_injective.
Qed.

Lemma related_fold_wf remote rels self :
  wf self → wf (foldl (add_related_step remote) self rels).
Proof.
  revert self. induction rels as [|rel rels IH]; intros self Hwf; simpl.
  - done.
  - by apply IH, add_related_step_wf.
Qed.

Lemma related_fold_le remote rels self :
  wf self → tx_le self (foldl (add_related_step remote) self rels).
Proof.
  revert self. induction rels as [|rel rels IH]; intros self Hwf; simpl.
  - apply tx_le_refl.
  - eapply tx_le_trans; [by apply add_related_step_le|].
    by apply IH, add_related_step_wf.
Qed.

(** The subpaths of an operation that was in the table before the loop
    are merged with those of every downloaded related ref of its name,
    in order. *)
Lemma related_fold_subpaths remote rels self r op :
  wf self → lookup_op self r = Some op →
  ∃ op', lookup_op (foldl (add_related_step remote) self rels) r = Some op'
         ∧ op_subpaths op' =
           foldl merge_subpaths (op_subpaths op)
             (related_subpaths_for r rels).
Proof.
  revert self op. induction rels as [|rel rels IH]; intros self op Hwf Hl.
  - simpl. eauto.
  - simpl. pose proof (add_related_step_lookup remote self rel r Hwf) as Hs.
    rewrite Hl in Hs. unfold related_subpaths_for. rewrite filter_cons.
    destruct (rel_download rel) eqn:Hd; simpl in Hs.
    + case_bool_decide as Hr.
      * rewrite decide_True by (split; congruence).
        edestruct IH as (op' & Hop' & Hsp);
          [by apply add_related_step_wf|exact Hs|].
        exists op'. split; [done|]. by rewrite Hsp.
      * rewrite decide_False by (intros [_ ?]; congruence).
        eapply IH; [by apply add_related_step_wf|done].
    + rewrite decide_False by (intros [? _]; congruence).
      eapply IH; [by apply add_related_step_wf|done].
Qed.

(** Every downloaded related ref ends the loop with a non-fatal
    operation in the table. *)
Lemma related_fold_non_fatal remote rels self rel :
  wf self → rel ∈ rels → rel_download rel = true →
  ∃ op, lookup_op (foldl (add_related_step remote) self rels) (rel_ref rel)
        = Some op ∧ op_non_fatal op = true.
Proof.
  intros Hwf Hin Hd.
  apply list_elem_of_split in Hin as (l1 & l2 & ->).
  rewrite foldl_app. simpl.
  set (self1 := foldl (add_related_step remote) self l1).
  assert (Hwf1 : wf self1) by by apply related_fold_wf.
  pose proof (add_related_step_lookup remote self1 rel (rel_ref rel) Hwf1)
    as Hs.
  rewrite Hd, bool_decide_eq_true_2 in Hs by done. simpl in Hs.
  edestruct (lookup_op_le (add_related_step remote self1 rel)
               (foldl (add_related_step remote)
                  (add_related_step remote self1 rel) l2))
    as (op' & Hop' & Hle); [|exact Hs|].
  { by apply related_fold_le, add_related_step_wf. }
  exists op'. split; [done|]. by apply Hle.
Qed.

End RelatedFacts.

(** ** Requests keep the transaction well formed and only extend it *)

Section PlannerFacts.
Context {World : Type} `{!FlatpakDir World}.
Implicit Types (w : World) (self : FlatpakTransaction).
Implicit Types (sp : option (list string)).

Lemma add_related_unfold w self remote ref :
  add_related w self remote ref =
  (true,
   if tx_add_related self
   then match find_related w self remote ref with
        | Some rels => foldl (add_related_step remote) self rels
        | None => self
        end
   else self).
Proof.
  unfold add_related, find_related.
  destruct (tx_add_related self); simpl; [|done].
  by destruct (if tx_no_pull self then _ else _).
Qed.

Lemma add_related_fold w self remote ref :
  (add_related w self remote ref).2 =
  foldl (add_related_step remote) self (related_list w self remote ref).
Proof.
  rewrite add_related_unfold. unfold related_list. simpl.
  destruct (tx_add_related self); [|done].
  by destruct (find_related w self remote ref).
Qed.

Lemma add_related_wf w self remote ref :
  wf self → wf (add_related w self remote ref).2.
Proof.
  intros Hwf. rewrite add_related_unfold. simpl.
  destruct (tx_add_related self); [|done].
  destruct (find_related w self remote ref); [|done].
  by apply related_fold_wf.
Qed.

Lemma add_related_le w self remote ref :
  wf self → tx_le self (add_related w self remote ref).2.
Proof.
  intros Hwf. rewrite add_related_unfold. simpl.
  destruct (tx_add_related self); [|apply tx_le_refl].
  destruct (find_related w self remote ref); [|apply tx_le_refl].
  by apply related_fold_le.
Qed.

Lemma add_deps_runtime_wf_le w self full r self1 :
  wf self → add_deps_runtime w self full = Some (r, self1) →
  wf self1 ∧ tx_le self self1.
Proof.
  intros Hwf. unfold add_deps_runtime.
  destruct (flatpak_transaction_contains_ref self full); simpl.
  { intros [= <- <-]. split; [done|apply tx_le_refl]. }
  destruct (ref_is_installed w full); simpl.
  - destruct (dir_ref_is_installed w full) as [origin|].
    + intros [= <- <-]. split; [by apply add_op_wf|by apply add_op_le].
    + intros [= <- <-]. split; [done|apply tx_le_refl].
  - destruct (flatpak_dir_search_for_dependency w full) as [[|r0 rs]|];
      [done| |done].
    destruct (ask_for_remote w (r0 :: rs)) as [rr|]; [|done].
    intros [= <- <-]. split; [by apply add_op_wf|by apply add_op_le].
Qed.

Lemma add_deps_wf_le w self remote ref :
  wf self →
  wf (ar_tx (add_deps w self remote ref)) ∧
  tx_le self (ar_tx (add_deps w self remote ref)).
Proof.
  intros Hwf. unfold add_deps.
  destruct (transaction_fetch_runtime_ref w remote ref) as [rt|];
    [|split; [done|apply tx_le_refl]].
  destruct (add_deps_runtime w self ("runtime/" +:+ rt))
    as [[[rr|] self1]|] eqn:Hrt; simpl.
  - apply add_deps_runtime_wf_le in Hrt as [Hwf1 Hle1]; [|done].
    rewrite add_related_unfold. simpl. split.
    + pose proof (add_related_wf w self1 rr ("runtime/" +:+ rt) Hwf1) as H.
      by rewrite add_related_unfold in H.
    + eapply tx_le_trans; [done|].
      pose proof (add_related_le w self1 rr ("runtime/" +:+ rt) Hwf1) as H.
      by rewrite add_related_unfold in H.
  - by apply add_deps_runtime_wf_le in Hrt.
  - split; [done|apply tx_le_refl].
Qed.

Lemma after_deps_wf_le w self remote ref :
  wf self →
  wf (after_deps w self remote ref) ∧
  tx_le self (after_deps w self remote ref).
Proof.
  intros Hwf. unfold after_deps. destruct (tx_add_deps self).
  - by apply add_deps_wf_le.
  - split; [done|apply tx_le_refl].
Qed.

Lemma add_ref_record_unfold w self remote ref sp commit is_update :
  add_ref_record w self remote ref sp commit is_update =
  {| ar_ok := true;
     ar_error :=
       if tx_add_deps self then ar_error (add_deps w self remote ref)
       else None;
     ar_tx :=
       (add_related w
          (flatpak_transaction_add_op (after_deps w self remote ref)
             remote ref sp commit (negb is_update) is_update).2
          remote ref).2 |}.
Proof.
  unfold add_ref_record, after_deps.
  destruct (tx_add_deps self); simpl; by rewrite !add_related_unfold.
Qed.

Lemma add_ref_record_wf_le w self remote ref sp commit is_update :
  wf self →
  wf (ar_tx (add_ref_record w self remote ref sp commit is_update)) ∧
  tx_le self
    (ar_tx (add_ref_record w self remote ref sp commit is_update)).
Proof.
  intros Hwf. rewrite add_ref_record_unfold. simpl.
  destruct (after_deps_wf_le w self remote ref Hwf) as [Hwf1 Hle1].
  pose proof (add_op_wf _ remote ref sp commit (negb is_update) is_update
                Hwf1) as Hwf2.
  pose proof (add_op_le _ remote ref sp commit (negb is_update) is_update
                Hwf1) as Hle2.
  split; [by apply add_related_wf|].
  eapply tx_le_trans; [done|]. eapply tx_le_trans; [done|].
  by apply add_related_le.
Qed.

Lemma add_ref_wf_le w self remote ref sp commit is_update :
  wf self →
  wf (ar_tx (flatpak_transaction_add_ref w self remote ref sp commit
               is_update)) ∧
  tx_le self
    (ar_tx (flatpak_transaction_add_ref w self remote ref sp commit
              is_update)).
Proof.
  intros Hwf. unfold flatpak_transaction_add_ref.
  assert (Hid : wf self ∧ tx_le self self) by (split; [done|apply tx_le_refl]).
  destruct is_update.
  - destruct (dir_ref_is_installed w ref) as [origin|]; [|done].
    destruct (flatpak_dir_get_remote_disabled w origin); [done|].
    by apply add_ref_record_wf_le.
  - destruct remote as [remote|]; [|done].
    destruct (dir_ref_is_installed w ref); [done|].
    by apply add_ref_record_wf_le.
Qed.

Lemma add_install_wf w self remote ref sp :
  wf self → wf (ar_tx (flatpak_transaction_add_install w self remote ref sp)).
Proof. intros Hwf. by apply add_ref_wf_le. Qed.

Lemma add_update_wf w self ref sp commit :
  wf self →
  wf (ar_tx (flatpak_transaction_add_update w self ref sp commit)).
Proof. intros Hwf. by apply add_ref_wf_le. Qed.

End PlannerFacts.

(** ** Request intake: the claims *)

Section Intake.
Context {World : Type} `{!FlatpakDir World}.
Implicit Types (w : World) (self : FlatpakTransaction).
Implicit Types (sp : option (list string)).

(** The common path always answers [TRUE]: the result of [add_deps] is
    dropped and [add_related] cannot fail. *)
Lemma add_ref_record_ok w self remote ref sp commit is_update :
  ar_ok (add_ref_record w self remote ref sp commit is_update) = true.
Proof. by rewrite add_ref_record_unfold. Qed.

(** After the common path the table holds an operation for the ref. *)
Lemma add_ref_record_contains w self remote ref sp commit is_update :
  wf self →
  flatpak_transaction_contains_ref
    (ar_tx (add_ref_record w self remote ref sp commit is_update)) ref
  = true.
Proof.
  intros Hwf. rewrite add_ref_record_unfold. simpl.
  destruct (after_deps_wf_le w self remote ref Hwf) as [Hwf1 _].
  eapply contains_ref_le.
  - apply add_related_le. by apply add_op_wf.
  - apply contains_ref_true. rewrite add_op_fst. eauto.
Qed.

(** C3, as amended: [flatpak_transaction_add_install] looks for deploy
    data of the ref in the transaction's own scope only.  If there is
    some, it fails with [FLATPAK_ERROR_ALREADY_INSTALLED] and leaves the
    transaction as it was; if there is none, whatever the system scope
    holds, it succeeds and the table has an operation for the ref. *)
Theorem C3_add_install_checks_own_scope w self remote ref sp :
  wf self →
  let r := flatpak_transaction_add_install w self remote ref sp in
  match dir_ref_is_installed w ref with
  | Some _ =>
      r = {| ar_ok := false;
             ar_error :=
               Some (FLATPAK_ERROR_ALREADY_INSTALLED
                       (pref_of ref +:+ " already installed"));
             ar_tx := self |}
  | None =>
      ar_ok r = true ∧
      flatpak_transaction_contains_ref (ar_tx r) ref = true
  end.
Proof.
  intros Hwf. simpl.
  unfold flatpak_transaction_add_install, flatpak_transaction_add_ref.
  destruct (dir_ref_is_installed w ref) as [origin|]; [done|].
  split; [apply add_ref_record_ok|by apply add_ref_record_contains].
Qed.

(** C5: [flatpak_transaction_add_update] on a deployed ref whose origin
    remote is disabled returns [TRUE], sets no error and leaves the
    transaction unchanged; on a ref that is not deployed it fails with
    [FLATPAK_ERROR_NOT_INSTALLED], again leaving the transaction
    unchanged. *)
Theorem C5_add_update_disabled_or_not_installed w self ref sp commit :
  (∀ origin,
     dir_ref_is_installed w ref = Some origin →
     flatpak_dir_get_remote_disabled w origin = true →
     flatpak_transaction_add_update w self ref sp commit =
     {| ar_ok := true; ar_error := None; ar_tx := self |}) ∧
  (dir_ref_is_installed w ref = None →
   flatpak_transaction_add_update w self ref sp commit =
   {| ar_ok := false;
      ar_error :=
        Some (FLATPAK_ERROR_NOT_INSTALLED
                (pref_of ref +:+ " not installed"));
      ar_tx := self |}).
Proof.
  unfold flatpak_transaction_add_update, flatpak_transaction_add_ref.
  split.
  - intros origin -> Hd. by rewrite Hd.
  - by intros ->.
Qed.

Lemma foldl_merge_None l : foldl merge_subpaths None l = None.
Proof. by induction l. Qed.

Lemma foldl_merge_all l : foldl merge_subpaths (Some []) l = Some [].
Proof. by induction l. Qed.

Lemma find_related_le w a b remote ref :
  tx_le a b → find_related w b remote ref = find_related w a remote ref.
Proof. intros Hle. unfold find_related. by rewrite (le_no_pull _ _ Hle). Qed.

Lemma related_list_le w a b remote ref :
  tx_le a b → related_list w b remote ref = related_list w a remote ref.
Proof.
  intros Hle. unfold related_list.
  by rewrite (le_add_related _ _ Hle), (find_related_le _ _ _ _ _ Hle).
Qed.

Lemma related_targets_le w a b remote ref r :
  tx_le a b →
  related_targets w b remote ref r = related_targets w a remote ref r.
Proof.
  intros Hle. unfold related_targets.
  by rewrite (le_add_related _ _ Hle), (find_related_le _ _ _ _ _ Hle).
Qed.

(** The subpaths of an operation after a related pass. *)
Lemma add_related_subpaths w self remote ref r op :
  wf self → lookup_op self r = Some op →
  ∃ op', lookup_op (add_related w self remote ref).2 r = Some op' ∧
         op_subpaths op' =
         foldl merge_subpaths (op_subpaths op)
           (related_targets w self remote ref r).
Proof.
  intros Hwf Hl. rewrite add_related_unfold. unfold related_targets. simpl.
  destruct (tx_add_related self); [|by exists op].
  destruct (find_related w self remote ref) as [rels|]; [|by exists op].
  by apply related_fold_subpaths.
Qed.

(** The subpaths of the requested ref after the common path: those of
    the request if the ref is new to the table, the merge otherwise,
    then merged with what the related pass says about the ref. *)
Lemma add_ref_record_subpaths w self remote ref sp commit is_update :
  wf self →
  ∃ op,
    lookup_op (ar_tx (add_ref_record w self remote ref sp commit is_update))
      ref = Some op ∧
    op_subpaths op =
    foldl merge_subpaths
      match lookup_op (after_deps w self remote ref) ref with
      | Some op0 => merge_subpaths (op_subpaths op0) sp
      | None => sp
      end
      (related_targets w self remote ref ref).
Proof.
  intros Hwf. rewrite add_ref_record_unfold. simpl.
  destruct (after_deps_wf_le w self remote ref Hwf) as [Hwf1 Hle1].
  pose proof (add_op_wf _ remote ref sp commit (negb is_update) is_update
                Hwf1) as Hwf2.
  pose proof (add_op_le _ remote ref sp commit (negb is_update) is_update
                Hwf1) as Hle2.
  pose proof (add_op_lookup _ remote ref sp commit (negb is_update)
                is_update ref Hwf1) as Hl.
  rewrite decide_True in Hl by done.
  destruct (add_related_subpaths w _ remote ref ref _ Hwf2 Hl)
    as (op' & Hop' & Hsp).
  exists op'. split; [done|]. rewrite Hsp.
  rewrite (related_targets_le w self) by (by eapply tx_le_trans).
  f_equal. by destruct (lookup_op (after_deps w self remote ref) ref).
Qed.

(** C10: [flatpak_transaction_add_update] hands the caller's subpaths to
    the common path as they are.  For a deployed ref with an enabled
    origin, the operation of the ref after the call has the caller's
    subpaths, merged into those of the operation that the ref had, if it
    had one, and then with those of the downloaded related refs of the
    same name, if there are any.  So for a ref that has no operation when
    [flatpak_transaction_add_op] is reached and is not among its own
    related refs, the subpaths recorded are the caller's, NULL or not; and
    NULL is recorded as NULL whatever the related refs are.
    [flatpak_transaction_add_install] does the same with the empty vector
    in the place of NULL: it alone replaces NULL. *)
Theorem C10_only_add_install_normalizes_null_subpaths :
  (∀ w self ref sp commit origin,
     wf self →
     dir_ref_is_installed w ref = Some origin →
     flatpak_dir_get_remote_disabled w origin = false →
     flatpak_transaction_add_update w self ref sp commit =
     add_ref_record w self origin ref sp commit true ∧
     ∃ op,
       lookup_op
         (ar_tx (flatpak_transaction_add_update w self ref sp commit)) ref
       = Some op ∧
       op_subpaths op =
       foldl merge_subpaths
         match lookup_op (after_deps w self origin ref) ref with
         | Some op0 => merge_subpaths (op_subpaths op0) sp
         | None => sp
         end
         (related_targets w self origin ref ref) ∧
       (flatpak_transaction_contains_ref (after_deps w self origin ref) ref
        = false →
        (related_targets w self origin ref ref = [] →
         op_subpaths op = sp) ∧
        (sp = None → op_subpaths op = None))) ∧
  (∀ w self remote ref sp,
     wf self →
     dir_ref_is_installed w ref = None →
     ∃ op,
       lookup_op
         (ar_tx (flatpak_transaction_add_install w self remote ref sp)) ref
       = Some op ∧
       op_subpaths op =
       foldl merge_subpaths
         match lookup_op (after_deps w self remote ref) ref with
         | Some op0 =>
             merge_subpaths (op_subpaths op0) (Some (default [] sp))
         | None => Some (default [] sp)
         end
         (related_targets w self remote ref ref) ∧
       (flatpak_transaction_contains_ref (after_deps w self remote ref) ref
        = false →
        (related_targets w self remote ref ref = [] →
         op_subpaths op = Some (default [] sp)) ∧
        (sp = None → op_subpaths op = Some []))).
Proof.
  split.
  - intros w self ref sp commit origin Hwf Hdep Hen.
    destruct (after_deps_wf_le w self origin ref Hwf) as [Hwf1 _].
    assert (Heq : flatpak_transaction_add_update w self ref sp commit
                  = add_ref_record w self origin ref sp commit true).
    { unfold flatpak_transaction_add_update, flatpak_transaction_add_ref.
      by rewrite Hdep, Hen. }
    split; [exact Heq|]. rewrite Heq.
    destruct (add_ref_record_subpaths w self origin ref sp commit true Hwf)
      as (op & Hop & Hsp).
    exists op. split; [done|]. split; [done|]. intros Habs.
    assert (Hnone : lookup_op (after_deps w self origin ref) ref = None).
    { apply lookup_op_None; [done|]. by apply contains_ref_false. }
    rewrite Hnone in Hsp. split.
    + intros Hrel. by rewrite Hrel in Hsp.
    + intros ->. by rewrite foldl_merge_None in Hsp.
  - intros w self remote ref sp Hwf Hdep.
    destruct (after_deps_wf_le w self remote ref Hwf) as [Hwf1 _].
    assert (Heq : flatpak_transaction_add_install w self remote ref sp
                  = add_ref_record w self remote ref (Some (default [] sp))
                      None false).
    { unfold flatpak_transaction_add_install, flatpak_transaction_add_ref.
      rewrite Hdep. by destruct sp. }
    rewrite Heq.
    destruct (add_ref_record_subpaths w self remote ref
                (Some (default [] sp)) None false Hwf) as (op & Hop & Hsp).
    exists op. split; [done|]. split; [done|]. intros Habs.
    assert (Hnone : lookup_op (after_deps w self remote ref) ref = None).
    { apply lookup_op_None; [done|]. by apply contains_ref_false. }
    rewrite Hnone in Hsp. split.
    + intros Hrel. by rewrite Hrel in Hsp.
    + intros ->. simpl in Hsp. by rewrite foldl_merge_all in Hsp.
Qed.

End Intake.

(** ** Every recorded operation has a flag *)

Section Flags.
Context {World : Type} `{!FlatpakDir World}.
Implicit Types (w : World) (self : FlatpakTransaction).
Implicit Types (sp : option (list string)).

Lemma add_op_flagged self remote ref sp commit install update :
  flagged self → install || update = true →
  flagged (flatpak_transaction_add_op self remote ref sp commit install
             update).2.
Proof.
  intros Hfl Hiu. unfold flatpak_transaction_add_op.
  destruct (tx_refs self !! ref) as [p|].
  - destruct (tx_heap self !! p) as [op|] eqn:Hp; [|done].
    destruct (overrides_subpaths _ _); [|done].
    intros q o [(_ & <- & _)|[_ Hq]]%list_lookup_insert_Some; simpl; eauto.
  - intros q o [[_ Hq]|[_ <-]]%lookup_snoc_Some; simpl; eauto.
Qed.

Lemma set_non_fatal_flagged self p :
  flagged self →
  flagged (tx_set_heap (alter (op_set_non_fatal true) p (tx_heap self)) self).
Proof.
  intros Hfl q o. simpl. rewrite list_lookup_alter.
  destruct (decide (p = q)) as [<-|]; [|by apply Hfl].
  destruct (tx_heap self !! p) as [op|] eqn:Hp; [|done].
  intros [= <-]. simpl. eauto.
Qed.

Lemma add_related_flagged w self remote ref :
  flagged self → flagged (add_related w self remote ref).2.
Proof.
  intros Hfl. rewrite add_related_fold.
  generalize (related_list w self remote ref). intros rels.
  revert self Hfl. induction rels as [|rel rels IH]; intros self Hfl; [done|].
  simpl. apply IH. unfold add_related_step.
  destruct (rel_download rel); simpl; [|done].
  pose proof (add_op_flagged self remote (rel_ref rel) (rel_subpaths rel)
                None true true Hfl eq_refl) as Hfl1.
  destruct (flatpak_transaction_add_op _ _ _ _ _ _ _) as [p self1].
  by apply set_non_fatal_flagged.
Qed.

Lemma add_deps_flagged w self remote ref :
  flagged self → flagged (ar_tx (add_deps w self remote ref)).
Proof.
  intros Hfl. unfold add_deps.
  destruct (transaction_fetch_runtime_ref w remote ref) as [rt|]; [|done].
  unfold add_deps_runtime.
  destruct (flatpak_transaction_contains_ref self _); simpl; [done|].
  destruct (ref_is_installed w _); simpl.
  - destruct (dir_ref_is_installed w _) as [origin|]; [|done].
    rewrite add_related_unfold. simpl.
    pose proof (add_related_flagged w
                  (flatpak_transaction_add_op self origin ("runtime/" +:+ rt)
                     None None false true).2 origin ("runtime/" +:+ rt)) as Hr.
    rewrite add_related_unfold in Hr. by apply Hr, add_op_flagged.
  - destruct (flatpak_dir_search_for_dependency w _) as [[|r0 rs]|];
      [done| |done].
    destruct (ask_for_remote w (r0 :: rs)) as [rr|]; [|done].
    rewrite add_related_unfold. simpl.
    pose proof (add_related_flagged w
                  (flatpak_transaction_add_op self rr ("runtime/" +:+ rt)
                     None None true true).2 rr ("runtime/" +:+ rt)) as Hr.
    rewrite add_related_unfold in Hr. by apply Hr, add_op_flagged.
Qed.

Lemma add_ref_flagged w self remote ref sp commit is_update :
  flagged self →
  flagged (ar_tx (flatpak_transaction_add_ref w self remote ref sp commit
                    is_update)).
Proof.
  intros Hfl.
  assert (Hrec : ∀ remote',
            flagged (ar_tx (add_ref_record w self remote' ref sp commit
                              is_update))).
  { intros remote'. rewrite add_ref_record_unfold. simpl.
    apply add_related_flagged, add_op_flagged.
    - unfold after_deps. destruct (tx_add_deps self); [|done].
      by apply add_deps_flagged.
    - by destruct is_update. }
  unfold flatpak_transaction_add_ref. destruct is_update.
  - destruct (dir_ref_is_installed w ref) as [origin|]; [|done].
    by destruct (flatpak_dir_get_remote_disabled w origin).
  - destruct remote as [remote|]; [|done].
    by destruct (dir_ref_is_installed w ref).
Qed.

(** A transaction built by the entry points is well formed and each of
    its operations has a flag. *)
Lemma built_wf_flagged self : built self → wf self ∧ flagged self.
Proof.
  induction 1 as [| w self remote ref sp _ [IHwf IHfl]
                  | w self ref sp commit _ [IHwf IHfl]].
  - split; [apply wf_new|]. by intros p op.
  - split; [by apply add_install_wf|by apply add_ref_flagged].
  - split; [by apply add_update_wf|by apply add_ref_flagged].
Qed.

End Flags.

(** ** The executor: the claims *)

Section ExecutorFacts.
Context {World : Type} `{!FlatpakDir World}.
Implicit Types (w : World) (self : FlatpakTransaction).
Implicit Types (op : FlatpakTransactionOp) (ev : OpEvent World).

Lemma resolve_flags_ref w op : op_ref (resolve_flags w op) = op_ref op.
Proof.
  unfold resolve_flags. destruct (op_install op && op_update op); [|done].
  by destruct (dir_ref_is_installed w (op_ref op)).
Qed.

Lemma resolve_flags_non_fatal w op :
  op_non_fatal (resolve_flags w op) = op_non_fatal op.
Proof.
  unfold resolve_flags. destruct (op_install op && op_update op); [|done].
  by destruct (dir_ref_is_installed w (op_ref op)).
Qed.

(** An operation with at least one flag leaves the resolution with
    exactly one. *)
Lemma resolve_flags_exclusive w op :
  op_install op || op_update op = true →
  xorb (op_install (resolve_flags w op)) (op_update (resolve_flags w op))
  = true.
Proof.
  unfold resolve_flags.
  destruct (op_install op) eqn:Hi, (op_update op) eqn:Hu; simpl;
    try done; try (by rewrite Hi, Hu).
  destruct (dir_ref_is_installed w (op_ref op)); simpl; by rewrite ?Hi, ?Hu.
Qed.

(** An operation with both flags keeps [update] if the ref has deploy
    data in the transaction's dir and [install] if it has none. *)
Lemma resolve_flags_deploy_state w op :
  op_install op = true → op_update op = true →
  (op_update (resolve_flags w op) = true ↔
   is_Some (dir_ref_is_installed w (op_ref op))) ∧
  (op_install (resolve_flags w op) = true ↔
   dir_ref_is_installed w (op_ref op) = None).
Proof.
  intros Hi Hu. unfold resolve_flags. rewrite Hi, Hu. simpl.
  destruct (dir_ref_is_installed w (op_ref op)) as [origin|]; simpl.
  - rewrite Hu. by repeat split.
  - rewrite Hi. by repeat split.
Qed.

Lemma resolve_flags_keeps_a_flag w op :
  op_install op || op_update op = true →
  op_install (resolve_flags w op) || op_update (resolve_flags w op) = true.
Proof.
  intros H%(resolve_flags_exclusive w).
  by destruct (op_install _), (op_update _).
Qed.

(** When [res] is [FALSE] after the engine call, the error is the one the
    engine returned. *)
Lemma dispatch_failure w self op engine e w1 :
  dispatch w self op = (engine, Some e, w1) → engine = Some e.
Proof.
  unfold dispatch. destruct (op_install op).
  - destruct (flatpak_dir_install _ _ _ _ _ _) as [res w2].
    intros ?. by simplify_eq.
  - destruct (flatpak_dir_update _ _ _ _ _ _ _) as [[[]|] w2];
      intros ?; by simplify_eq.
Qed.

(** A failure of a non-fatal operation leaves [succeeded] and [*error]
    alone and lets the loop go on. *)
Lemma failure_policy_non_fatal stop op local_error succeeded error :
  op_non_fatal op = true →
  failure_policy stop op local_error succeeded error =
  Continue succeeded error.
Proof. intros Hnf. unfold failure_policy. rewrite Hnf. by destruct local_error. Qed.

(** The loop only adds events to the trace. *)
Lemma run_loop_trace stop l w self succeeded error trace :
  ∃ evs,
    run_trace (run_loop stop w self l succeeded error trace) = trace ++ evs.
Proof.
  revert w self succeeded error trace.
  induction l as [|p l IH]; intros w self succeeded error trace; simpl.
  - exists []. by rewrite app_nil_r.
  - destruct (tx_heap self !! p) as [op0|]; [|apply IH].
    destruct (dispatch _ _ _) as [[engine local_error] w1].
    destruct (failure_policy _ _ _ _ _) as [succeeded1 error1|e].
    + destruct (IH w1
                  (tx_set_heap (<[p:=resolve_flags w op0]> (tx_heap self)) self)
                  succeeded1 error1
                  (trace ++ [ {| ev_world := w; ev_ptr := p; ev_before := op0;
                                 ev_op := resolve_flags w op0;
                                 ev_engine := engine;
                                 ev_local_error := local_error |} ]))
        as [evs ->].
      eexists. by rewrite <- app_assoc.
    + simpl. by eexists.
Qed.

(** What flag resolution guarantees for one event. *)
Definition flags_resolved ev : Prop :=
  ev_op ev = resolve_flags (ev_world ev) (ev_before ev) ∧
  xorb (op_install (ev_op ev)) (op_update (ev_op ev)) = true ∧
  (op_install (ev_before ev) = true → op_update (ev_before ev) = true →
   (op_update (ev_op ev) = true ↔
    is_Some (dir_ref_is_installed (ev_world ev) (op_ref (ev_before ev)))) ∧
   (op_install (ev_op ev) = true ↔
    dir_ref_is_installed (ev_world ev) (op_ref (ev_before ev)) = None)).

Lemma run_loop_flags stop l w self succeeded error trace :
  (∀ p op, tx_heap self !! p = Some op →
           op_install op || op_update op = true) →
  Forall flags_resolved trace →
  Forall flags_resolved
    (run_trace (run_loop stop w self l succeeded error trace)).
Proof.
  revert w self succeeded error trace.
  induction l as [|p l IH]; intros w self succeeded error trace Hfl Htr;
    simpl; [done|].
  destruct (tx_heap self !! p) as [op0|] eqn:Hp; [|by apply IH].
  destruct (dispatch _ _ _) as [[engine local_error] w1].
  assert (Hev : Forall flags_resolved
            (trace ++ [ {| ev_world := w; ev_ptr := p; ev_before := op0;
                           ev_op := resolve_flags w op0; ev_engine := engine;
                           ev_local_error := local_error |} ])).
  { apply Forall_app. split; [done|]. apply Forall_singleton.
    split; [done|]. split; simpl.
    - apply resolve_flags_exclusive. eauto.
    - apply resolve_flags_deploy_state. }
  destruct (failure_policy _ _ _ _ _) as [succeeded1 error1|e]; [|done].
  apply IH; [|done]. simpl. intros q o Hq.
  apply list_lookup_insert_Some in Hq as [(_ & <- & _)|[_ Hq]]; [|eauto].
  apply resolve_flags_keeps_a_flag. eauto.
Qed.


(** The loop takes the cells of the list in order, one event each, and
    reaches the end of the list unless it returns on a first error. *)
Lemma run_loop_order stop l w self succeeded error trace :
  (∀ q, q ∈ l → is_Some (tx_heap self !! q)) →
  ∃ evs rest,
    run_trace (run_loop stop w self l succeeded error trace) = trace ++ evs ∧
    l = (ev_ptr <$> evs) ++ rest ∧
    (stop = false → rest = []).
Proof.
  revert w self succeeded error trace.
  induction l as [|p l IH]; intros w self succeeded error trace Hv; simpl.
  { exists [], []. by rewrite app_nil_r. }
  destruct (Hv p) as [op0 Hop]; [apply list_elem_of_here|]. rewrite Hop.
  destruct (dispatch _ _ _) as [[engine local_error] w1].
  destruct (failure_policy _ _ _ _ _) as [succeeded1 error1|e] eqn:Hpol.
  - edestruct IH as (evs & rest & -> & Hl & Hrest).
    { simpl. intros q Hq. apply list_lookup_insert_is_Some, Hv.
      by apply list_elem_of_further. }
    eexists (_ :: evs), rest. rewrite <- app_assoc. simpl.
    split; [done|]. split; [|done]. by rewrite Hl at 1.
  - simpl. eexists [_], l. split; [done|]. split; [done|].
    intros ->. unfold failure_policy in Hpol.
    destruct local_error; [|done]. destruct (op_non_fatal _); [done|].
    simpl in Hpol. by destruct succeeded.
Qed.

(** The executor hands the operations to the deploy engine in the order
    of [executor_order]; with [stop_on_first_error] unset it hands over
    every one of them. *)
Lemma run_visits_in_executor_order w self stop :
  wf self →
  ∃ rest,
    executor_order self =
    (ev_ptr <$> run_trace (flatpak_transaction_run w self stop)) ++ rest ∧
    (stop = false → rest = []).
Proof.
  intros Hwf. unfold flatpak_transaction_run, executor_order. simpl.
  edestruct (run_loop_order stop (rev (tx_ops self)) w
               (tx_set_ops (rev (tx_ops self)) self) true None [])
    as (evs & rest & -> & Hl & Hrest).
  - simpl. intros q Hq. apply lookup_lt_is_Some.
    rewrite (wf_ops _ Hwf), rev_involutive in Hq.
    apply elem_of_seq in Hq. lia.
  - exists rest. simpl. by split.
Qed.





(** For a transaction built by the entry points the flags of every
    operation the executor reaches are settled as above, with no
    assumption on the table. *)
Lemma run_flags_resolved_for_built w self stop ev :
  built self →
  ev ∈ run_trace (flatpak_transaction_run w self stop) →
  flags_resolved ev.
Proof.
  intros [_ Hfl]%built_wf_flagged. revert ev. apply Forall_forall.
  by apply run_loop_flags.
Qed.

(** The loop ends with [succeeded] and [*error] as they were when every
    operation that left the loop body with [res] unset is non-fatal. *)
Lemma run_loop_isolation stop l w self succeeded error trace :
  (∀ ev, ev ∈ run_trace (run_loop stop w self l succeeded error trace) →
         ev_local_error ev ≠ None → op_non_fatal (ev_op ev) = true) →
  run_ok (run_loop stop w self l succeeded error trace) = succeeded ∧
  run_error (run_loop stop w self l succeeded error trace) = error.
Proof.
  revert w self succeeded error trace.
  induction l as [|p l IH]; intros w self succeeded error trace; simpl;
    [done|].
  destruct (tx_heap self !! p) as [op0|]; [|apply IH].
  destruct (dispatch _ _ _) as [[engine local_error] w1].
  set (ev0 := {| ev_world := w; ev_ptr := p; ev_before := op0;
                 ev_op := resolve_flags w op0; ev_engine := engine;
                 ev_local_error := local_error |}).
  set (self1 := tx_set_heap (<[p:=resolve_flags w op0]> (tx_heap self)) self).
  intros H.
  assert (Hnf : local_error ≠ None →
                op_non_fatal (resolve_flags w op0) = true).
  { intros Hle. apply (H ev0); [|done].
    destruct (failure_policy _ _ _ _ _) as [succeeded1 error1|e].
    - destruct (run_loop_trace stop l w1 self1 succeeded1 error1
                  (trace ++ [ev0])) as [evs ->].
      rewrite <- app_assoc. apply elem_of_app. right. apply list_elem_of_here.
    - simpl. apply elem_of_app. right. apply list_elem_of_here. }
  assert (Hpol : failure_policy stop (resolve_flags w op0) local_error
                   succeeded error = Continue succeeded error).
  { destruct local_error as [e|]; [|done].
    apply failure_policy_non_fatal. by apply Hnf. }
  rewrite Hpol in H |- *. by apply IH.
Qed.

(** An event with an error left in [local_error] has that error from the
    deploy engine. *)
Lemma run_loop_engine_error stop l w self succeeded error trace :
  Forall (λ ev, ∀ e, ev_local_error ev = Some e → ev_engine ev = Some e)
    trace →
  Forall (λ ev, ∀ e, ev_local_error ev = Some e → ev_engine ev = Some e)
    (run_trace (run_loop stop w self l succeeded error trace)).
Proof.
  revert w self succeeded error trace.
  induction l as [|p l IH]; intros w self succeeded error trace Htr; simpl;
    [done|].
  destruct (tx_heap self !! p) as [op0|]; [|by apply IH].
  destruct (dispatch _ _ _) as [[engine local_error] w1] eqn:Hd.
  assert (Forall (λ ev : OpEvent World, ∀ e,
                    ev_local_error ev = Some e → ev_engine ev = Some e)
            (trace ++ [ {| ev_world := w; ev_ptr := p; ev_before := op0;
                           ev_op := resolve_flags w op0;
                           ev_engine := engine;
                           ev_local_error := local_error |} ])).
  { apply Forall_app. split; [done|]. apply Forall_singleton. simpl.
    intros e' ->. by eapply dispatch_failure. }
  destruct (failure_policy _ _ _ _ _); [by apply IH|done].
Qed.

(** C7: if every operation whose deploy-engine call fails is non-fatal,
    [flatpak_transaction_run] returns [TRUE] and leaves [*error] empty. *)
Theorem C7_non_fatal_failures_do_not_fail_run w self stop :
  (∀ ev, ev ∈ run_trace (flatpak_transaction_run w self stop) →
         ev_engine ev ≠ None → op_non_fatal (ev_op ev) = true) →
  run_ok (flatpak_transaction_run w self stop) = true ∧
  run_error (flatpak_transaction_run w self stop) = None.
Proof.
  intros H. apply run_loop_isolation. intros ev Hev Hle. apply H; [done|].
  destruct (ev_local_error ev) as [e|] eqn:He; [|done].
  pose proof (run_loop_engine_error stop
                (tx_ops (tx_set_ops (rev (tx_ops self)) self)) w
                (tx_set_ops (rev (tx_ops self)) self) true None []
                (Forall_nil_2 _)) as Hall.
  rewrite Forall_forall in Hall. by rewrite (Hall ev Hev e He).
Qed.

End ExecutorFacts.

(** ** The related pass and the executor *)

Section RelatedNonFatal.
Context {World : Type} `{!FlatpakDir World}.
Implicit Types (w : World) (self : FlatpakTransaction).

(** C9: when the related pass runs on a list of related refs, every one
    of them that is downloaded has, after the pass, an operation in the
    table whose [non_fatal] is set.  If the ref already had an operation,
    it is that same object, at the same address, that is now non-fatal.
    Whatever the deploy engine answers for such an operation, the executor
    goes on with [succeeded] and [*error] untouched. *)
Theorem C9_related_refs_become_non_fatal w self remote ref rels rel :
  wf self →
  tx_add_related self = true →
  find_related w self remote ref = Some rels →
  rel ∈ rels → rel_download rel = true →
  let self' := (add_related w self remote ref).2 in
  ∃ op,
    lookup_op self' (rel_ref rel) = Some op ∧
    op_non_fatal op = true ∧
    (∀ p, tx_refs self !! rel_ref rel = Some p →
          tx_refs self' !! rel_ref rel = Some p ∧
          tx_heap self' !! p = Some op) ∧
    (∀ stop w' local_error succeeded error,
       failure_policy stop (resolve_flags w' op) local_error succeeded error
       = Continue succeeded error).
Proof.
  intros Hwf Hon Hfind Hin Hd. simpl.
  rewrite add_related_unfold. simpl. rewrite Hon, Hfind.
  destruct (related_fold_non_fatal remote rels self rel Hwf Hin Hd)
    as (op & Hop & Hnf).
  exists op. split; [done|]. split; [done|]. split.
  - intros p Hp.
    pose proof (related_fold_le remote rels self Hwf) as Hle.
    pose proof (le_refs _ _ Hle _ _ Hp) as Hp'. split; [done|].
    apply lookup_op_Some in Hop as (q & Hq & Hop).
    by assert (q = p) as -> by congruence.
  - intros stop w' local_error succeeded error.
    apply failure_policy_non_fatal. by rewrite resolve_flags_non_fatal.
Qed.

End RelatedNonFatal.

(** ** Dependencies come first *)

Section Ordering.
Context {World : Type} `{!FlatpakDir World}.
Implicit Types (w : World) (self : FlatpakTransaction).

Lemma executor_order_wf self :
  wf self → executor_order self = seq 0 (length (tx_heap self)).
Proof.
  intros Hwf. unfold executor_order.
  by rewrite (wf_ops _ Hwf), rev_involutive.
Qed.

Lemma tx_ops_lt self p : wf self → p ∈ tx_ops self → p < length (tx_heap self).
Proof.
  intros Hwf Hp. rewrite (wf_ops _ Hwf) in Hp.
  apply list_elem_of_In, in_rev, list_elem_of_In, elem_of_seq in Hp. lia.
Qed.

(** C6, as amended: when the requested ref has no operation in the table
    at the moment [flatpak_transaction_add_op] is called for it, so that
    its operation is put on the list by this request, every operation that
    the dependency pass of the request put on the list comes before it in
    the order of the executor. *)
Theorem C6_dependencies_precede_new_op w self remote ref subpaths commit
    is_update :
  wf self →
  flatpak_transaction_contains_ref (after_deps w self remote ref) ref
  = false →
  I5_holds w self remote ref subpaths commit is_update.
Proof.
  intros Hwf Habs p Hp _.
  destruct (after_deps_wf_le w self remote ref Hwf) as [Hwf1 _].
  rewrite add_ref_record_unfold. simpl.
  apply contains_ref_false in Habs.
  pose proof (add_op_wf _ remote ref subpaths commit (negb is_update)
                is_update Hwf1) as Hwf2.
  pose proof (add_op_fst (after_deps w self remote ref) remote ref subpaths
                commit (negb is_update) is_update) as Hfst.
  rewrite add_op_absent in Hwf2, Hfst |- * by done. simpl in Hfst |- *.
  set (self2 := {| tx_heap := _ |}) in *.
  pose proof (add_related_wf w self2 remote ref Hwf2) as Hwf3.
  pose proof (add_related_le w self2 remote ref Hwf2) as Hle3.
  pose proof (le_refs _ _ Hle3 _ _ Hfst) as Hp'.
  exists (length (tx_heap (after_deps w self remote ref))).
  split; [done|]. rewrite executor_order_wf by done.
  destruct (wf_refs _ Hwf3 _ _ Hp') as (op' & Hop' & _).
  apply lookup_lt_Some in Hop'. apply tx_ops_lt in Hp; [|done].
  exists p, (length (tx_heap (after_deps w self remote ref))).
  split; [apply lookup_seq_lt; lia|]. split; [by apply lookup_seq_lt|done].
Qed.

End Ordering.

(** ** Sequences of calls of [flatpak_transaction_add_op] *)

Section Subpaths.
Implicit Types (self : FlatpakTransaction) (cs : list AddOpCall).
Implicit Types (sp : option (list string)).

Lemma add_op_call_wf self c : wf self → wf (add_op_call self c).
Proof. apply add_op_wf. Qed.

Lemma subpaths_for_cons ref c cs :
  subpaths_for ref (c :: cs) =
  if decide (c_ref c = ref) then c_subpaths c :: subpaths_for ref cs
  else subpaths_for ref cs.
Proof.
  unfold subpaths_for. rewrite filter_cons.
  by destruct (decide (c_ref c = ref)).
Qed.

(** Once the ref has an operation, the calls merge their subpaths into
    it one after the other. *)
Lemma add_op_calls_present cs self ref op :
  wf self → lookup_op self ref = Some op →
  ∃ op', lookup_op (add_op_calls self cs) ref = Some op' ∧
         op_subpaths op' =
         foldl merge_subpaths (op_subpaths op) (subpaths_for ref cs).
Proof.
  revert self op. induction cs as [|c cs IH]; intros self op Hwf Hl.
  { exists op. by split. }
  simpl. rewrite subpaths_for_cons.
  pose proof (add_op_lookup self (c_remote c) (c_ref c) (c_subpaths c)
                (c_commit c) (c_install c) (c_update c) ref Hwf) as Hs.
  fold (add_op_call self c) in Hs.
  destruct (decide (c_ref c = ref)) as [Hc|Hc].
  - rewrite decide_True in Hs by done. rewrite Hc, Hl in Hs.
    edestruct IH as (op' & Hop' & Hsp); [by apply add_op_call_wf|exact Hs|].
    exists op'. by split.
  - rewrite decide_False in Hs by done. rewrite Hl in Hs.
    eapply IH; [by apply add_op_call_wf|done].
Qed.

(** The first call that mentions a new ref creates its operation with
    the subpaths of that call. *)
Lemma add_op_calls_absent cs self ref sp0 rest :
  wf self → lookup_op self ref = None →
  subpaths_for ref cs = sp0 :: rest →
  ∃ op', lookup_op (add_op_calls self cs) ref = Some op' ∧
         op_subpaths op' = foldl merge_subpaths sp0 rest.
Proof.
  revert self. induction cs as [|c cs IH]; intros self Hwf Hl Hsp; [done|].
  simpl. rewrite subpaths_for_cons in Hsp.
  pose proof (add_op_lookup self (c_remote c) (c_ref c) (c_subpaths c)
                (c_commit c) (c_install c) (c_update c) ref Hwf) as Hs.
  fold (add_op_call self c) in Hs.
  destruct (decide (c_ref c = ref)) as [Hc|Hc].
  - rewrite decide_True in Hs by done. rewrite Hc, Hl in Hs.
    injection Hsp as <- <-.
    edestruct (add_op_calls_present cs (add_op_call self c) ref)
      as (op' & Hop' & Hsp'); [by apply add_op_call_wf|exact Hs|].
    exists op'. by split.
  - rewrite decide_False in Hs by done. rewrite Hl in Hs.
    eapply IH; [by apply add_op_call_wf|done|done].
Qed.

Lemma last_restricted sps sp :
  last (filter (λ sp, is_restricted sp = true) sps) = Some sp →
  is_restricted sp = true.
Proof.
  intros Hl. apply last_Some_elem_of in Hl.
  by apply list_elem_of_filter in Hl as [? _].
Qed.

(** The merge of a sequence that starts with non-NULL subpaths is what
    the specification says. *)
Lemma foldl_merge_I2 sp0 rest :
  sp0 ≠ None →
  Some (foldl merge_subpaths sp0 rest) = I2_final (sp0 :: rest).
Proof.
  intros Hsp0. induction rest as [|sp rest IH] using rev_ind.
  { simpl. unfold I2_final. simpl. by destruct sp0 as [[|x l]|]. }
  rewrite foldl_snoc. unfold I2_final in *.
  rewrite app_comm_cons, existsb_app, filter_app.
  destruct (existsb is_unrestricted (sp0 :: rest)) eqn:Hex.
  - simpl. injection IH as ->. by rewrite merge_subpaths_all.
  - simpl. pose proof (last_restricted _ _ (eq_sym IH)) as Hr.
    destruct (foldl merge_subpaths sp0 rest) as [[|x l]|] eqn:Hf; try done.
    destruct sp as [[|y k]|]; simpl.
    + done.
    + change (filter _ [Some (y :: k)]) with [Some (y :: k)].
      by rewrite last_snoc.
    + change (filter _ [@None (list string)])
        with (@nil (option (list string))).
      by rewrite app_nil_r, <- IH.
Qed.

(** C2, as amended: for a ref that is new to the table, if the first call
    that mentions it passes non-NULL subpaths, the final subpaths of its
    operation are unrestricted when some call passed unrestricted
    subpaths, and otherwise those of the most recent call that passed a
    restricted list; if the first call passes NULL, the operation keeps
    NULL subpaths whatever the later calls pass. *)
Theorem C2_subpaths_after_calls self cs ref sp0 rest :
  wf self → tx_refs self !! ref = None →
  subpaths_for ref cs = sp0 :: rest →
  (sp0 ≠ None → I2_holds self cs ref) ∧
  (sp0 = None →
   op_subpaths <$> lookup_op (add_op_calls self cs) ref = Some None).
Proof.
  intros Hwf Hr Hsp.
  assert (Hl : lookup_op self ref = None) by by apply lookup_op_None.
  destruct (add_op_calls_absent cs self ref sp0 rest Hwf Hl Hsp)
    as (op' & Hop' & Hsp').
  split.
  - intros Hsp0. unfold I2_holds. rewrite Hop', Hsp. simpl.
    by rewrite Hsp', foldl_merge_I2.
  - intros ->. rewrite Hop'. simpl. by rewrite Hsp', foldl_merge_None.
Qed.

End Subpaths.

(** ** A second, identical install request *)

Section MergeAlgebra.
Implicit Types (s t u : option (list string)).
Implicit Types (T : list (option (list string))).

Lemma merge_subpaths_keep s u :
  is_restricted s = false → merge_subpaths s u = s.
Proof. by destruct s as [[|x l]|]. Qed.

Lemma merge_subpaths_override s u :
  is_restricted s = true → u ≠ None → merge_subpaths s u = u.
Proof. by destruct s as [[|x l]|], u. Qed.

Lemma merge_restricted_inv s u :
  is_restricted (merge_subpaths s u) = true →
  is_restricted s = true ∧ (u = None ∨ is_restricted u = true).
Proof. destruct s as [[|x l]|], u as [[|y k]|]; simpl; auto. Qed.

Lemma foldl_merge_keep s T :
  is_restricted s = false → foldl merge_subpaths s T = s.
Proof.
  intros Hs. induction T as [|u T IH]; [done|].
  simpl. by rewrite merge_subpaths_keep.
Qed.

Lemma foldl_merge_restricted_start s T :
  is_restricted (foldl merge_subpaths s T) = true → is_restricted s = true.
Proof.
  intros H. destruct (is_restricted s) eqn:Hs; [done|].
  by rewrite foldl_merge_keep, Hs in H.
Qed.

Lemma foldl_merge_restricted_any s s' T :
  is_restricted (foldl merge_subpaths s T) = true →
  is_restricted s' = true →
  is_restricted (foldl merge_subpaths s' T) = true.
Proof.
  induction T as [|u T IH] using rev_ind; [done|].
  rewrite !foldl_snoc. intros [Hs Hu]%merge_restricted_inv Hs'.
  specialize (IH Hs Hs'). destruct Hu as [->|Hu].
  - by rewrite merge_subpaths_null.
  - rewrite merge_subpaths_override; [done|done|]. by intros ->.
Qed.

(** Merging the same subpaths in once more changes nothing. *)
Lemma foldl_merge_twice s T :
  foldl merge_subpaths (foldl merge_subpaths s T) T =
  foldl merge_subpaths s T.
Proof.
  induction T as [|u T IH] using rev_ind; [done|].
  destruct (is_restricted (foldl merge_subpaths s (T ++ [u]))) eqn:Ht.
  - rewrite foldl_snoc in Ht. rewrite !foldl_snoc.
    apply merge_restricted_inv in Ht as Hinv. destruct Hinv as [Hs Hu].
    destruct Hu as [->|Hu].
    + by rewrite !merge_subpaths_null.
    + assert (Hne : u ≠ None) by by intros ->.
      rewrite (merge_subpaths_override _ u Hs Hne).
      apply merge_subpaths_override; [|done].
      by eapply foldl_merge_restricted_any.
  - by apply foldl_merge_keep.
Qed.

(** The same for an operation that the first of the subpaths created, or
    whose subpaths a request set just before: going through the request
    and the list again gives the same subpaths. *)
Lemma foldl_merge_again s u T :
  (is_restricted s = true → s = u) →
  foldl merge_subpaths
    (merge_subpaths (foldl merge_subpaths s T) u) T =
  foldl merge_subpaths s T.
Proof.
  intros Hsu. destruct (is_restricted (foldl merge_subpaths s T)) eqn:Ht.
  - pose proof (foldl_merge_restricted_start _ _ Ht) as Hs.
    rewrite <- (Hsu Hs). rewrite merge_subpaths_override; [done|done|].
    intros Hn. by rewrite Hn in Hs.
  - rewrite merge_subpaths_keep by done. by apply foldl_merge_keep.
Qed.

Lemma merge_subpaths_restricted_eq s u :
  u ≠ None → is_restricted (merge_subpaths s u) = true →
  merge_subpaths s u = u.
Proof. by destruct s as [[|x l]|], u as [[|y k]|]. Qed.

End MergeAlgebra.

Section Idempotence.
Context {World : Type} `{!FlatpakDir World}.
Implicit Types (w : World) (self : FlatpakTransaction).
Implicit Types (op : FlatpakTransactionOp) (o : option FlatpakTransactionOp).
Implicit Types (T : list (option (list string))).

Lemma op_eq a b :
  op_remote a = op_remote b → op_ref a = op_ref b →
  op_subpaths a = op_subpaths b → op_commit a = op_commit b →
  op_update a = op_update b → op_install a = op_install b →
  op_non_fatal a = op_non_fatal b → a = b.
Proof. destruct a, b; simpl; congruence. Qed.

Lemma related_result_Some remote r op T :
  related_result remote r (Some op) T =
  Some match T with
       | [] => op
       | _ :: _ =>
           op_set_non_fatal true
             (op_set_subpaths (foldl merge_subpaths (op_subpaths op) T) op)
       end.
Proof. by destruct T. Qed.

(** The loop of [add_related], seen from one ref. *)
Lemma related_fold_view remote rels self r :
  wf self →
  lookup_op (foldl (add_related_step remote) self rels) r =
  related_result remote r (lookup_op self r) (related_subpaths_for r rels).
Proof.
  revert self. induction rels as [|rel rels IH]; intros self Hwf; [done|].
  simpl. rewrite IH by by apply add_related_step_wf.
  rewrite add_related_step_lookup by done.
  unfold related_subpaths_for. rewrite filter_cons.
  destruct (rel_download rel) eqn:Hd; simpl.
  - case_bool_decide as Hr.
    + rewrite decide_True by done. rewrite fmap_cons.
      fold (related_subpaths_for r rels).
      set (T := related_subpaths_for r rels).
      rewrite related_result_Some. unfold related_result. cbv zeta.
      set (a := match lookup_op self r with Some op => _ | None => _ end).
      f_equal. destruct T; by apply op_eq.
    + rewrite decide_False; [done|]. intros [_ Heq]. by apply Hr.
  - done.
Qed.

(** Going through the same related refs a second time changes no
    operation. *)
Lemma related_result_twice remote r o T :
  related_result remote r (related_result remote r o T) T =
  related_result remote r o T.
Proof.
  destruct T as [|t0 T]; [done|].
  unfold related_result at 2. cbv zeta.
  set (a := match o with Some op => _ | None => _ end).
  rewrite related_result_Some. f_equal. simpl.
  assert (Hsub : foldl merge_subpaths
                   (merge_subpaths
                      (foldl merge_subpaths (op_subpaths a) T) t0) T =
                 foldl merge_subpaths (op_subpaths a) T).
  { destruct (decide (t0 = None)) as [->|Hne].
    - rewrite merge_subpaths_null. apply foldl_merge_twice.
    - apply foldl_merge_again. intros Hr. subst a. destruct o as [op|]; simpl in *.
      + by apply merge_subpaths_restricted_eq.
      + done. }
  f_equal. by apply op_eq.
Qed.

(** The same request for the ref itself, followed by the same related
    refs, changes nothing either. *)
Lemma related_result_request_twice remote r o T sp commit install update x :
  sp ≠ None →
  related_result remote r
    (Some match o with
          | Some op => op_set_subpaths (merge_subpaths (op_subpaths op) sp) op
          | None =>
              flatpak_transaction_operation_new remote r sp commit install
                update
          end) T = Some x →
  related_result remote r
    (Some (op_set_subpaths (merge_subpaths (op_subpaths x) sp) x)) T =
  Some x.
Proof.
  intros Hsp. set (a := match o with Some op => _ | None => _ end).
  rewrite !related_result_Some. intros [= <-]. f_equal.
  assert (Ha : is_restricted (op_subpaths a) = true → op_subpaths a = sp).
  { subst a. destruct o as [op|]; simpl; [|done].
    by apply merge_subpaths_restricted_eq. }
  destruct T as [|t0 T].
  - apply op_eq; simpl; try done.
    destruct (is_restricted (op_subpaths a)) eqn:Hr.
    + rewrite (Ha eq_refl). by destruct sp as [[|y k]|].
    + by apply merge_subpaths_keep.
  - apply op_eq; try done.
    cbn [op_subpaths op_set_subpaths op_set_non_fatal].
    apply (foldl_merge_again _ sp (t0 :: T) Ha).
Qed.

(** Two well-formed transactions, the second an extension of the first,
    that hold the same operation for every ref are the same. *)
Lemma wf_tx_eq a b :
  wf a → wf b → tx_le a b →
  (∀ r, lookup_op b r = lookup_op a r) → b = a.
Proof.
  intros Hwa Hwb Hle Hl.
  assert (Hrefs : tx_refs b = tx_refs a).
  { apply map_eq. intros r. destruct (tx_refs a !! r) as [p|] eqn:Hr.
    - by apply Hle.
    - apply (lookup_op_None _ _ Hwa) in Hr. rewrite <- Hl in Hr.
      by apply (lookup_op_None _ _ Hwb) in Hr. }
  assert (Hheap : tx_heap b = tx_heap a).
  { apply list_eq. intros p. destruct (tx_heap b !! p) as [op|] eqn:Hp.
    - pose proof (wf_heap _ Hwb _ _ Hp) as Hr.
      assert (Hlb : lookup_op b (op_ref op) = Some op)
        by (apply lookup_op_Some; eauto).
      rewrite Hl in Hlb. apply lookup_op_Some in Hlb as (q & Hq & Hop).
      rewrite Hrefs in Hr. by assert (q = p) as -> by congruence.
    - destruct (tx_heap a !! p) as [op|] eqn:Hpa; [|done].
      destruct (le_heap _ _ Hle _ _ Hpa) as (op' & Hp' & _). congruence. }
  destruct Hle. pose proof (wf_ops _ Hwa) as Hoa.
  pose proof (wf_ops _ Hwb) as Hob. rewrite Hheap, <- Hoa in Hob.
  destruct a, b; simpl in *. congruence.
Qed.

(** A dependency pass in the same outside world on a later state of the
    transaction adds nothing. *)
Lemma add_deps_again w self self' remote ref :
  wf self → tx_le (ar_tx (add_deps w self remote ref)) self' →
  ar_tx (add_deps w self' remote ref) = self'.
Proof.
  intros Hwf Hle. unfold add_deps in *.
  destruct (transaction_fetch_runtime_ref w remote ref) as [rt|]; [|done].
  set (full := "runtime/" +:+ rt) in *.
  unfold add_deps_runtime at 1.
  destruct (flatpak_transaction_contains_ref self' full) eqn:Hc'; [done|].
  simpl. unfold add_deps_runtime in Hle.
  assert (Hadd : ∀ r inst upd self2,
            wf self2 →
            tx_le (add_related w
                     (flatpak_transaction_add_op self2 r full None None inst
                        upd).2 r full).2 self' → False).
  { intros r inst upd self2 Hwf2 Hle2.
    assert (flatpak_transaction_contains_ref self' full = true);
      [|congruence].
    eapply contains_ref_le; [exact Hle2|].
    eapply contains_ref_le; [apply add_related_le; by apply add_op_wf|].
    apply contains_ref_true. rewrite add_op_fst. eauto. }
  destruct (flatpak_transaction_contains_ref self full) eqn:Hc.
  { simpl in Hle. pose proof (contains_ref_le _ _ full Hle Hc). congruence. }
  simpl in Hle. destruct (ref_is_installed w full); simpl in *.
  - destruct (dir_ref_is_installed w full) as [origin|]; [|done].
    exfalso. eapply (Hadd origin); [done|].
    rewrite add_related_unfold in Hle |- *. exact Hle.
  - destruct (flatpak_dir_search_for_dependency w full) as [[|r0 rs]|];
      [done| |done].
    destruct (ask_for_remote w (r0 :: rs)) as [rr|]; [|done].
    exfalso. eapply (Hadd rr); [done|].
    rewrite add_related_unfold in Hle |- *. exact Hle.
Qed.

End Idempotence.

Section SecondRequest.
Context {World : Type} `{!FlatpakDir World}.
Implicit Types (w : World) (self : FlatpakTransaction).
Implicit Types (sp : option (list string)).

Lemma after_deps_again w self self' remote ref :
  wf self → tx_le (after_deps w self remote ref) self' →
  after_deps w self' remote ref = self'.
Proof.
  intros Hwf Hle. destruct (after_deps_wf_le w self remote ref Hwf) as [_ Hle0].
  pose proof (le_add_deps _ _ (tx_le_trans _ _ _ Hle0 Hle)) as Hflag.
  unfold after_deps in *. rewrite <- Hflag.
  destruct (tx_add_deps self); [|done]. by apply (add_deps_again w self).
Qed.

(** The common path of a request, run a second time in the same outside
    world with the same non-NULL subpaths, leaves the transaction as the
    first run left it. *)
Lemma add_ref_record_twice w self remote ref sp commit is_update :
  wf self → sp ≠ None →
  ar_tx (add_ref_record w
           (ar_tx (add_ref_record w self remote ref sp commit is_update))
           remote ref sp commit is_update) =
  ar_tx (add_ref_record w self remote ref sp commit is_update).
Proof.
  intros Hwf Hsp.
  destruct (add_ref_record_wf_le w self remote ref sp commit is_update Hwf)
    as [Hwf1 _].
  destruct (add_ref_record_wf_le w _ remote ref sp commit is_update Hwf1)
    as [Hwf2 Hle2].
  apply wf_tx_eq; [done|done|done|]. intros r.
  revert Hwf1 Hwf2 Hle2. rewrite !add_ref_record_unfold. simpl.
  destruct (after_deps_wf_le w self remote ref Hwf) as [Hwfd Hled].
  set (selfd := after_deps w self remote ref) in *.
  pose proof (add_op_wf selfd remote ref sp commit (negb is_update)
                is_update Hwfd) as Hwfa.
  pose proof (add_op_le selfd remote ref sp commit (negb is_update)
                is_update Hwfd) as Hlea.
  pose proof (add_op_lookup selfd remote ref sp commit (negb is_update)
                is_update) as Hla.
  set (selfa := (flatpak_transaction_add_op selfd remote ref sp commit
                   (negb is_update) is_update).2) in *.
  pose proof (add_related_le w selfa remote ref Hwfa) as Hle1.
  rewrite (add_related_fold w selfa) in Hle1 |- *.
  set (rels := related_list w selfa remote ref) in *.
  set (tx1 := foldl (add_related_step remote) selfa rels) in *.
  intros Hwf1 _ _.
  rewrite (after_deps_again w self tx1)
    by (eauto using tx_le_trans).
  pose proof (add_op_wf tx1 remote ref sp commit (negb is_update)
                is_update Hwf1) as Hwfb.
  pose proof (add_op_le tx1 remote ref sp commit (negb is_update)
                is_update Hwf1) as Hleb.
  pose proof (add_op_lookup tx1 remote ref sp commit (negb is_update)
                is_update r Hwf1) as Hlb.
  set (selfb := (flatpak_transaction_add_op tx1 remote ref sp commit
                   (negb is_update) is_update).2) in *.
  rewrite (add_related_fold w selfb).
  rewrite (related_list_le w selfa selfb) by (eauto using tx_le_trans).
  fold rels. rewrite related_fold_view by done. rewrite Hlb.
  assert (Hl1 : lookup_op tx1 r =
                related_result remote r (lookup_op selfa r)
                  (related_subpaths_for r rels))
    by by apply related_fold_view.
  destruct (decide (r = ref)) as [->|Hne].
  - specialize (Hla ref Hwfd). rewrite decide_True in Hla by done.
    rewrite Hla in Hl1.
    destruct (lookup_op tx1 ref) as [x|] eqn:Hx.
    + by eapply related_result_request_twice.
    + by rewrite related_result_Some in Hl1.
  - rewrite Hl1. apply related_result_twice.
Qed.

(** C8, as amended: the same install request submitted twice for a ref
    that is not deployed, the second time in the outside world [w'].
    Both calls return [TRUE]; the second call of
    [flatpak_transaction_add_op] returns the address that the table
    already held for the ref, and the remote, ref, commit, [install] and
    [update] of the operation there do not change.  When the outside world
    is the same at both calls, the second call leaves the whole transaction
    exactly as the first left it, the subpaths of the operation included. *)
Theorem C8_second_install_request_is_a_no_op w w' self remote ref sp :
  wf self →
  dir_ref_is_installed w ref = None →
  dir_ref_is_installed w' ref = None →
  let r1 := flatpak_transaction_add_install w self remote ref sp in
  let r2 := flatpak_transaction_add_install w' (ar_tx r1) remote ref sp in
  ar_ok r1 = true ∧ ar_ok r2 = true ∧
  (∃ p op1 op2,
     tx_refs (ar_tx r1) !! ref = Some p ∧
     tx_heap (ar_tx r1) !! p = Some op1 ∧
     (flatpak_transaction_add_op (after_deps w' (ar_tx r1) remote ref) remote
        ref (if sp is None then Some [] else sp) None true false).1 = p ∧
     tx_refs (ar_tx r2) !! ref = Some p ∧
     tx_heap (ar_tx r2) !! p = Some op2 ∧
     op_remote op2 = op_remote op1 ∧ op_ref op2 = op_ref op1 ∧
     op_commit op2 = op_commit op1 ∧
     op_install op2 = op_install op1 ∧ op_update op2 = op_update op1 ∧
     (w' = w → op_subpaths op2 = op_subpaths op1)) ∧
  (w' = w → ar_tx r2 = ar_tx r1).
Proof.
  intros Hwf Hdep Hdep'. simpl.
  unfold flatpak_transaction_add_install, flatpak_transaction_add_ref.
  rewrite Hdep, Hdep'.
  set (S := match sp with None => Some [] | Some _ => sp end).
  assert (HS : S ≠ None) by (subst S; by destruct sp).
  rewrite !add_ref_record_ok.
  destruct (add_ref_record_wf_le w self remote ref S None false Hwf)
    as [Hwf1 _].
  pose proof (add_ref_record_twice w self remote ref S None false Hwf HS)
    as Htwice.
  pose proof (add_ref_record_contains w self remote ref S None false Hwf)
    as [p Hp]%contains_ref_true.
  set (tx1 := ar_tx (add_ref_record w self remote ref S None false)) in *.
  destruct (add_ref_record_wf_le w' tx1 remote ref S None false Hwf1)
    as [_ Hle2].
  destruct (wf_refs _ Hwf1 _ _ Hp) as (op1 & Hop1 & _).
  destruct (le_heap _ _ Hle2 _ _ Hop1)
    as (op2 & Hop2 & Hr & Hf & Hc & Hi & Hu & _).
  split; [done|]. split; [done|]. split.
  - exists p, op1, op2. split; [done|]. split; [done|]. split.
    { apply add_op_fst_present.
      destruct (after_deps_wf_le w' tx1 remote ref Hwf1) as [_ Hle].
      by apply Hle. }
    split; [by apply Hle2|]. split; [done|].
    repeat (split; [done|]). intros ->.
    rewrite Htwice in Hop2. congruence.
  - by intros ->.
Qed.

End SecondRequest.

(** ** The dependency pass cannot stop a request *)

Section MissingRuntime.
Context {World : Type} `{!FlatpakDir World}.
Implicit Types (w : World) (self : FlatpakTransaction).

(** C1 fails on the code: when the dependency pass fails, the install
    request still returns [TRUE] and records the operation of the
    requested ref; only [*error] keeps the failure. *)
Theorem C1_add_install_ignores_failed_dependency_pass w self remote ref
    subpaths :
  wf self →
  tx_add_deps self = true →
  dir_ref_is_installed w ref = None →
  ar_ok (add_deps w self remote ref) = false →
  let r := flatpak_transaction_add_install w self remote ref subpaths in
  ar_ok r = true ∧
  ar_error r = ar_error (add_deps w self remote ref) ∧
  flatpak_transaction_contains_ref (ar_tx r) ref = true.
Proof.
  intros Hwf Hdeps Hdep Hfail. simpl.
  unfold flatpak_transaction_add_install, flatpak_transaction_add_ref.
  rewrite Hdep. split; [apply add_ref_record_ok|].
  split; [|by apply add_ref_record_contains].
  rewrite add_ref_record_unfold. simpl. by rewrite Hdeps.
Qed.

End MissingRuntime.

(** ** The claims on concrete requests *)

Lemma wf_fresh : wf Demo.fresh.
Proof. apply wf_new. Qed.

Lemma wf_app_recorded : wf Scenario.app_recorded.
Proof. apply add_install_wf, wf_fresh. Qed.

Lemma wf_planned : wf Scenario.planned.
Proof. apply add_install_wf, wf_fresh. Qed.

Lemma wf_with_related : wf Scenario.with_related.
Proof. apply add_install_wf, wf_fresh. Qed.

Lemma wf_locale_direct : wf Scenario.locale_direct.
Proof. apply add_install_wf, wf_fresh. Qed.

(** C1 at work: no remote offers the runtime of [app]; the dependency
    pass fails and the install request succeeds all the same. *)
Lemma C1_no_provider_witness :
  let w := Demo.needs_runtime [] true 0 in
  let r := flatpak_transaction_add_install w Demo.fresh "origin" Demo.app
             None in
  ar_ok r = true ∧
  ar_error r = ar_error (add_deps w Demo.fresh "origin" Demo.app) ∧
  flatpak_transaction_contains_ref (ar_tx r) Demo.app = true.
Proof.
  apply (C1_add_install_ignores_failed_dependency_pass
           (Demo.needs_runtime [] true 0) Demo.fresh "origin" Demo.app None).
  - apply wf_fresh.
  - reflexivity.
  - reflexivity.
  - vm_compute. reflexivity.
Defined.

(** The same when three remotes offer the runtime and the user answers
    0: the request returns [TRUE] with the error of the dependency pass in
    [*error], and the list holds the operation of [app]. *)
Lemma add_install_after_abort :
  let w := Demo.needs_runtime ["a"; "b"; "c"] true 0 in
  let r := flatpak_transaction_add_install w Demo.fresh "origin" Demo.app
             None in
  ar_ok (add_deps w Demo.fresh "origin" Demo.app) = false ∧
  ar_ok r = true ∧
  ar_error r =
    Some (missing_runtime_error "com.X/x86_64/stable" "org.Y/x86_64/stable") ∧
  tx_ops (ar_tx r) = [0] ∧
  (op_ref <$> tx_heap (ar_tx r)) = [Demo.app].
Proof. vm_compute. by repeat split. Qed.

(** C2 as stated fails: after a call with NULL subpaths and a call with
    the empty vector, the operation has NULL subpaths, not the
    unrestricted ones. *)
Lemma C2_counterexample :
  subpaths_for Demo.app Scenario.null_then_all = [None; Some []] ∧
  op_subpaths <$>
    lookup_op (add_op_calls Demo.fresh Scenario.null_then_all) Demo.app
  = Some None ∧
  I2_final (subpaths_for Demo.app Scenario.null_then_all) = Some (Some []) ∧
  ¬ I2_holds Demo.fresh Scenario.null_then_all Demo.app.
Proof.
  split; [by vm_compute|]. split; [by vm_compute|]. split; [by vm_compute|].
  unfold I2_holds. vm_compute. discriminate.
Qed.

(** A NULL after a restricted list leaves the restricted list in place,
    and a restricted list after a NULL leaves the NULL. *)
Example subpaths_null_and_restricted :
  op_subpaths <$>
    lookup_op
      (add_op_calls Demo.fresh
         [Scenario.call Demo.app (Some ["/a"]); Scenario.call Demo.app None])
      Demo.app = Some (Some ["/a"]) ∧
  op_subpaths <$>
    lookup_op
      (add_op_calls Demo.fresh
         [Scenario.call Demo.app None; Scenario.call Demo.app (Some ["/a"])])
      Demo.app = Some None.
Proof. by vm_compute. Qed.

Lemma C2_witness :
  I2_holds Demo.fresh Scenario.mixed Demo.app ∧
  op_subpaths <$> lookup_op (add_op_calls Demo.fresh Scenario.mixed) Demo.app
  = Some (Some []).
Proof.
  split.
  - refine (proj1 (C2_subpaths_after_calls Demo.fresh Scenario.mixed Demo.app
                     (Some ["/a"]) [Some []; Some ["/b"]] wf_fresh _ _) _).
    + vm_compute. reflexivity.
    + vm_compute. reflexivity.
    + discriminate.
  - vm_compute. reflexivity.
Defined.

(** C3 as stated fails: [app] is deployed in the system scope only, the
    transaction is for the user scope; [ref_is_installed] holds and the
    install request succeeds and records its operation. *)
Lemma C3_counterexample :
  flatpak_dir_is_user Demo.system_only = true ∧
  ref_is_installed Demo.system_only Demo.app = true ∧
  ar_ok (flatpak_transaction_add_install Demo.system_only Demo.fresh
           "origin" Demo.app None) = true ∧
  flatpak_transaction_contains_ref
    (ar_tx (flatpak_transaction_add_install Demo.system_only Demo.fresh
              "origin" Demo.app None)) Demo.app = true ∧
  ¬ install_blocked_by_ref_is_installed Demo.system_only Demo.fresh
      "origin" Demo.app None.
Proof.
  split; [by vm_compute|]. split; [by vm_compute|]. split; [by vm_compute|].
  split; [by vm_compute|].
  intros Hc. destruct Hc as [Hok _]; [by vm_compute|].
  vm_compute in Hok. discriminate.
Qed.

Lemma C3_witness :
  flatpak_transaction_add_install (Demo.app_deployed false) Demo.fresh
    "origin" Demo.app None =
  {| ar_ok := false;
     ar_error :=
       Some (FLATPAK_ERROR_ALREADY_INSTALLED
               "com.X/x86_64/stable already installed");
     ar_tx := Demo.fresh |}.
Proof.
  exact (C3_add_install_checks_own_scope (Demo.app_deployed false)
           Demo.fresh "origin" Demo.app None wf_fresh).
Defined.

Lemma C5_witness :
  flatpak_transaction_add_update (Demo.app_deployed true) Demo.fresh
    Demo.app None None =
  {| ar_ok := true; ar_error := None; ar_tx := Demo.fresh |} ∧
  flatpak_transaction_add_update Demo.empty Demo.fresh Demo.app None None =
  {| ar_ok := false;
     ar_error :=
       Some (FLATPAK_ERROR_NOT_INSTALLED "com.X/x86_64/stable not installed");
     ar_tx := Demo.fresh |}.
Proof.
  split.
  - apply (proj1 (C5_add_update_disabled_or_not_installed
                    (Demo.app_deployed true) Demo.fresh Demo.app None None)
             "origin"); reflexivity.
  - apply (proj2 (C5_add_update_disabled_or_not_installed
                    Demo.empty Demo.fresh Demo.app None None)).
    reflexivity.
Defined.

(** C6 as stated fails: [app] was requested while the catalog had no
    metadata for it and is requested again once the metadata names its
    runtime.  The dependency pass of the second request puts the runtime
    on the list, after the operation of [app], which stays where it
    was. *)
Lemma C6_counterexample :
  flatpak_transaction_contains_ref Scenario.app_recorded Demo.app = true ∧
  tx_ops Scenario.app_recorded = [0] ∧
  tx_ops (after_deps Scenario.runtime_offered Scenario.app_recorded
            "origin" Demo.app) = [1; 0] ∧
  (op_ref <$>
     tx_heap
       (ar_tx (flatpak_transaction_add_install Scenario.runtime_offered
                 Scenario.app_recorded "origin" Demo.app None))) =
  [Demo.app; Demo.runtime] ∧
  executor_order
    (ar_tx (flatpak_transaction_add_install Scenario.runtime_offered
              Scenario.app_recorded "origin" Demo.app None)) = [0; 1] ∧
  ¬ I5_holds Scenario.runtime_offered Scenario.app_recorded "origin"
      Demo.app (Some []) None false.
Proof.
  split; [by vm_compute|]. split; [by vm_compute|]. split; [by vm_compute|].
  split; [by vm_compute|]. split; [by vm_compute|].
  intros Hc. destruct (Hc 1) as (p' & Hp' & i & j & Hi & Hj & Hlt).
  - vm_compute. apply list_elem_of_here.
  - vm_compute. intros [?|?%elem_of_nil]%elem_of_cons; [done|done].
  - vm_compute in Hp'. injection Hp' as <-.
    vm_compute in Hi, Hj.
    destruct i as [|[|i]]; [done| |done].
    destruct j as [|[|j]]; [lia|done|done].
Qed.

Lemma C6_witness :
  I5_holds Scenario.runtime_offered Demo.fresh "origin" Demo.app (Some [])
    None false ∧
  (op_ref <$> tx_heap Scenario.planned) = [Demo.runtime; Demo.app] ∧
  executor_order Scenario.planned = [0; 1].
Proof.
  split; [|by vm_compute].
  apply (C6_dependencies_precede_new_op Scenario.runtime_offered Demo.fresh
           "origin" Demo.app (Some []) None false).
  - apply wf_fresh.
  - vm_compute. reflexivity.
Defined.

(** In [with_related] the install of [app] succeeds and that of its
    related ref [locale] fails; [locale] is non-fatal. *)
Lemma C7_witness :
  (run_ok (flatpak_transaction_run Scenario.locale_fails
             Scenario.with_related false) = true ∧
   run_error (flatpak_transaction_run Scenario.locale_fails
                Scenario.with_related false) = None) ∧
  ((λ ev, (op_ref (ev_op ev), ev_engine ev, op_non_fatal (ev_op ev))) <$>
     run_trace (flatpak_transaction_run Scenario.locale_fails
                  Scenario.with_related false)) =
  [(Demo.app, None, false);
   (Demo.locale, Some (OTHER_ERROR 1 "deploy failed"), true)].
Proof.
  split; [|by vm_compute].
  apply (C7_non_fatal_failures_do_not_fail_run Scenario.locale_fails
           Scenario.with_related false).
  apply (proj1 (Forall_forall
                  (λ ev : OpEvent Demo.World,
                     ev_engine ev ≠ None → op_non_fatal (ev_op ev) = true)
                  _)).
  vm_compute.
  constructor; [intros Hfail; by destruct Hfail|].
  constructor; [intros _; reflexivity|]. constructor.
Defined.

(** C8 as stated fails: [app] is requested while the catalog has no
    metadata for it, and again once the metadata names its runtime; [app]
    is deployed at neither time.  The second call returns [TRUE] and
    leaves the operation of [app] alone, but its dependency pass records
    an operation for the runtime: it is no no-op. *)
Lemma C8_counterexample :
  dir_ref_is_installed Demo.empty Demo.app = None ∧
  dir_ref_is_installed Scenario.runtime_offered Demo.app = None ∧
  ar_tx (flatpak_transaction_add_install Demo.empty Demo.fresh "origin"
           Demo.app None) = Scenario.app_recorded ∧
  (op_ref <$> tx_heap Scenario.app_recorded) = [Demo.app] ∧
  ar_ok (flatpak_transaction_add_install Scenario.runtime_offered
           Scenario.app_recorded "origin" Demo.app None) = true ∧
  (op_ref <$>
     tx_heap
       (ar_tx (flatpak_transaction_add_install Scenario.runtime_offered
                 Scenario.app_recorded "origin" Demo.app None))) =
  [Demo.app; Demo.runtime] ∧
  ¬ second_install_is_no_op Demo.empty Scenario.runtime_offered Demo.fresh
      "origin" Demo.app None.
Proof.
  split; [by vm_compute|]. split; [by vm_compute|]. split; [done|].
  split; [by vm_compute|]. split; [by vm_compute|]. split; [by vm_compute|].
  intros Hc. destruct Hc as (_ & Heq & _); [by vm_compute|by vm_compute|].
  apply (f_equal (λ tx, length (tx_heap tx))) in Heq.
  vm_compute in Heq. discriminate.
Qed.

(** The same request twice in one world changes nothing the second time;
    in the two worlds above the operation of [app] stays at address 0 with
    its fields. *)
Lemma C8_witness :
  (ar_tx (flatpak_transaction_add_install Scenario.runtime_offered
            Scenario.planned "origin" Demo.app None) = Scenario.planned ∧
   ar_ok (flatpak_transaction_add_install Scenario.runtime_offered
            Scenario.planned "origin" Demo.app None) = true) ∧
  ∃ op1 op2,
    tx_heap Scenario.app_recorded !! 0 = Some op1 ∧
    tx_heap
      (ar_tx (flatpak_transaction_add_install Scenario.runtime_offered
                Scenario.app_recorded "origin" Demo.app None)) !! 0
    = Some op2 ∧
    op_remote op2 = op_remote op1 ∧ op_ref op2 = op_ref op1 ∧
    op_commit op2 = op_commit op1 ∧
    op_install op2 = op_install op1 ∧ op_update op2 = op_update op1.
Proof.
  assert (Hdep : dir_ref_is_installed Scenario.runtime_offered Demo.app
                 = None) by reflexivity.
  assert (Hdep0 : dir_ref_is_installed Demo.empty Demo.app = None)
    by reflexivity.
  split.
  - destruct (C8_second_install_request_is_a_no_op Scenario.runtime_offered
                Scenario.runtime_offered Demo.fresh "origin" Demo.app None
                wf_fresh Hdep Hdep)
      as (_ & Hok & _ & Heq).
    split; [exact (Heq eq_refl)|exact Hok].
  - destruct (C8_second_install_request_is_a_no_op Demo.empty
                Scenario.runtime_offered Demo.fresh "origin" Demo.app None
                wf_fresh Hdep0 Hdep)
      as (_ & _ & (p & op1 & op2 & Hp & Hop1 & _ & _ & Hop2 & Hfields) & _).
    assert (Hp0 : tx_refs Scenario.app_recorded !! Demo.app = Some 0)
      by (vm_compute; reflexivity).
    assert (p = 0) as -> by (unfold Scenario.app_recorded in Hp0; congruence).
    exists op1, op2. split; [exact Hop1|]. split; [exact Hop2|].
    destruct Hfields as (H1 & H2 & H3 & H4 & H5 & _).
    repeat split; assumption.
Defined.

(** [locale] was requested directly and is then met as a related ref of
    [app]: its operation, still at address 0, is now non-fatal. *)
Lemma C9_witness :
  op_non_fatal <$> lookup_op Scenario.locale_direct Demo.locale
  = Some false ∧
  tx_refs Scenario.locale_direct !! Demo.locale = Some 0 ∧
  ∃ op,
    lookup_op
      (add_related Scenario.locale_fails Scenario.locale_direct "origin"
         Demo.app).2 Demo.locale = Some op ∧
    op_non_fatal op = true ∧
    tx_heap
      (add_related Scenario.locale_fails Scenario.locale_direct "origin"
         Demo.app).2 !! 0 = Some op.
Proof.
  split; [by vm_compute|]. split; [by vm_compute|].
  destruct (C9_related_refs_become_non_fatal Scenario.locale_fails
              Scenario.locale_direct "origin" Demo.app
              [Scenario.locale_related] Scenario.locale_related)
    as (op & Hop & Hnf & Hsame & _).
  - apply wf_locale_direct.
  - reflexivity.
  - reflexivity.
  - apply list_elem_of_here.
  - reflexivity.
  - exists op. split; [exact Hop|]. split; [exact Hnf|].
    apply (Hsame 0). by vm_compute.
Defined.

(** An update of the deployed [app] restricted to [/bin] records [/bin],
    one with NULL records NULL, and an install with NULL records the
    empty vector. *)
Lemma C10_witness :
  (∃ op,
     lookup_op
       (ar_tx (flatpak_transaction_add_update (Demo.app_deployed false)
                 Demo.fresh Demo.app (Some ["/bin"]) None)) Demo.app
     = Some op ∧ op_subpaths op = Some ["/bin"]) ∧
  (∃ op,
     lookup_op
       (ar_tx (flatpak_transaction_add_update (Demo.app_deployed false)
                 Demo.fresh Demo.app None None)) Demo.app
     = Some op ∧ op_subpaths op = None) ∧
  (∃ op,
     lookup_op
       (ar_tx (flatpak_transaction_add_install Demo.empty Demo.fresh "origin"
                 Demo.app None)) Demo.app
     = Some op ∧ op_subpaths op = Some []).
Proof.
  assert (Hdep : dir_ref_is_installed (Demo.app_deployed false) Demo.app
                 = Some "origin") by reflexivity.
  assert (Hen : flatpak_dir_get_remote_disabled (Demo.app_deployed false)
                  "origin" = false) by reflexivity.
  assert (Hnot : dir_ref_is_installed Demo.empty Demo.app = None)
    by reflexivity.
  split; [|split].
  - destruct (proj1 C10_only_add_install_normalizes_null_subpaths
                (Demo.app_deployed false) Demo.fresh Demo.app
                (Some ["/bin"]) None "origin" wf_fresh Hdep Hen)
      as (_ & op & Hop & _ & Hsp).
    exists op. split; [exact Hop|]. apply Hsp; reflexivity.
  - destruct (proj1 C10_only_add_install_normalizes_null_subpaths
                (Demo.app_deployed false) Demo.fresh Demo.app None None
                "origin" wf_fresh Hdep Hen)
      as (_ & op & Hop & _ & Hsp).
    exists op. split; [exact Hop|]. apply Hsp; reflexivity.
  - destruct (proj2 C10_only_add_install_normalizes_null_subpaths
                Demo.empty Demo.fresh "origin" Demo.app None wf_fresh Hnot)
      as (op & Hop & _ & Hsp).
    exists op. split; [exact Hop|]. apply Hsp; reflexivity.
Defined.

(** ** The scenarios of the specification *)

(** Scenario 1: the runtime is installed before the app, both from
    [origin]. *)
Example scenario_install_with_runtime :
  ((λ ev, (op_install (ev_op ev), op_ref (ev_op ev), op_remote (ev_op ev)))
     <$> run_trace
           (flatpak_transaction_run Scenario.runtime_offered Scenario.planned
              false)) =
  [(true, Demo.runtime, "origin"); (true, Demo.app, "origin")] ∧
  run_ok (flatpak_transaction_run Scenario.runtime_offered Scenario.planned
            false) = true.
Proof. by vm_compute. Qed.

(** Scenario 2: after the skipped update the table is empty and the run
    does nothing and succeeds. *)
Example scenario_update_with_disabled_remote :
  let r := flatpak_transaction_add_update (Demo.app_deployed true)
             Demo.fresh Demo.app None None in
  tx_ops (ar_tx r) = [] ∧
  run_ok (flatpak_transaction_run (Demo.app_deployed true) (ar_tx r) false)
  = true ∧
  run_trace (flatpak_transaction_run (Demo.app_deployed true) (ar_tx r)
               false) = [].
Proof. by vm_compute. Qed.

(** Scenario 6: of two fatal installs the first fails; without
    [stop_on_first_error] the second is still performed and the run
    fails with the summary error. *)
Example scenario_batch_partial_failure :
  let r := flatpak_transaction_run (Demo.refusing [Demo.app])
             Scenario.two_installs false in
  run_ok r = false ∧
  run_error r = Some operations_failed ∧
  ((λ ev, (op_ref (ev_op ev), ev_engine ev)) <$> run_trace r) =
  [(Demo.app, Some (OTHER_ERROR 1 "deploy failed")); (Demo.locale, None)] ∧
  flatpak_dir_get_if_deployed (run_world r) Demo.locale = true.
Proof. by vm_compute. Qed.

(** With [stop_on_first_error] the run returns the error of the first
    operation and does not reach the second. *)
Example scenario_stop_on_first_error :
  let r := flatpak_transaction_run (Demo.refusing [Demo.app])
             Scenario.two_installs true in
  run_ok r = false ∧
  run_error r = Some (OTHER_ERROR 1 "deploy failed") ∧
  (op_ref <$> (ev_op <$> run_trace r)) = [Demo.app].
Proof. by vm_compute. Qed.

(** * Further properties of the transaction *)

(** ** The table and the list *)

Section TableMore.
Implicit Types (self : FlatpakTransaction) (op : FlatpakTransactionOp).
Implicit Types (sp : option (list string)).

(** X23: after [flatpak_transaction_add_op] the table contains the ref of
    the call, and exactly the refs it contained before besides. *)
Theorem add_op_contains_ref self remote ref sp commit install update r :
  flatpak_transaction_contains_ref
    (flatpak_transaction_add_op self remote ref sp commit install update).2
    r =
  bool_decide (r = ref) || flatpak_transaction_contains_ref self r.
Proof.
  unfold flatpak_transaction_contains_ref, flatpak_transaction_add_op.
  destruct (tx_refs self !! ref) as [p|] eqn:Hr.
  - assert (Hsame : ∀ self',
              tx_refs self' = tx_refs self →
              match tx_refs self' !! r with Some _ => true | None => false end
              = bool_decide (r = ref) ||
                match tx_refs self !! r with Some _ => true | None => false end).
    { intros self' ->. case_bool_decide as Heq; [|done].
      subst r. by rewrite Hr. }
    destruct (tx_heap self !! p); [|by apply Hsame].
    destruct (overrides_subpaths _ _); by apply Hsame.
  - simpl. case_bool_decide as Heq.
    + subst r. by rewrite lookup_insert_eq.
    + by rewrite lookup_insert_ne.
Qed.

Lemma NoDup_rev_seq n : NoDup (rev (seq 0 n)).
Proof. apply NoDup_ListNoDup, List.NoDup_rev, NoDup_ListNoDup, NoDup_seq. Qed.

(** A well-formed transaction has one operation for each ref of the
    table and no other; the list holds each operation once. *)
Lemma wf_one_op_per_ref self :
  wf self →
  NoDup (op_ref <$> tx_heap self) ∧
  NoDup (tx_ops self) ∧
  length (tx_ops self) = size (tx_refs self) ∧
  (∀ p, p ∈ tx_ops self ↔ ∃ r, tx_refs self !! r = Some p).
Proof.
  intros Hwf.
  assert (Hnd : NoDup (op_ref <$> tx_heap self)).
  { apply NoDup_alt. intros i j r Hi Hj.
    apply list_lookup_fmap_Some in Hi as (oi & -> & Hoi).
    apply list_lookup_fmap_Some in Hj as (oj & Heq & Hoj).
    apply (wf_heap _ Hwf) in Hoi, Hoj. rewrite <- Heq in Hoj. congruence. }
  split; [done|]. rewrite (wf_ops _ Hwf).
  split; [apply NoDup_rev_seq|]. split.
  - rewrite length_rev, length_seq.
    rewrite <- (length_fmap op_ref), <- (size_list_to_set (C := gset string))
      by done.
    rewrite <- (size_dom (tx_refs self)). f_equal. apply set_eq. intros r.
    rewrite elem_of_dom, elem_of_list_to_set, list_elem_of_fmap. split.
    + intros (op & -> & [p Hp]%list_elem_of_lookup_1).
      exists p. by apply Hwf.
    + intros [p Hp]. destruct (wf_refs _ Hwf _ _ Hp) as (op & Hop & <-).
      exists op. split; [done|]. by eapply list_elem_of_lookup_2.
  - intros p. rewrite list_elem_of_In, <- in_rev, <- list_elem_of_In, elem_of_seq.
    split.
    + intros [_ Hlt]. destruct (lookup_lt_is_Some_2 (tx_heap self) p) as [op Hop];
        [lia|]. exists (op_ref op). by apply Hwf.
    + intros [r Hr]. destruct (wf_refs _ Hwf _ _ Hr) as (op & Hop & _).
      apply lookup_lt_Some in Hop. lia.
Qed.

End TableMore.

(** ** What a request can and cannot change *)

(** The list of [b] is the list of [a] with operations put in front of
    it, at addresses that [a] did not use. *)
Definition ops_prepended (a b : FlatpakTransaction) : Prop :=
  ∃ new, tx_ops b = new ++ tx_ops a ∧
         ∀ p, p ∈ new → tx_heap a !! p = None.

(** [b] has every operation of [a] whose subpaths are NULL or the empty
    vector, with the same subpaths. *)
Definition keeps_unrestricted (a b : FlatpakTransaction) : Prop :=
  ∀ r op, lookup_op a r = Some op →
          is_restricted (op_subpaths op) = false →
          ∃ op', lookup_op b r = Some op' ∧
                 op_subpaths op' = op_subpaths op.

Section Requests.
Context {World : Type} `{!FlatpakDir World}.
Implicit Types (w : World) (self : FlatpakTransaction).
Implicit Types (sp : option (list string)).

Lemma keeps_unrestricted_refl self : keeps_unrestricted self self.
Proof. intros r op Hop _. eauto. Qed.

Lemma keeps_unrestricted_trans a b c :
  keeps_unrestricted a b → keeps_unrestricted b c → keeps_unrestricted a c.
Proof.
  intros Hab Hbc r op Hop Hr.
  destruct (Hab r op Hop Hr) as (op' & Hop' & Hs).
  destruct (Hbc r op' Hop') as (op'' & Hop'' & Hs'); [by rewrite Hs|].
  exists op''. split; [done|]. congruence.
Qed.

Lemma add_op_keeps self remote ref sp commit install update :
  wf self →
  keeps_unrestricted self
    (flatpak_transaction_add_op self remote ref sp commit install update).2.
Proof.
  intros Hwf r op Hop Hr. rewrite add_op_lookup by done.
  destruct (decide (r = ref)) as [->|]; [|eauto].
  rewrite Hop. eexists. split; [done|]. simpl.
  by apply merge_subpaths_keep.
Qed.

Lemma add_related_keeps w self remote ref :
  wf self → keeps_unrestricted self (add_related w self remote ref).2.
Proof.
  intros Hwf r op Hop Hr.
  destruct (add_related_subpaths w self remote ref r op Hwf Hop)
    as (op' & Hop' & Hs).
  exists op'. split; [done|]. by rewrite Hs, foldl_merge_keep.
Qed.

Lemma add_deps_keeps w self remote ref :
  wf self → keeps_unrestricted self (ar_tx (add_deps w self remote ref)).
Proof.
  intros Hwf. unfold add_deps.
  destruct (transaction_fetch_runtime_ref w remote ref) as [rt|];
    [|apply keeps_unrestricted_refl].
  assert (Hadd : ∀ r inst upd,
            keeps_unrestricted self
              (add_related w
                 (flatpak_transaction_add_op self r ("runtime/" +:+ rt) None
                    None inst upd).2 r ("runtime/" +:+ rt)).2).
  { intros r inst upd. eapply keeps_unrestricted_trans.
    - by apply add_op_keeps.
    - by apply add_related_keeps, add_op_wf. }
  unfold add_deps_runtime.
  destruct (flatpak_transaction_contains_ref self _); simpl;
    [apply keeps_unrestricted_refl|].
  destruct (ref_is_installed w _); simpl.
  - destruct (dir_ref_is_installed w _) as [origin|];
      [|apply keeps_unrestricted_refl].
    specialize (Hadd origin false true).
    rewrite add_related_unfold in Hadd |- *. exact Hadd.
  - destruct (flatpak_dir_search_for_dependency w _) as [[|r0 rs]|];
      try apply keeps_unrestricted_refl.
    destruct (ask_for_remote w (r0 :: rs)) as [rr|];
      [|apply keeps_unrestricted_refl].
    specialize (Hadd rr true true).
    rewrite add_related_unfold in Hadd |- *. exact Hadd.
Qed.

Lemma add_ref_keeps w self remote ref sp commit is_update :
  wf self →
  keeps_unrestricted self
    (ar_tx (flatpak_transaction_add_ref w self remote ref sp commit
              is_update)).
Proof.
  intros Hwf.
  assert (Hrec : ∀ remote',
            keeps_unrestricted self
              (ar_tx (add_ref_record w self remote' ref sp commit
                        is_update))).
  { intros remote'. rewrite add_ref_record_unfold. simpl.
    destruct (after_deps_wf_le w self remote' ref Hwf) as [Hwf1 _].
    assert (H1 : keeps_unrestricted self (after_deps w self remote' ref)).
    { unfold after_deps. destruct (tx_add_deps self).
      - by apply add_deps_keeps.
      - apply keeps_unrestricted_refl. }
    eapply keeps_unrestricted_trans; [exact H1|].
    eapply keeps_unrestricted_trans; [by apply add_op_keeps|].
    by apply add_related_keeps, add_op_wf. }
  unfold flatpak_transaction_add_ref. destruct is_update.
  - destruct (dir_ref_is_installed w ref) as [origin|];
      [|apply keeps_unrestricted_refl].
    destruct (flatpak_dir_get_remote_disabled w origin);
      [apply keeps_unrestricted_refl|done].
  - destruct remote as [remote|]; [|apply keeps_unrestricted_refl].
    destruct (dir_ref_is_installed w ref);
      [apply keeps_unrestricted_refl|done].
Qed.

(** X1: a transaction built by the entry points holds at most one
    operation per ref: the refs of its operations are pairwise different,
    the list holds no operation twice, it is as long as the table is big,
    and an address is on the list exactly when the table has it. *)
Theorem built_one_op_per_ref self :
  built self →
  NoDup (op_ref <$> tx_heap self) ∧
  NoDup (tx_ops self) ∧
  length (tx_ops self) = size (tx_refs self) ∧
  (∀ p, p ∈ tx_ops self ↔ ∃ r, tx_refs self !! r = Some p).
Proof. intros [Hwf _]%built_wf_flagged. by apply wf_one_op_per_ref. Qed.

(** A later state of a well-formed transaction has the list of the
    earlier one as its tail: operations are only put in front, at addresses
    that held nothing before. *)
Lemma wf_le_ops_prepended a b :
  wf a → wf b → tx_le a b → ops_prepended a b.
Proof.
  intros Hwa Hwb Hle.
  assert (Hlen : (length (tx_heap a) ≤ length (tx_heap b))%nat).
  { destruct (tx_heap a) as [|op0 h] eqn:Hh using rev_ind; [simpl; lia|].
    clear IHh. rewrite length_app. simpl.
    destruct (le_heap _ _ Hle (length h) op0) as (op' & Hop' & _).
    - rewrite Hh. by apply list_lookup_middle.
    - apply lookup_lt_Some in Hop'. lia. }
  exists (rev (seq (length (tx_heap a))
                 (length (tx_heap b) - length (tx_heap a)))).
  split.
  - rewrite (wf_ops _ Hwa), (wf_ops _ Hwb), <- rev_app_distr. f_equal.
    rewrite <- seq_app. f_equal. lia.
  - intros p Hp. apply list_elem_of_In, List.in_rev, list_elem_of_In in Hp.
    apply elem_of_seq in Hp. apply lookup_ge_None. lia.
Qed.

(** X2: an install or update request never removes or moves an operation,
    neither in the table nor on the list, and never changes the remote,
    ref, commit, [install] or [update] of one that exists: the first
    request for a ref decides them.  The list after the request is the
    list before it with the new operations in front; in the operations
    that were there the request can only set [non_fatal] and change
    subpaths that are not NULL. *)
Theorem requests_only_extend w self remote ref sp commit :
  wf self →
  (tx_le self (ar_tx (flatpak_transaction_add_install w self remote ref sp)) ∧
   ops_prepended self
     (ar_tx (flatpak_transaction_add_install w self remote ref sp))) ∧
  (tx_le self (ar_tx (flatpak_transaction_add_update w self ref sp commit)) ∧
   ops_prepended self
     (ar_tx (flatpak_transaction_add_update w self ref sp commit))).
Proof.
  intros Hwf.
  split; (split; [by apply add_ref_wf_le|]);
    apply wf_le_ops_prepended; try done; by apply add_ref_wf_le.
Qed.

Lemma add_ref_failed w self remote ref sp commit is_update :
  ar_ok (flatpak_transaction_add_ref w self remote ref sp commit is_update)
  = false →
  ar_tx (flatpak_transaction_add_ref w self remote ref sp commit is_update)
  = self.
Proof.
  unfold flatpak_transaction_add_ref. destruct is_update.
  - destruct (dir_ref_is_installed w ref) as [origin|]; [|done].
    destruct (flatpak_dir_get_remote_disabled w origin); [done|].
    by rewrite add_ref_record_ok.
  - destruct remote as [remote'|]; [|done].
    destruct (dir_ref_is_installed w ref); [done|].
    by rewrite add_ref_record_ok.
Qed.

(** X3: a request that returns [FALSE] has left the transaction exactly
    as it was. *)
Theorem failed_request_changes_nothing w self remote ref sp commit
    is_update :
  ar_ok (flatpak_transaction_add_ref w self remote ref sp commit is_update)
  = false →
  ar_tx (flatpak_transaction_add_ref w self remote ref sp commit is_update)
  = self.
Proof. apply add_ref_failed. Qed.

(** X4: subpaths that are unrestricted (the empty vector) or NULL are
    never narrowed: whatever a later install or update request and its
    dependency and related passes ask for, the operation keeps them. *)
Theorem unrestricted_subpaths_are_kept w self remote ref sp commit r op :
  wf self →
  lookup_op self r = Some op →
  is_restricted (op_subpaths op) = false →
  (∃ op',
     lookup_op (ar_tx (flatpak_transaction_add_install w self remote ref sp))
       r = Some op' ∧ op_subpaths op' = op_subpaths op) ∧
  (∃ op',
     lookup_op
       (ar_tx (flatpak_transaction_add_update w self ref sp commit)) r
     = Some op' ∧ op_subpaths op' = op_subpaths op).
Proof.
  intros Hwf Hop Hr. split.
  - by eapply (add_ref_keeps w self (Some remote)).
  - by eapply (add_ref_keeps w self None).
Qed.

Lemma add_ref_record_fields w self remote ref sp commit is_update :
  wf self →
  flatpak_transaction_contains_ref (after_deps w self remote ref) ref
  = false →
  ∃ op,
    lookup_op (ar_tx (add_ref_record w self remote ref sp commit is_update))
      ref = Some op ∧
    op_remote op = remote ∧ op_commit op = commit ∧
    op_install op = negb is_update ∧ op_update op = is_update.
Proof.
  intros Hwf Habs. rewrite add_ref_record_unfold. simpl.
  destruct (after_deps_wf_le w self remote ref Hwf) as [Hwf1 _].
  pose proof (add_op_lookup (after_deps w self remote ref) remote ref sp
                commit (negb is_update) is_update ref Hwf1) as Hl.
  rewrite decide_True in Hl by done.
  assert (Hnone : lookup_op (after_deps w self remote ref) ref = None).
  { apply lookup_op_None; [done|]. by apply contains_ref_false. }
  rewrite Hnone in Hl.
  edestruct lookup_op_le as (op' & Hop' & Hle); [|exact Hl|].
  { apply add_related_le. by apply add_op_wf. }
  exists op'. split; [done|].
  destruct Hle as (Hrem & _ & Hcom & Hins & Hupd & _).
  simpl in *. by repeat split.
Qed.

(** X5: the operation that a request records for a ref new to the table.
    An update takes its remote from the origin of the deploy data, not
    from the caller, and keeps the caller's commit; an install takes the
    caller's remote and has no commit.  Exactly one of [install] and
    [update] is set. *)
Theorem recorded_operation :
  (∀ w self ref sp commit origin,
     wf self →
     dir_ref_is_installed w ref = Some origin →
     flatpak_dir_get_remote_disabled w origin = false →
     flatpak_transaction_contains_ref (after_deps w self origin ref) ref
     = false →
     ∃ op,
       lookup_op
         (ar_tx (flatpak_transaction_add_update w self ref sp commit)) ref
       = Some op ∧
       op_remote op = origin ∧ op_commit op = commit ∧
       op_install op = false ∧ op_update op = true) ∧
  (∀ w self remote ref sp,
     wf self →
     dir_ref_is_installed w ref = None →
     flatpak_transaction_contains_ref (after_deps w self remote ref) ref
     = false →
     ∃ op,
       lookup_op
         (ar_tx (flatpak_transaction_add_install w self remote ref sp)) ref
       = Some op ∧
       op_remote op = remote ∧ op_commit op = None ∧
       op_install op = true ∧ op_update op = false).
Proof.
  split.
  - intros w self ref sp commit origin Hwf Hdep Hen Habs.
    unfold flatpak_transaction_add_update, flatpak_transaction_add_ref.
    rewrite Hdep, Hen.
    by apply (add_ref_record_fields w self origin ref sp commit true).
  - intros w self remote ref sp Hwf Hdep Habs.
    unfold flatpak_transaction_add_install, flatpak_transaction_add_ref.
    rewrite Hdep. by apply (add_ref_record_fields w self remote ref _ None false).
Qed.

End Requests.

(** ** The dependency and related passes *)

Section Expander.
Context {World : Type} `{!FlatpakDir World}.
Implicit Types (w : World) (self : FlatpakTransaction).

(** X6: [add_deps] returns [FALSE] exactly when the ref is an app whose
    metadata names a runtime that is not in the table and not installed,
    and either no remote offers it or the user declines; it then has
    recorded nothing and the error names the app and the runtime. *)
Theorem add_deps_fails_iff w self remote ref :
  (ar_ok (add_deps w self remote ref) = false ↔
   ∃ rt,
     transaction_fetch_runtime_ref w remote ref = Some rt ∧
     flatpak_transaction_contains_ref self ("runtime/" +:+ rt) = false ∧
     ref_is_installed w ("runtime/" +:+ rt) = false ∧
     match flatpak_dir_search_for_dependency w ("runtime/" +:+ rt) with
     | None | Some [] => True
     | Some remotes => ask_for_remote w remotes = None
     end) ∧
  (ar_ok (add_deps w self remote ref) = false →
   ar_tx (add_deps w self remote ref) = self ∧
   ∃ rt,
     transaction_fetch_runtime_ref w remote ref = Some rt ∧
     ar_error (add_deps w self remote ref) =
     Some (missing_runtime_error (pref_of ref) rt)).
Proof.
  assert (Hfwd : ar_ok (add_deps w self remote ref) = false →
            ∃ rt,
              transaction_fetch_runtime_ref w remote ref = Some rt ∧
              flatpak_transaction_contains_ref self ("runtime/" +:+ rt)
              = false ∧
              ref_is_installed w ("runtime/" +:+ rt) = false ∧
              match
                flatpak_dir_search_for_dependency w ("runtime/" +:+ rt)
              with
              | None | Some [] => True
              | Some remotes => ask_for_remote w remotes = None
              end ∧
              ar_tx (add_deps w self remote ref) = self ∧
              ar_error (add_deps w self remote ref) =
              Some (missing_runtime_error (pref_of ref) rt)).
  { unfold add_deps, add_deps_runtime.
    destruct (transaction_fetch_runtime_ref w remote ref) as [rt|]; [|done].
    destruct (flatpak_transaction_contains_ref self _) eqn:Hc; simpl;
      [done|].
    destruct (ref_is_installed w _) eqn:Hi; simpl.
    - destruct (dir_ref_is_installed w _); [|done].
      by rewrite add_related_unfold.
    - destruct (flatpak_dir_search_for_dependency w _) as [[|r0 rs]|] eqn:Hs.
      + intros _. exists rt. by rewrite Hc, Hi, Hs.
      + destruct (ask_for_remote w (r0 :: rs)) eqn:Ha.
        * by rewrite add_related_unfold.
        * intros _. exists rt. by rewrite Hc, Hi, Hs.
      + intros _. exists rt. by rewrite Hc, Hi, Hs. }
  split.
  - split.
    + intros (rt & ? & ? & ? & ? & _)%Hfwd. eauto.
    + intros (rt & Hrt & Hc & Hi & Hs).
      unfold add_deps, add_deps_runtime. rewrite Hrt, Hc. simpl.
      rewrite Hi. simpl.
      destruct (flatpak_dir_search_for_dependency w _) as [[|r0 rs]|];
        [done| |done].
      by rewrite Hs.
  - intros (rt & ? & _ & _ & _ & ? & ?)%Hfwd. eauto.
Qed.

(** X7: [add_deps] does nothing and returns [TRUE] for a ref that is not
    an app, for an app without cached metadata, for a runtime that already
    has an operation, and for a runtime that is installed but has no deploy
    data in the transaction's own dir (installed in the system dir while
    the transaction is for the user dir). *)
Theorem add_deps_does_nothing w self remote ref :
  String.prefix "app/" ref = false ∨
  flatpak_dir_fetch_ref_cache w remote ref = None ∨
  (∃ rt,
     transaction_fetch_runtime_ref w remote ref = Some rt ∧
     (flatpak_transaction_contains_ref self ("runtime/" +:+ rt) = true ∨
      ref_is_installed w ("runtime/" +:+ rt) = true ∧
      dir_ref_is_installed w ("runtime/" +:+ rt) = None)) →
  add_deps w self remote ref =
  {| ar_ok := true; ar_error := None; ar_tx := self |}.
Proof.
  unfold add_deps. intros [Hp|[Hf|(rt & Hrt & Hcase)]].
  - unfold transaction_fetch_runtime_ref. by rewrite Hp.
  - unfold transaction_fetch_runtime_ref. rewrite Hf.
    by destruct (String.prefix "app/" ref).
  - rewrite Hrt. unfold add_deps_runtime. destruct Hcase as [Hc|[Hi Hd]].
    + by rewrite Hc.
    + destruct (flatpak_transaction_contains_ref self _); [done|].
      simpl. by rewrite Hi, Hd.
Qed.

(** X8: the operation that [add_deps] records for a runtime new to the
    table.  A runtime with deploy data in the transaction's dir gets an
    update from its origin; a runtime that is not installed gets an
    operation with both flags from the remote that [ask_for_remote]
    returned.  Either way its subpaths and commit are NULL. *)
Theorem add_deps_records_runtime w self remote ref rt :
  wf self →
  transaction_fetch_runtime_ref w remote ref = Some rt →
  flatpak_transaction_contains_ref self ("runtime/" +:+ rt) = false →
  (∀ origin,
     ref_is_installed w ("runtime/" +:+ rt) = true →
     dir_ref_is_installed w ("runtime/" +:+ rt) = Some origin →
     ar_ok (add_deps w self remote ref) = true ∧
     ∃ op,
       lookup_op (ar_tx (add_deps w self remote ref)) ("runtime/" +:+ rt)
       = Some op ∧
       op_remote op = origin ∧ op_install op = false ∧
       op_update op = true ∧ op_subpaths op = None ∧ op_commit op = None) ∧
  (∀ r0 rs r,
     ref_is_installed w ("runtime/" +:+ rt) = false →
     flatpak_dir_search_for_dependency w ("runtime/" +:+ rt)
     = Some (r0 :: rs) →
     ask_for_remote w (r0 :: rs) = Some r →
     ar_ok (add_deps w self remote ref) = true ∧
     ∃ op,
       lookup_op (ar_tx (add_deps w self remote ref)) ("runtime/" +:+ rt)
       = Some op ∧
       op_remote op = r ∧ op_install op = true ∧
       op_update op = true ∧ op_subpaths op = None ∧ op_commit op = None).
Proof.
  intros Hwf Hrt Hc.
  assert (Hadd : ∀ r inst upd,
            ∃ op,
              lookup_op
                (add_related w
                   (flatpak_transaction_add_op self r ("runtime/" +:+ rt) None
                      None inst upd).2 r ("runtime/" +:+ rt)).2
                ("runtime/" +:+ rt) = Some op ∧
              op_remote op = r ∧ op_install op = inst ∧
              op_update op = upd ∧ op_subpaths op = None ∧
              op_commit op = None).
  { intros r inst upd.
    pose proof (add_op_lookup self r ("runtime/" +:+ rt) None None inst upd
                  ("runtime/" +:+ rt) Hwf) as Hl.
    rewrite decide_True in Hl by done.
    assert (Hnone : lookup_op self ("runtime/" +:+ rt) = None).
    { apply lookup_op_None; [done|]. by apply contains_ref_false. }
    rewrite Hnone in Hl.
    edestruct lookup_op_le as (op' & Hop' & Hle); [|exact Hl|].
    { apply add_related_le. by apply add_op_wf. }
    exists op'. split; [done|].
    destruct Hle as (Hrem & _ & Hcom & Hins & Hupd & _ & Hsub).
    simpl in *. repeat split; auto. }
  unfold add_deps, add_deps_runtime. rewrite Hrt, Hc. simpl. split.
  - intros origin Hi Hd. rewrite Hi, Hd. simpl.
    destruct (Hadd origin false true) as (op & Hop & Hfields).
    rewrite add_related_unfold in Hop |- *. simpl. eauto.
  - intros r0 rs r Hi Hs Hask. rewrite Hi, Hs, Hask. simpl.
    destruct (Hadd r true true) as (op & Hop & Hfields).
    rewrite add_related_unfold in Hop |- *. simpl. eauto.
Qed.

(** X9: when [flatpak_number_prompt] keeps to the range it is given, an
    answer between 0 and the number of remotes, [ask_for_remote] never
    invents a remote: what it returns is one of the remotes offered.  With
    one remote on offer the answer to the yes/no prompt decides; with
    several, the answer 0 aborts and the answer [k], counted from 1,
    picks the [k]-th remote of the vector. *)
Theorem ask_for_remote_offered w remotes :
  (length remotes ≠ 1 →
   (0 ≤ flatpak_number_prompt w 0 (Z.of_nat (length remotes))
    ≤ Z.of_nat (length remotes))%Z) →
  (∀ r, ask_for_remote w remotes = Some r → r ∈ remotes) ∧
  (∀ r0, remotes = [r0] →
         ask_for_remote w remotes =
         if flatpak_yes_no_prompt w r0 then Some r0 else None) ∧
  (length remotes ≠ 1 →
   flatpak_number_prompt w 0 (Z.of_nat (length remotes)) = 0%Z →
   ask_for_remote w remotes = None) ∧
  (∀ k, length remotes ≠ 1 →
        flatpak_number_prompt w 0 (Z.of_nat (length remotes))
        = Z.of_nat (S k) →
        ∃ r, remotes !! k = Some r ∧ ask_for_remote w remotes = Some r).
Proof.
  intros Hrange.
  assert (Hpick : ∀ k, length remotes ≠ 1 →
            flatpak_number_prompt w 0 (Z.of_nat (length remotes))
            = Z.of_nat (S k) →
            ∃ r, remotes !! k = Some r ∧ ask_for_remote w remotes = Some r).
  { intros k Hlen Hk. specialize (Hrange Hlen). rewrite Hk in Hrange.
    destruct (lookup_lt_is_Some_2 remotes k) as [r Hr]; [lia|].
    exists r. split; [done|]. unfold ask_for_remote.
    assert (Hn : (match remotes with
                  | [r0] => if flatpak_yes_no_prompt w r0 then 1 else 0
                  | _ => flatpak_number_prompt w 0 (Z.of_nat (length remotes))
                  end = Z.of_nat (S k))%Z).
    { destruct remotes as [|r0 [|r1 rs]]; simpl in *; done. }
    cbv zeta. rewrite Hn.
    destruct (Z.eqb_spec (Z.of_nat (S k)) 0); [lia|].
    destruct (Z.ltb_spec (Z.of_nat (S k)) 0); [lia|].
    replace (Z.to_nat (Z.of_nat (S k) - 1)) with k by lia. done. }
  split; [|split; [|split]].
  - intros r. destruct (decide (length remotes = 1)) as [Hone|Hlen].
    + destruct remotes as [|r0 [|r1 rs]]; try done.
      unfold ask_for_remote. simpl.
      destruct (flatpak_yes_no_prompt w r0); simpl; [|done].
      intros ?. simplify_eq. apply list_elem_of_here.
    + pose proof (Hrange Hlen) as Hr.
      destruct (Z_of_nat_complete
                  (flatpak_number_prompt w 0 (Z.of_nat (length remotes))))
        as [[|k] Hk]; [lia| |].
      * unfold ask_for_remote.
        destruct remotes as [|r0 [|r1 rs]]; simpl in *; try done;
          by rewrite Hk.
      * destruct (Hpick k Hlen Hk) as (r' & Hr' & ->).
        intros ?. simplify_eq. by eapply list_elem_of_lookup_2.
  - intros r0 ->. unfold ask_for_remote.
    by destruct (flatpak_yes_no_prompt w r0).
  - intros Hlen Hzero. unfold ask_for_remote.
    destruct remotes as [|r0 [|r1 rs]]; simpl in *; try done;
      by rewrite Hzero.
  - exact Hpick.
Qed.

Lemma related_fold_filter remote rels self :
  foldl (add_related_step remote) self rels =
  foldl (add_related_step remote) self
    (filter (λ rel, rel_download rel = true) rels).
Proof.
  revert self. induction rels as [|rel rels IH]; intros self; [done|].
  rewrite filter_cons. destruct (decide (rel_download rel = true)) as [Hd|Hd].
  - simpl. apply IH.
  - simpl. rewrite <- IH. f_equal. unfold add_related_step.
    by destruct (rel_download rel).
Qed.

(** X10: [add_related] always returns [TRUE].  It leaves the transaction
    as it is when related expansion is disabled or the lookup of related
    refs fails, and otherwise acts on the related refs marked for download
    only: the others might as well not be listed. *)
Theorem add_related_downloads_only w self remote ref :
  (add_related w self remote ref).1 = true ∧
  (tx_add_related self = false ∨ find_related w self remote ref = None →
   (add_related w self remote ref).2 = self) ∧
  (∀ rels,
     tx_add_related self = true →
     find_related w self remote ref = Some rels →
     (add_related w self remote ref).2 =
     foldl (add_related_step remote) self
       (filter (λ rel, rel_download rel = true) rels)).
Proof.
  rewrite add_related_unfold. simpl. split; [done|]. split.
  - intros [->| ->]; [done|]. by destruct (tx_add_related self).
  - intros rels -> ->. apply related_fold_filter.
Qed.

(** X11: a downloaded related ref that is new to the table gets an
    operation from the remote of the pass, with both flags, no commit,
    [non_fatal] set, and the subpaths of its entries merged in order. *)
Theorem related_pass_creates_operation w self remote ref rels r t0 T :
  wf self →
  tx_add_related self = true →
  find_related w self remote ref = Some rels →
  lookup_op self r = None →
  related_subpaths_for r rels = t0 :: T →
  lookup_op (add_related w self remote ref).2 r =
  Some {| op_remote := remote; op_ref := r;
          op_subpaths := foldl merge_subpaths t0 T; op_commit := None;
          op_update := true; op_install := true; op_non_fatal := true |}.
Proof.
  intros Hwf Hon Hfind Hnone HT.
  rewrite add_related_unfold. simpl. rewrite Hon, Hfind.
  rewrite related_fold_view by done. by rewrite Hnone, HT.
Qed.

(** X24: the operations that the related pass of a request creates come
    after the operation of the requested ref in the order of the executor,
    when that operation is itself put on the list by the request. *)
Theorem related_ops_follow_their_owner w self remote ref sp commit is_update
    r pr :
  wf self →
  flatpak_transaction_contains_ref (after_deps w self remote ref) ref
  = false →
  r ≠ ref →
  flatpak_transaction_contains_ref (after_deps w self remote ref) r
  = false →
  tx_refs (ar_tx (add_ref_record w self remote ref sp commit is_update)) !! r
  = Some pr →
  ∃ p,
    tx_refs (ar_tx (add_ref_record w self remote ref sp commit is_update))
    !! ref = Some p ∧
    precedes
      (executor_order
         (ar_tx (add_ref_record w self remote ref sp commit is_update)))
      p pr.
Proof.
  intros Hwf Habs Hne Hr. rewrite add_ref_record_unfold. simpl.
  destruct (after_deps_wf_le w self remote ref Hwf) as [Hwf1 _].
  apply contains_ref_false in Habs, Hr.
  pose proof (add_op_wf _ remote ref sp commit (negb is_update) is_update
                Hwf1) as Hwf2.
  pose proof (add_op_fst (after_deps w self remote ref) remote ref sp commit
                (negb is_update) is_update) as Hfst.
  rewrite add_op_absent in Hwf2, Hfst |- * by done.
  simpl in Hwf2, Hfst |- *.
  set (self2 := {| tx_heap := _ |}) in *.
  assert (Hr2 : tx_refs self2 !! r = None).
  { simpl. by rewrite lookup_insert_ne. }
  pose proof (add_related_wf w self2 remote ref Hwf2) as Hwf3.
  pose proof (add_related_le w self2 remote ref Hwf2) as Hle3.
  intros Hpr.
  exists (length (tx_heap (after_deps w self remote ref))).
  split; [by apply Hle3|]. rewrite executor_order_wf by done.
  destruct (wf_refs _ Hwf3 _ _ Hpr) as (opr & Hopr & Hrefr).
  pose proof (lookup_lt_Some _ _ _ Hopr) as Hlt.
  assert (Hgt : length (tx_heap (after_deps w self remote ref)) < pr).
  { destruct (decide (length (tx_heap (after_deps w self remote ref)) < pr))
      as [|Hle]; [done|]. exfalso.
    destruct (lookup_lt_is_Some_2 (tx_heap self2) pr) as [o Ho].
    { simpl. rewrite length_app. simpl. lia. }
    pose proof (wf_heap _ Hwf2 _ _ Ho) as Href2.
    destruct (le_heap _ _ Hle3 _ _ Ho) as (o' & Ho' & Hople).
    assert (o' = opr) as -> by congruence.
    destruct Hople as (_ & Href & _). congruence. }
  exists (length (tx_heap (after_deps w self remote ref))), pr.
  split; [apply lookup_seq_lt; lia|]. split; [by apply lookup_seq_lt|done].
Qed.

End Expander.

(** ** The run *)

(** An event that counts against the run: the operation left the loop
    body with [res] unset and is not [non_fatal]. *)
Definition fatal_failure {World : Type} (ev : OpEvent World) : bool :=
  match ev_local_error ev with
  | Some _ => negb (op_non_fatal (ev_op ev))
  | None => false
  end.

(** [b] is [a] but for the [install] and [update] flags of its
    operations. *)
Definition same_plan (a b : FlatpakTransaction) : Prop :=
  tx_refs b = tx_refs a ∧ tx_ops b = tx_ops a ∧
  tx_no_pull b = tx_no_pull a ∧ tx_no_deploy b = tx_no_deploy a ∧
  tx_add_deps b = tx_add_deps a ∧ tx_add_related b = tx_add_related a ∧
  length (tx_heap b) = length (tx_heap a) ∧
  ∀ p op, tx_heap a !! p = Some op →
    ∃ op', tx_heap b !! p = Some op' ∧
           op_remote op' = op_remote op ∧ op_ref op' = op_ref op ∧
           op_subpaths op' = op_subpaths op ∧
           op_commit op' = op_commit op ∧
           op_non_fatal op' = op_non_fatal op.

Section RunMore.
Context {World : Type} `{!FlatpakDir World}.
Implicit Types (w : World) (self : FlatpakTransaction).
Implicit Types (op : FlatpakTransactionOp) (ev : OpEvent World).

Lemma same_plan_refl self : same_plan self self.
Proof. repeat split; try done. intros p op Hp. exists op. by repeat split. Qed.

Lemma same_plan_trans a b c : same_plan a b → same_plan b c → same_plan a c.
Proof.
  intros (?&?&?&?&?&?&?&Hab) (?&?&?&?&?&?&?&Hbc).
  repeat split; try congruence. intros p op Hp.
  destruct (Hab p op Hp) as (op' & Hp' & ?&?&?&?&?).
  destruct (Hbc p op' Hp') as (op'' & Hp'' & ?&?&?&?&?).
  exists op''. repeat split; congruence.
Qed.

Lemma resolve_flags_subpaths w op :
  op_remote (resolve_flags w op) = op_remote op ∧
  op_subpaths (resolve_flags w op) = op_subpaths op ∧
  op_commit (resolve_flags w op) = op_commit op.
Proof.
  unfold resolve_flags. destruct (op_install op && op_update op); [|done].
  by destruct (dir_ref_is_installed w (op_ref op)).
Qed.

Lemma same_plan_resolve w self p op0 :
  tx_heap self !! p = Some op0 →
  same_plan self
    (tx_set_heap (<[p:=resolve_flags w op0]> (tx_heap self)) self).
Proof.
  intros Hp. repeat split; try done.
  - simpl. by rewrite length_insert.
  - intros q op Hq. simpl. destruct (decide (p = q)) as [<-|Hne].
    + rewrite list_lookup_insert_eq by (by eapply lookup_lt_Some).
      assert (op = op0) as -> by congruence.
      exists (resolve_flags w op0).
      destruct (resolve_flags_subpaths w op0) as (?&?&?).
      by rewrite resolve_flags_ref, resolve_flags_non_fatal.
    + rewrite list_lookup_insert_ne by done. exists op. by repeat split.
Qed.

Lemma run_loop_same_plan stop l w self succeeded error trace :
  same_plan self (run_tx (run_loop stop w self l succeeded error trace)).
Proof.
  revert w self succeeded error trace.
  induction l as [|p l IH]; intros w self succeeded error trace; simpl.
  { apply same_plan_refl. }
  destruct (tx_heap self !! p) as [op0|] eqn:Hp; [|apply IH].
  destruct (dispatch _ _ _) as [[engine local_error] w1].
  destruct (failure_policy _ _ _ _ _) as [succeeded1 error1|e].
  - eapply same_plan_trans; [by apply (same_plan_resolve w)|apply IH].
  - simpl. by apply same_plan_resolve.
Qed.

Lemma failure_policy_batch op local_error succeeded error :
  failure_policy false op local_error succeeded error =
  Continue
    (succeeded &&
     negb match local_error with
          | Some _ => negb (op_non_fatal op)
          | None => false
          end)
    (if succeeded &&
        match local_error with
        | Some _ => negb (op_non_fatal op)
        | None => false
        end
     then Some operations_failed else error).
Proof.
  unfold failure_policy. destruct local_error as [e|].
  - destruct (op_non_fatal op); simpl.
    + by rewrite !andb_true_r, andb_false_r.
    + by destruct succeeded.
  - simpl. by rewrite andb_true_r, andb_false_r.
Qed.

(** The loop without [stop_on_first_error]. *)
Lemma run_loop_batch l w self succeeded error trace :
  ∃ evs,
    run_trace (run_loop false w self l succeeded error trace) = trace ++ evs ∧
    run_ok (run_loop false w self l succeeded error trace) =
    succeeded && negb (existsb fatal_failure evs) ∧
    run_error (run_loop false w self l succeeded error trace) =
    if succeeded && existsb fatal_failure evs
    then Some operations_failed else error.
Proof.
  revert w self succeeded error trace.
  induction l as [|p l IH]; intros w self succeeded error trace; simpl.
  { exists []. rewrite app_nil_r. simpl.
    by rewrite andb_true_r, andb_false_r. }
  destruct (tx_heap self !! p) as [op0|]; [|apply IH].
  destruct (dispatch _ _ _) as [[engine local_error] w1].
  rewrite failure_policy_batch.
  set (ev0 := {| ev_world := w; ev_ptr := p; ev_before := op0;
                 ev_op := resolve_flags w op0; ev_engine := engine;
                 ev_local_error := local_error |}).
  change (match local_error with
          | Some _ => negb (op_non_fatal (resolve_flags w op0))
          | None => false
          end) with (fatal_failure ev0).
  edestruct IH as (evs & -> & -> & ->).
  exists (ev0 :: evs). rewrite <- app_assoc. split; [done|]. simpl.
  destruct succeeded, (fatal_failure ev0), (existsb fatal_failure evs); done.
Qed.

(** The loop with [stop_on_first_error]. *)
Lemma run_loop_stop l w self succeeded error trace :
  ∃ evs,
    run_trace (run_loop true w self l succeeded error trace) = trace ++ evs ∧
    (existsb fatal_failure evs = false ∧
     run_ok (run_loop true w self l succeeded error trace) = succeeded ∧
     run_error (run_loop true w self l succeeded error trace) = error
     ∨
     ∃ evs0 ev e,
       evs = evs0 ++ [ev] ∧ existsb fatal_failure evs0 = false ∧
       ev_local_error ev = Some e ∧ op_non_fatal (ev_op ev) = false ∧
       run_ok (run_loop true w self l succeeded error trace) = false ∧
       run_error (run_loop true w self l succeeded error trace) = Some e).
Proof.
  revert w self succeeded error trace.
  induction l as [|p l IH]; intros w self succeeded error trace; simpl.
  { exists []. rewrite app_nil_r. split; [done|]. by left. }
  destruct (tx_heap self !! p) as [op0|]; [|apply IH].
  destruct (dispatch _ _ _) as [[engine local_error] w1].
  set (ev0 := {| ev_world := w; ev_ptr := p; ev_before := op0;
                 ev_op := resolve_flags w op0; ev_engine := engine;
                 ev_local_error := local_error |}).
  unfold failure_policy. simpl.
  assert (Hgo : ∀ self1,
            fatal_failure ev0 = false →
            ∃ evs,
              run_trace (run_loop true w1 self1 l succeeded error
                           (trace ++ [ev0])) = trace ++ evs ∧
              (existsb fatal_failure evs = false ∧
               run_ok (run_loop true w1 self1 l succeeded error
                         (trace ++ [ev0])) = succeeded ∧
               run_error (run_loop true w1 self1 l succeeded error
                            (trace ++ [ev0])) = error
               ∨
               ∃ evs0 ev e,
                 evs = evs0 ++ [ev] ∧ existsb fatal_failure evs0 = false ∧
                 ev_local_error ev = Some e ∧
                 op_non_fatal (ev_op ev) = false ∧
                 run_ok (run_loop true w1 self1 l succeeded error
                           (trace ++ [ev0])) = false ∧
                 run_error (run_loop true w1 self1 l succeeded error
                              (trace ++ [ev0])) = Some e)).
  { intros self1 Hnf.
    destruct (IH w1 self1 succeeded error (trace ++ [ev0]))
      as (evs & Htr & Hcase).
    exists (ev0 :: evs). rewrite Htr, <- app_assoc. split; [done|].
    destruct Hcase as [(Hex & Hok & Herr)|(evs0 & ev & e & -> & Hex & Hrest)].
    - left. simpl. by rewrite Hnf, Hex.
    - right. exists (ev0 :: evs0), ev, e. simpl. by rewrite Hnf, Hex. }
  destruct local_error as [e|] eqn:Hle.
  - destruct (op_non_fatal (resolve_flags w op0)) eqn:Hnf.
    + apply Hgo. unfold fatal_failure. simpl. by rewrite Hnf.
    + simpl. exists [ev0]. split; [done|]. right.
      exists [], ev0, e. by repeat split.
  - by apply Hgo.
Qed.

(** How the loop reads the answer of the deploy engine: for an install
    the error is the engine's; for an update
    [FLATPAK_ERROR_ALREADY_INSTALLED] is no error. *)
Lemma run_loop_classifies stop l w self succeeded error trace :
  Forall (λ ev, ev_local_error ev =
                if op_install (ev_op ev) then ev_engine ev
                else match ev_engine ev with
                     | Some (FLATPAK_ERROR_ALREADY_INSTALLED _) => None
                     | e => e
                     end) trace →
  Forall (λ ev, ev_local_error ev =
                if op_install (ev_op ev) then ev_engine ev
                else match ev_engine ev with
                     | Some (FLATPAK_ERROR_ALREADY_INSTALLED _) => None
                     | e => e
                     end)
    (run_trace (run_loop stop w self l succeeded error trace)).
Proof.
  revert w self succeeded error trace.
  induction l as [|p l IH]; intros w self succeeded error trace Htr; simpl;
    [done|].
  destruct (tx_heap self !! p) as [op0|]; [|by apply IH].
  destruct (dispatch _ _ _) as [[engine local_error] w1] eqn:Hd.
  assert (Forall (λ ev : OpEvent World, ev_local_error ev =
                    if op_install (ev_op ev) then ev_engine ev
                    else match ev_engine ev with
                         | Some (FLATPAK_ERROR_ALREADY_INSTALLED _) => None
                         | e => e
                         end)
            (trace ++ [ {| ev_world := w; ev_ptr := p; ev_before := op0;
                           ev_op := resolve_flags w op0;
                           ev_engine := engine;
                           ev_local_error := local_error |} ])).
  { apply Forall_app. split; [done|]. apply Forall_singleton. simpl.
    unfold dispatch in Hd. destruct (op_install (resolve_flags w op0)).
    - destruct (flatpak_dir_install _ _ _ _ _ _). by simplify_eq.
    - destruct (flatpak_dir_update _ _ _ _ _ _ _) as [[[]|] ?];
        by simplify_eq. }
  destruct (failure_policy _ _ _ _ _); [by apply IH|done].
Qed.

(** X12: in both modes [flatpak_transaction_run] returns [FALSE] exactly
    when some operation that is not [non_fatal] failed.  When it returns
    [TRUE], [*error] is empty; when it returns [FALSE] without
    [stop_on_first_error], [*error] is the summary error, whatever the
    errors of the operations were. *)
Theorem run_fails_iff_fatal_failure w self stop :
  run_ok (flatpak_transaction_run w self stop) =
  negb (existsb fatal_failure
          (run_trace (flatpak_transaction_run w self stop))) ∧
  (run_ok (flatpak_transaction_run w self stop) = true →
   run_error (flatpak_transaction_run w self stop) = None) ∧
  (run_ok (flatpak_transaction_run w self stop) = false → stop = false →
   run_error (flatpak_transaction_run w self stop) = Some operations_failed).
Proof.
  unfold flatpak_transaction_run. destruct stop.
  - destruct (run_loop_stop (tx_ops (tx_set_ops (rev (tx_ops self)) self)) w
                (tx_set_ops (rev (tx_ops self)) self) true None [])
      as (evs & Htr & [(Hex & Hok & Herr)
                      |(evs0 & ev & e & -> & Hex & Hle & Hnf & Hok & Herr)]).
    + rewrite Htr, Hok. simpl. rewrite Hex. by repeat split.
    + rewrite Htr, Hok. simpl. rewrite existsb_app, Hex. simpl.
      unfold fatal_failure. rewrite Hle, Hnf. by repeat split.
  - destruct (run_loop_batch (tx_ops (tx_set_ops (rev (tx_ops self)) self)) w
                (tx_set_ops (rev (tx_ops self)) self) true None [])
      as (evs & -> & -> & ->).
    simpl. by destruct (existsb fatal_failure evs).
Qed.

(** X13: with [stop_on_first_error], a run that returns [FALSE] ended at
    the first operation that failed and is not [non_fatal]: that operation
    is the last one handed to the deploy engine, no earlier one counted
    against the run, and [*error] is the error the engine returned for
    it. *)
Theorem run_stops_at_first_fatal_failure w self :
  run_ok (flatpak_transaction_run w self true) = false →
  ∃ evs ev e,
    run_trace (flatpak_transaction_run w self true) = evs ++ [ev] ∧
    existsb fatal_failure evs = false ∧
    ev_engine ev = Some e ∧ op_non_fatal (ev_op ev) = false ∧
    run_error (flatpak_transaction_run w self true) = Some e.
Proof.
  pose proof (run_loop_engine_error true
                (tx_ops (tx_set_ops (rev (tx_ops self)) self)) w
                (tx_set_ops (rev (tx_ops self)) self) true None []
                (Forall_nil_2 _)) as Hall.
  unfold flatpak_transaction_run in *.
  destruct (run_loop_stop (tx_ops (tx_set_ops (rev (tx_ops self)) self)) w
              (tx_set_ops (rev (tx_ops self)) self) true None [])
    as (evs & Htr & [(Hex & Hok & Herr)
                    |(evs0 & ev & e & -> & Hex & Hle & Hnf & Hok & Herr)]).
  - rewrite Hok. done.
  - intros _. exists evs0, ev, e. rewrite Htr in Hall |- *.
    split; [done|]. split; [done|]. split; [|done].
    rewrite Forall_forall in Hall. apply Hall; [|done].
    simpl. apply elem_of_app. right. apply list_elem_of_here.
Qed.

(** X14: an update that the deploy engine answers with
    [FLATPAK_ERROR_ALREADY_INSTALLED] has nothing to do and does not count
    as a failure: a run in which every failed engine call is either such
    an update or for a [non_fatal] operation returns [TRUE] with [*error]
    empty. *)
Theorem run_succeeds_on_noop_updates w self stop :
  (∀ ev, ev ∈ run_trace (flatpak_transaction_run w self stop) →
         ev_engine ev ≠ None →
         op_non_fatal (ev_op ev) = true ∨
         op_install (ev_op ev) = false ∧
         ∃ msg, ev_engine ev = Some (FLATPAK_ERROR_ALREADY_INSTALLED msg)) →
  run_ok (flatpak_transaction_run w self stop) = true ∧
  run_error (flatpak_transaction_run w self stop) = None.
Proof.
  intros H. apply run_loop_isolation. intros ev Hev Hle.
  pose proof (run_loop_classifies stop
                (tx_ops (tx_set_ops (rev (tx_ops self)) self)) w
                (tx_set_ops (rev (tx_ops self)) self) true None []
                (Forall_nil_2 _)) as Hall.
  rewrite Forall_forall in Hall. specialize (Hall ev Hev).
  destruct (H ev Hev) as [Hnf|[Hins [msg Hmsg]]]; [|done|].
  - intros He. rewrite He in Hall.
    destruct (op_install (ev_op ev)); [congruence|].
    by destruct (ev_local_error ev).
  - rewrite Hins, Hmsg in Hall. congruence.
Qed.

(** X15: a run changes nothing of the plan but the [install] and
    [update] flags and the direction of the list, which it leaves
    reversed: the table, the options, and the remote, ref, subpaths, commit
    and [non_fatal] of every operation are as before. *)
Theorem run_keeps_the_plan w self stop :
  same_plan (tx_set_ops (rev (tx_ops self)) self)
    (run_tx (flatpak_transaction_run w self stop)) ∧
  tx_ops (run_tx (flatpak_transaction_run w self stop)) = rev (tx_ops self).
Proof.
  pose proof (run_loop_same_plan stop
                (tx_ops (tx_set_ops (rev (tx_ops self)) self)) w
                (tx_set_ops (rev (tx_ops self)) self) true None []) as Hsp.
  split; [exact Hsp|]. destruct Hsp as (_ & Hops & _). exact Hops.
Qed.

Lemma failure_policy_batch_continues op local_error succeeded error :
  ∃ succeeded1 error1,
    failure_policy false op local_error succeeded error =
    Continue succeeded1 error1.
Proof. rewrite failure_policy_batch. eauto. Qed.

Lemma run_loop_settles l w self succeeded error trace :
  flagged self →
  (∀ q op, q ∉ l → tx_heap self !! q = Some op →
           xorb (op_install op) (op_update op) = true) →
  ∀ q op,
    tx_heap (run_tx (run_loop false w self l succeeded error trace)) !! q
    = Some op →
    xorb (op_install op) (op_update op) = true.
Proof.
  revert w self succeeded error trace.
  induction l as [|p l IH]; intros w self succeeded error trace Hfl Hdone;
    simpl.
  { intros q op. apply Hdone, not_elem_of_nil. }
  destruct (tx_heap self !! p) as [op0|] eqn:Hp.
  - destruct (dispatch _ _ _) as [[engine local_error] w1].
    destruct (failure_policy_batch_continues (resolve_flags w op0)
                local_error succeeded error) as (s1 & e1 & ->).
    apply IH.
    + intros q o [(_ & <- & _)|[_ Hq]]%list_lookup_insert_Some; [|eauto].
      apply resolve_flags_keeps_a_flag. eauto.
    + intros q o Hq [(<- & <- & _)|[Hne Ho]]%list_lookup_insert_Some.
      * apply resolve_flags_exclusive. eauto.
      * apply (Hdone q); [|done]. by intros [?|?]%elem_of_cons.
  - apply IH; [done|]. intros q o Hq Ho. apply (Hdone q); [|done].
    intros [->|?]%elem_of_cons; [congruence|done].
Qed.

(** X16: after a run without [stop_on_first_error] of a transaction
    built by the entry points, every operation of the table has exactly
    one of [install] and [update] set. *)
Theorem run_settles_every_flag w self q op :
  built self →
  tx_heap (run_tx (flatpak_transaction_run w self false)) !! q = Some op →
  xorb (op_install op) (op_update op) = true.
Proof.
  intros [Hwf Hfl]%built_wf_flagged. unfold flatpak_transaction_run.
  apply run_loop_settles; [done|]. simpl. intros q' op' Hq' Hop'.
  exfalso. apply Hq'. rewrite (wf_ops _ Hwf), rev_involutive.
  apply elem_of_seq. apply lookup_lt_Some in Hop'. lia.
Qed.

Lemma run_keeps_the_plan_aux w self :
  length (tx_heap (run_tx (flatpak_transaction_run w self false))) =
  length (tx_heap self) ∧
  tx_ops (run_tx (flatpak_transaction_run w self false)) = rev (tx_ops self).
Proof.
  pose proof (run_loop_same_plan false
                (tx_ops (tx_set_ops (rev (tx_ops self)) self)) w
                (tx_set_ops (rev (tx_ops self)) self) true None []) as Hsp.
  destruct Hsp as (_ & Hops & _ & _ & _ & _ & Hlen & _). by split.
Qed.

(** X17: without [stop_on_first_error] a run hands the operations to the
    deploy engine in the order in which they were recorded.  Because it
    leaves the list reversed, a second run of the same transaction hands
    them over in the opposite order. *)
Theorem second_run_goes_backwards w w' self :
  wf self →
  ev_ptr <$> run_trace (flatpak_transaction_run w self false) =
  seq 0 (length (tx_heap self)) ∧
  ev_ptr <$>
    run_trace
      (flatpak_transaction_run w'
         (run_tx (flatpak_transaction_run w self false)) false) =
  rev (seq 0 (length (tx_heap self))).
Proof.
  intros Hwf.
  destruct (run_keeps_the_plan_aux w self) as (Hlen & Hops).
  split.
  - unfold flatpak_transaction_run. simpl.
    edestruct (run_loop_order false (rev (tx_ops self)) w
                 (tx_set_ops (rev (tx_ops self)) self) true None [])
      as (evs & rest & -> & Hl & Hrest).
    + simpl. intros q Hq. apply lookup_lt_is_Some.
      rewrite (wf_ops _ Hwf), rev_involutive in Hq.
      apply elem_of_seq in Hq. lia.
    + simpl. rewrite (Hrest eq_refl), app_nil_r in Hl.
      by rewrite <- Hl, (wf_ops _ Hwf), rev_involutive.
  - set (self1 := run_tx (flatpak_transaction_run w self false)) in *.
    unfold flatpak_transaction_run at 1. simpl.
    edestruct (run_loop_order false (rev (tx_ops self1)) w'
                 (tx_set_ops (rev (tx_ops self1)) self1) true None [])
      as (evs & rest & -> & Hl & Hrest).
    + simpl. intros q Hq. apply lookup_lt_is_Some. rewrite Hlen.
      rewrite Hops, rev_involutive, (wf_ops _ Hwf) in Hq.
      apply list_elem_of_In, in_rev, list_elem_of_In, elem_of_seq in Hq. lia.
    + simpl. rewrite (Hrest eq_refl), app_nil_r in Hl.
      by rewrite <- Hl, Hops, rev_involutive, (wf_ops _ Hwf).
Qed.

End RunMore.

(** ** Names and debug strings *)

(** The loop of [subpaths_to_string]: [s] is the [GString] so far and [i]
    the index of the next subpath. *)
Fixpoint subpaths_to_string_loop (s : string) (i : nat)
    (subpaths : list string) : string :=
  match subpaths with
  | [] => s
  | x :: rest =>
      subpaths_to_string_loop
        ((if Nat.eqb i 0 then s else s +:+ ", ") +:+ x) (S i) rest
  end.

Definition subpaths_to_string (subpaths : option (list string)) : string :=
  match subpaths with
  | None => "[$old]"
  | Some [] => "[*]"
  | Some l => subpaths_to_string_loop "[" 0 l +:+ "]"
  end.

(** No slash in the string. *)
Fixpoint no_slash (s : string) : bool :=
  match s with
  | EmptyString => true
  | String c s' => negb (Ascii.eqb c "/"%char) && no_slash s'
  end.

Section Strings.

Lemma string_app_assoc (a b c : string) : (a +:+ b) +:+ c = a +:+ (b +:+ c).
Proof.
  induction a as [|x a IH]; [done|].
  change (String x ((a +:+ b) +:+ c) = String x (a +:+ (b +:+ c))).
  by rewrite IH.
Qed.

Lemma string_app_empty_r (a : string) : a +:+ "" = a.
Proof.
  induction a as [|x a IH]; [done|].
  change (String x (a +:+ "") = String x a). by rewrite IH.
Qed.

Lemma subpaths_to_string_loop_next s i l :
  subpaths_to_string_loop s (S i) l =
  s +:+ match l with
        | [] => ""
        | _ :: _ => ", " +:+ String.concat ", " l
        end.
Proof.
  revert s i. induction l as [|x l IH]; intros s i.
  { simpl. by rewrite string_app_empty_r. }
  cbn [subpaths_to_string_loop Nat.eqb]. rewrite IH.
  destruct l as [|y l].
  - cbn [String.concat]. by rewrite string_app_empty_r, !string_app_assoc.
  - cbn [String.concat]. by rewrite !string_app_assoc.
Qed.

(** X18: for an explicit list, [subpaths_to_string] gives the subpaths
    joined by a comma and a space, between brackets: the separator comes
    between the subpaths only, neither first nor last. *)
Theorem subpaths_to_string_joins x l :
  subpaths_to_string (Some (x :: l)) =
  "[" +:+ String.concat ", " (x :: l) +:+ "]".
Proof.
  unfold subpaths_to_string.
  cbn [subpaths_to_string_loop Nat.eqb]. rewrite subpaths_to_string_loop_next.
  destruct l as [|y l]; cbn [String.concat].
  - by rewrite string_app_empty_r.
  - by rewrite !string_app_assoc.
Qed.

(** X19: [pref_of] drops the kind of a ref: what is left is everything
    after the first slash, further slashes included. *)
Theorem pref_of_drops_kind kind rest :
  no_slash kind = true → pref_of (kind +:+ "/" +:+ rest) = rest.
Proof.
  induction kind as [|c kind IH]; simpl; [done|].
  intros [Hc Hk]%andb_prop. destruct (Ascii.eqb c "/"); [done|]. by apply IH.
Qed.

End Strings.

(** ** Installing from an OCI registry *)

(** The OCI registry client and the calls on the [FlatpakDir] that
    [flatpak_transaction_add_install_oci] makes besides those of
    [FlatpakDir].  A pointer result with a [GError **] is a sum, the error
    on the left.  [flatpak_oci_parse_commit_annotations] is given the two
    out-parameters the caller passes, [ref] and [checksum], each left NULL
    when the annotation is absent.  Creating the remote and recreating the
    repo change the configuration of the dir, so they return the outside
    world after the call. *)
Class FlatpakOci (World Registry Manifest Annotations : Type) := {
  flatpak_oci_registry_new : World → string → GError + Registry;
  flatpak_oci_registry_chose_image :
    World → Registry → string → GError + Manifest;
  flatpak_oci_manifest_get_annotations : Manifest → option Annotations;
  flatpak_oci_parse_commit_annotations :
    Annotations → option string * option string;
  flatpak_decompose_ref : string → GError + list string;
  flatpak_dir_create_origin_remote :
    World → string → string → string → string → string →
    (GError + string) * World;
  flatpak_dir_recreate_repo : World → option GError * World
}.

Section Oci.
Context {World Registry Manifest Annotations : Type}.
Context `{!FlatpakDir World}.
Context `{!FlatpakOci World Registry Manifest Annotations}.

Definition oci_missing_ref : GError :=
  FLATPAK_FAIL "OCI image is not a flatpak (missing ref)".

Definition oci_failure (e : GError) (self : FlatpakTransaction)
    : AddResult :=
  {| ar_ok := false; ar_error := Some e; ar_tx := self |}.

(** Returns the outside world besides the result.  [parts[1]] is the name
    in a ref that [flatpak_decompose_ref] accepted; should the vector be
    shorter, the embedding takes the empty string. *)
Definition flatpak_transaction_add_install_oci (w : World)
    (self : FlatpakTransaction) (uri tag : string) : AddResult * World :=
  match flatpak_oci_registry_new w uri with
  | inl e => (oci_failure e self, w)
  | inr registry =>
      match flatpak_oci_registry_chose_image w registry tag with
      | inl e => (oci_failure e self, w)
      | inr manifest =>
          let '(ref, checksum) :=
            match flatpak_oci_manifest_get_annotations manifest with
            | Some annotations =>
                flatpak_oci_parse_commit_annotations annotations
            | None => (None, None)
            end in
          match ref with
          | None => (oci_failure oci_missing_ref self, w)
          | Some ref =>
              match flatpak_decompose_ref ref with
              | inl e => (oci_failure e self, w)
              | inr parts =>
                  let name := default "" (parts !! 1) in
                  let title := "OCI remote for " +:+ name in
                  let id := "oci-" +:+ name in
                  let '(remote, w1) :=
                    flatpak_dir_create_origin_remote w id title ref uri tag
                  in
                  match remote with
                  | inl e => (oci_failure e self, w1)
                  | inr remote =>
                      let '(res, w2) := flatpak_dir_recreate_repo w1 in
                      match res with
                      | Some e => (oci_failure e self, w2)
                      | None =>
                          let all_paths : list string := [] in
                          (flatpak_transaction_add_ref w2 self (Some remote)
                             ref (Some all_paths) checksum false, w2)
                      end
                  end
              end
          end
      end
  end.

(** The ref and checksum that the annotations of a manifest give. *)
Definition oci_annotated (manifest : Manifest)
    : option string * option string :=
  match flatpak_oci_manifest_get_annotations manifest with
  | Some annotations => flatpak_oci_parse_commit_annotations annotations
  | None => (None, None)
  end.

(** X20: whenever [flatpak_transaction_add_install_oci] returns [FALSE]
    the transaction is exactly as it was, at whichever step it failed. *)
Theorem add_install_oci_failure_changes_nothing w self uri tag :
  ar_ok (flatpak_transaction_add_install_oci w self uri tag).1 = false →
  ar_tx (flatpak_transaction_add_install_oci w self uri tag).1 = self.
Proof.
  unfold flatpak_transaction_add_install_oci.
  destruct (flatpak_oci_registry_new w uri) as [e|registry]; [done|].
  destruct (flatpak_oci_registry_chose_image w registry tag)
    as [e|manifest]; [done|].
  destruct (match flatpak_oci_manifest_get_annotations manifest with
            | Some annotations =>
                flatpak_oci_parse_commit_annotations annotations
            | None => (None, None)
            end) as [[ref|] checksum]; [|done].
  destruct (flatpak_decompose_ref ref) as [e|parts]; [done|].
  destruct (flatpak_dir_create_origin_remote _ _ _ _ _ _) as [[e|remote] w1];
    [done|].
  destruct (flatpak_dir_recreate_repo w1) as [[e|] w2]; [done|].
  apply add_ref_failed.
Qed.

(** X21: an image without annotations, or whose annotations name no ref,
    is refused with the error "OCI image is not a flatpak (missing ref)",
    before any remote is created: the outside world is untouched. *)
Theorem add_install_oci_missing_ref w self uri tag registry manifest :
  flatpak_oci_registry_new w uri = inr registry →
  flatpak_oci_registry_chose_image w registry tag = inr manifest →
  (oci_annotated manifest).1 = None →
  flatpak_transaction_add_install_oci w self uri tag =
  (oci_failure oci_missing_ref self, w).
Proof.
  intros Hreg Himg. unfold oci_annotated, flatpak_transaction_add_install_oci.
  rewrite Hreg, Himg.
  destruct (match flatpak_oci_manifest_get_annotations manifest with
            | Some annotations =>
                flatpak_oci_parse_commit_annotations annotations
            | None => (None, None)
            end) as [ref checksum].
  simpl. by intros ->.
Qed.

(** X22: when every step succeeds, the ref is not deployed in the dir as
    it is after the remote was created, and the ref gets its operation
    from this request, that operation is an install from the remote just
    created, named after the second part of the ref, pinned to the
    checksum of the image and with unrestricted subpaths. *)
Theorem add_install_oci_records_pinned_install w self uri tag registry
    manifest ref checksum parts remote w1 w2 :
  wf self →
  flatpak_oci_registry_new w uri = inr registry →
  flatpak_oci_registry_chose_image w registry tag = inr manifest →
  oci_annotated manifest = (Some ref, checksum) →
  flatpak_decompose_ref ref = inr parts →
  flatpak_dir_create_origin_remote w ("oci-" +:+ default "" (parts !! 1))
    ("OCI remote for " +:+ default "" (parts !! 1)) ref uri tag
  = (inr remote, w1) →
  flatpak_dir_recreate_repo w1 = (None, w2) →
  dir_ref_is_installed w2 ref = None →
  flatpak_transaction_contains_ref (after_deps w2 self remote ref) ref
  = false →
  (flatpak_transaction_add_install_oci w self uri tag).2 = w2 ∧
  ar_ok (flatpak_transaction_add_install_oci w self uri tag).1 = true ∧
  ∃ op,
    lookup_op (ar_tx (flatpak_transaction_add_install_oci w self uri tag).1)
      ref = Some op ∧
    op_remote op = remote ∧ op_commit op = checksum ∧
    op_subpaths op = Some [] ∧
    op_install op = true ∧ op_update op = false.
Proof.
  intros Hwf Hreg Himg Hann Hparts Hremote Hrepo Hdep Habs.
  unfold oci_annotated in Hann.
  unfold flatpak_transaction_add_install_oci.
  rewrite Hreg, Himg, Hann, Hparts. simpl. rewrite Hremote, Hrepo. simpl.
  unfold flatpak_transaction_add_ref. rewrite Hdep.
  split; [done|]. split; [apply add_ref_record_ok|].
  destruct (add_ref_record_fields w2 self remote ref (Some []) checksum false
              Hwf Habs) as (op & Hop & Hrem & Hcom & Hins & Hupd).
  destruct (add_ref_record_subpaths w2 self remote ref (Some []) checksum
              false Hwf) as (op' & Hop' & Hsub).
  assert (op' = op) as -> by congruence.
  exists op. repeat split; try done.
  assert (Hnone : lookup_op (after_deps w2 self remote ref) ref = None).
  { destruct (after_deps_wf_le w2 self remote ref Hwf) as [Hwf1 _].
    apply lookup_op_None; [done|]. by apply contains_ref_false. }
  by rewrite Hnone, foldl_merge_all in Hsub.
Qed.

End Oci.

(** ** More concrete worlds *)

(** A deploy store whose engine has nothing new for any deployed ref: an
    update is answered with [FLATPAK_ERROR_ALREADY_INSTALLED]. *)
Module UpToDate.

Record World := { inner : Demo.World }.

#[global] Instance dir : FlatpakDir World := {|
  flatpak_dir_get_if_deployed w := flatpak_dir_get_if_deployed (inner w);
  flatpak_dir_is_user w := flatpak_dir_is_user (inner w);
  flatpak_dir_system_get_if_deployed w :=
    flatpak_dir_system_get_if_deployed (inner w);
  flatpak_dir_get_deploy_data w := flatpak_dir_get_deploy_data (inner w);
  flatpak_dir_get_remote_disabled w :=
    flatpak_dir_get_remote_disabled (inner w);
  flatpak_dir_fetch_ref_cache w := flatpak_dir_fetch_ref_cache (inner w);
  key_file_runtime metadata := Some metadata;
  flatpak_dir_find_local_related w :=
    flatpak_dir_find_local_related (inner w);
  flatpak_dir_find_remote_related w :=
    flatpak_dir_find_remote_related (inner w);
  flatpak_dir_search_for_dependency w :=
    flatpak_dir_search_for_dependency (inner w);
  flatpak_yes_no_prompt w := flatpak_yes_no_prompt (inner w);
  flatpak_number_prompt w := flatpak_number_prompt (inner w);
  flatpak_dir_install w no_pull no_deploy ref remote subpaths :=
    (Some (FLATPAK_ERROR_ALREADY_INSTALLED ref), w);
  flatpak_dir_update w no_pull no_deploy ref remote commit subpaths :=
    (Some (FLATPAK_ERROR_ALREADY_INSTALLED ref), w)
|}.

(** [app] is deployed from [origin], which is enabled. *)
Definition deployed : World := {| inner := Demo.app_deployed false |}.

(** An update of [app] requested there. *)
Definition update_planned : FlatpakTransaction :=
  ar_tx (flatpak_transaction_add_update deployed Demo.fresh Demo.app None
           None).

End UpToDate.

(** A registry that serves one image, tagged [v1], annotated with the ref
    [app/com.Z/x86_64/stable] and a checksum, and one, tagged [bare],
    without annotations. *)
Module DemoOci.

Fixpoint split_slash (cur : string) (s : string) : list string :=
  match s with
  | EmptyString => [String.rev cur]
  | String c s' =>
      if Ascii.eqb c "/"%char then String.rev cur :: split_slash "" s'
      else split_slash (String c cur) s'
  end.

#[global] Instance oci : FlatpakOci Demo.World string string string := {|
  flatpak_oci_registry_new w uri :=
    if String.eqb uri "" then inl (OTHER_ERROR 2 "no registry") else inr uri;
  flatpak_oci_registry_chose_image w registry tag :=
    if String.eqb tag "v1" || String.eqb tag "bare" then inr tag
    else inl (OTHER_ERROR 3 "no such image");
  flatpak_oci_manifest_get_annotations manifest :=
    if String.eqb manifest "bare" then None else Some manifest;
  flatpak_oci_parse_commit_annotations annotations :=
    (Some "app/com.Z/x86_64/stable", Some "deadbeef");
  flatpak_decompose_ref ref :=
    let parts := split_slash "" ref in
    if Nat.eqb (length parts) 4 then inr parts
    else inl (OTHER_ERROR 4 "wrong number of components");
  flatpak_dir_create_origin_remote w id title ref uri tag := (inr id, w);
  flatpak_dir_recreate_repo w := (None, w)
|}.

Definition image_ref : string := "app/com.Z/x86_64/stable".

(** The runtime of [Demo.app] is deployed in the system scope only. *)
Definition runtime_in_system : Demo.World :=
  {| Demo.w_user := true; Demo.w_deployed := [];
     Demo.w_system := [Demo.runtime]; Demo.w_disabled := [];
     Demo.w_metadata := [(Demo.app, "org.Y/x86_64/stable")];
     Demo.w_related := []; Demo.w_providers := []; Demo.w_yes := true;
     Demo.w_number := 0; Demo.w_failing := [] |}.

End DemoOci.

(** ** The further properties on concrete requests *)

Lemma built_planned : built (World := Demo.World) Scenario.planned.
Proof. apply built_install, built_new. Qed.

Lemma built_one_op_per_ref_witness :
  NoDup (op_ref <$> tx_heap Scenario.planned) ∧
  NoDup (tx_ops Scenario.planned) ∧
  length (tx_ops Scenario.planned) = size (tx_refs Scenario.planned) ∧
  length (tx_ops Scenario.planned) = 2.
Proof.
  destruct (built_one_op_per_ref Scenario.planned built_planned)
    as (H1 & H2 & H3 & _).
  split; [exact H1|]. split; [exact H2|]. split; [exact H3|].
  vm_compute. reflexivity.
Defined.

(** A second request for [app], from another remote, where [app] has the
    related ref [locale]: the operations of the runtime and of [app] stay
    at the end of the list, [app] keeps its remote, and [locale] is put in
    front. *)
Lemma requests_only_extend_witness :
  (tx_le Scenario.planned
     (ar_tx (flatpak_transaction_add_install Scenario.locale_fails
               Scenario.planned "other" Demo.app (Some ["/bin"]))) ∧
   ops_prepended Scenario.planned
     (ar_tx (flatpak_transaction_add_install Scenario.locale_fails
               Scenario.planned "other" Demo.app (Some ["/bin"])))) ∧
  tx_ops Scenario.planned = [1; 0] ∧
  tx_ops
    (ar_tx (flatpak_transaction_add_install Scenario.locale_fails
              Scenario.planned "other" Demo.app (Some ["/bin"])))
  = [2; 1; 0] ∧
  (op_remote <$>
     lookup_op
       (ar_tx (flatpak_transaction_add_install Scenario.locale_fails
                 Scenario.planned "other" Demo.app (Some ["/bin"])))
       Demo.app) = Some "origin".
Proof.
  split; [|by vm_compute].
  exact (proj1 (requests_only_extend Scenario.locale_fails Scenario.planned
                  "other" Demo.app (Some ["/bin"]) None wf_planned)).
Defined.

Lemma failed_request_changes_nothing_witness :
  ar_tx (flatpak_transaction_add_ref (Demo.app_deployed false)
           Scenario.planned (Some "origin") Demo.app None None false)
  = Scenario.planned.
Proof.
  apply (failed_request_changes_nothing (Demo.app_deployed false)
           Scenario.planned (Some "origin") Demo.app None None false).
  vm_compute. reflexivity.
Defined.

(** [locale] was requested directly, with unrestricted subpaths; as a
    related ref of [app] it comes restricted to [/de] and stays
    unrestricted. *)
Lemma unrestricted_subpaths_are_kept_witness :
  op_subpaths <$> lookup_op Scenario.locale_direct Demo.locale
  = Some (Some []) ∧
  op_subpaths <$>
    lookup_op
      (ar_tx (flatpak_transaction_add_install Scenario.locale_fails
                Scenario.locale_direct "origin" Demo.app None)) Demo.locale
  = Some (Some []).
Proof.
  split; [by vm_compute|].
  destruct (lookup_op Scenario.locale_direct Demo.locale) as [op|] eqn:Hop;
    [|by vm_compute in Hop].
  assert (Hsub : op_subpaths op = Some []).
  { vm_compute in Hop. by injection Hop as <-. }
  destruct (unrestricted_subpaths_are_kept Scenario.locale_fails
              Scenario.locale_direct "origin" Demo.app None None Demo.locale
              op wf_locale_direct Hop) as [(op' & -> & Hs) _].
  - by rewrite Hsub.
  - simpl. by rewrite Hs, Hsub.
Defined.

Lemma recorded_operation_witness :
  ∃ op,
    lookup_op
      (ar_tx (flatpak_transaction_add_update (Demo.app_deployed false)
                Demo.fresh Demo.app None (Some "abc"))) Demo.app = Some op ∧
    op_remote op = "origin" ∧ op_commit op = Some "abc" ∧
    op_install op = false ∧ op_update op = true.
Proof.
  apply (proj1 recorded_operation (Demo.app_deployed false) Demo.fresh
           Demo.app None (Some "abc") "origin");
    [apply wf_fresh|reflexivity|reflexivity|].
  vm_compute. reflexivity.
Defined.

Lemma add_deps_fails_iff_witness :
  ar_tx (add_deps (Demo.needs_runtime [] true 0) Demo.fresh "origin"
           Demo.app) = Demo.fresh ∧
  ∃ rt,
    transaction_fetch_runtime_ref (Demo.needs_runtime [] true 0) "origin"
      Demo.app = Some rt ∧
    ar_error (add_deps (Demo.needs_runtime [] true 0) Demo.fresh "origin"
                Demo.app) =
    Some (missing_runtime_error (pref_of Demo.app) rt).
Proof.
  apply (proj2 (add_deps_fails_iff (Demo.needs_runtime [] true 0) Demo.fresh
                  "origin" Demo.app)).
  vm_compute. reflexivity.
Defined.

(** The runtime of [app] is in the system scope only: no operation for
    it. *)
Lemma add_deps_does_nothing_witness :
  add_deps DemoOci.runtime_in_system Demo.fresh "origin" Demo.app =
  {| ar_ok := true; ar_error := None; ar_tx := Demo.fresh |}.
Proof.
  apply (add_deps_does_nothing DemoOci.runtime_in_system Demo.fresh "origin"
           Demo.app).
  right. right. exists "org.Y/x86_64/stable". split; [by vm_compute|].
  right. split; by vm_compute.
Defined.

Lemma add_deps_records_runtime_witness :
  ar_ok (add_deps Scenario.runtime_offered Demo.fresh "origin" Demo.app)
  = true ∧
  ∃ op,
    lookup_op
      (ar_tx (add_deps Scenario.runtime_offered Demo.fresh "origin"
                Demo.app)) Demo.runtime = Some op ∧
    op_remote op = "origin" ∧ op_install op = true ∧ op_update op = true ∧
    op_subpaths op = None ∧ op_commit op = None.
Proof.
  assert (Hrt : transaction_fetch_runtime_ref Scenario.runtime_offered
                  "origin" Demo.app = Some "org.Y/x86_64/stable")
    by (vm_compute; reflexivity).
  assert (Hc : flatpak_transaction_contains_ref Demo.fresh
                 ("runtime/" +:+ "org.Y/x86_64/stable") = false)
    by (vm_compute; reflexivity).
  apply (proj2 (add_deps_records_runtime Scenario.runtime_offered Demo.fresh
                  "origin" Demo.app "org.Y/x86_64/stable" wf_fresh Hrt Hc)
           "origin" [] "origin");
    vm_compute; reflexivity.
Defined.

(** Three remotes offer the runtime and the user answers 2: the second
    one is taken. *)
Lemma ask_for_remote_offered_witness :
  ∃ r, ["a"; "b"; "c"] !! 1 = Some r ∧
       ask_for_remote (Demo.needs_runtime ["a"; "b"; "c"] true 2)
         ["a"; "b"; "c"] = Some r.
Proof.
  assert (Hrange : length ["a"; "b"; "c"] ≠ 1 →
            (0 ≤ flatpak_number_prompt
                   (Demo.needs_runtime ["a"; "b"; "c"] true 2) 0
                   (Z.of_nat (length ["a"; "b"; "c"]))
             ≤ Z.of_nat (length ["a"; "b"; "c"]))%Z).
  { intros _. simpl. lia. }
  destruct (ask_for_remote_offered
              (Demo.needs_runtime ["a"; "b"; "c"] true 2) ["a"; "b"; "c"]
              Hrange) as (_ & _ & _ & Hpick).
  apply (Hpick 1).
  - discriminate.
  - reflexivity.
Defined.

Lemma related_pass_creates_operation_witness :
  lookup_op (add_related Scenario.locale_fails Demo.fresh "origin"
               Demo.app).2 Demo.locale =
  Some {| op_remote := "origin"; op_ref := Demo.locale;
          op_subpaths := Some ["/de"]; op_commit := None;
          op_update := true; op_install := true; op_non_fatal := true |}.
Proof.
  apply (related_pass_creates_operation Scenario.locale_fails Demo.fresh
           "origin" Demo.app [Scenario.locale_related] Demo.locale
           (Some ["/de"]) []); [apply wf_fresh|by vm_compute..].
Defined.

Lemma run_stops_at_first_fatal_failure_witness :
  ∃ evs ev e,
    run_trace (flatpak_transaction_run (Demo.refusing [Demo.app])
                 Scenario.two_installs true) = evs ++ [ev] ∧
    existsb fatal_failure evs = false ∧
    ev_engine ev = Some e ∧ op_non_fatal (ev_op ev) = false ∧
    run_error (flatpak_transaction_run (Demo.refusing [Demo.app])
                 Scenario.two_installs true) = Some e.
Proof.
  apply (run_stops_at_first_fatal_failure (Demo.refusing [Demo.app])
           Scenario.two_installs).
  vm_compute. reflexivity.
Defined.

(** The update of [app] finds nothing new; the operation is fatal and
    the run succeeds. *)
Lemma run_succeeds_on_noop_updates_witness :
  (run_ok (flatpak_transaction_run UpToDate.deployed UpToDate.update_planned
             true) = true ∧
   run_error (flatpak_transaction_run UpToDate.deployed
                UpToDate.update_planned true) = None) ∧
  ((λ ev, (op_install (ev_op ev), op_non_fatal (ev_op ev), ev_engine ev)) <$>
     run_trace (flatpak_transaction_run UpToDate.deployed
                  UpToDate.update_planned true)) =
  [(false, false, Some (FLATPAK_ERROR_ALREADY_INSTALLED Demo.app))].
Proof.
  split; [|by vm_compute].
  apply (run_succeeds_on_noop_updates UpToDate.deployed
           UpToDate.update_planned true).
  apply (proj1 (Forall_forall
                  (λ ev : OpEvent UpToDate.World,
                     ev_engine ev ≠ None →
                     op_non_fatal (ev_op ev) = true ∨
                     op_install (ev_op ev) = false ∧
                     ∃ msg,
                       ev_engine ev =
                       Some (FLATPAK_ERROR_ALREADY_INSTALLED msg)) _)).
  vm_compute. constructor; [|constructor].
  intros _. right. split; [reflexivity|]. eexists. reflexivity.
Defined.

Lemma run_settles_every_flag_witness :
  Forall (λ op, xorb (op_install op) (op_update op) = true)
    (tx_heap
       (run_tx (flatpak_transaction_run Scenario.runtime_offered
                  Scenario.planned false))) ∧
  ((λ op, (op_install op, op_update op)) <$> tx_heap Scenario.planned) =
  [(true, true); (true, false)].
Proof.
  split; [|by vm_compute].
  apply Forall_forall. intros op [q Hq]%list_elem_of_lookup_1.
  exact (run_settles_every_flag Scenario.runtime_offered Scenario.planned q
           op built_planned Hq).
Defined.

Lemma second_run_goes_backwards_witness :
  ev_ptr <$>
    run_trace (flatpak_transaction_run Scenario.runtime_offered
                 Scenario.planned false) = [0; 1] ∧
  ev_ptr <$>
    run_trace
      (flatpak_transaction_run Scenario.runtime_offered
         (run_tx (flatpak_transaction_run Scenario.runtime_offered
                    Scenario.planned false)) false) = [1; 0].
Proof.
  exact (second_run_goes_backwards Scenario.runtime_offered
           Scenario.runtime_offered Scenario.planned wf_planned).
Defined.

Lemma pref_of_drops_kind_witness :
  pref_of ("runtime" +:+ "/" +:+ "org.Y/x86_64/stable")
  = "org.Y/x86_64/stable".
Proof. apply pref_of_drops_kind. reflexivity. Defined.

Lemma add_install_oci_failure_witness :
  ar_tx (flatpak_transaction_add_install_oci Demo.empty Scenario.planned
           "https://reg/example" "v2").1 = Scenario.planned.
Proof.
  apply (add_install_oci_failure_changes_nothing Demo.empty Scenario.planned
           "https://reg/example" "v2").
  vm_compute. reflexivity.
Defined.

Lemma add_install_oci_missing_ref_witness :
  flatpak_transaction_add_install_oci Demo.empty Demo.fresh
    "https://reg/example" "bare" =
  (oci_failure oci_missing_ref Demo.fresh, Demo.empty).
Proof.
  apply (add_install_oci_missing_ref Demo.empty Demo.fresh
           "https://reg/example" "bare" "https://reg/example" "bare");
    reflexivity.
Defined.

Lemma add_install_oci_records_pinned_install_witness :
  ∃ op,
    lookup_op
      (ar_tx (flatpak_transaction_add_install_oci Demo.empty Demo.fresh
                "https://reg/example" "v1").1) DemoOci.image_ref = Some op ∧
    op_remote op = "oci-com.Z" ∧ op_commit op = Some "deadbeef" ∧
    op_subpaths op = Some [] ∧ op_install op = true ∧ op_update op = false.
Proof.
  destruct (add_install_oci_records_pinned_install Demo.empty Demo.fresh
              "https://reg/example" "v1" "https://reg/example" "v1"
              DemoOci.image_ref (Some "deadbeef")
              ["app"; "com.Z"; "x86_64"; "stable"] "oci-com.Z" Demo.empty
              Demo.empty wf_fresh)
    as (_ & _ & Hop); try reflexivity.
  exact Hop.
Defined.

(** [locale], a related ref of [app], comes after [app]. *)
Lemma related_ops_follow_their_owner_witness :
  (op_ref <$> tx_heap Scenario.with_related) = [Demo.app; Demo.locale] ∧
  ∃ p,
    tx_refs
      (ar_tx (add_ref_record Scenario.locale_fails Demo.fresh "origin"
                Demo.app (Some []) None false)) !! Demo.app = Some p ∧
    precedes
      (executor_order
         (ar_tx (add_ref_record Scenario.locale_fails Demo.fresh "origin"
                   Demo.app (Some []) None false))) p 1.
Proof.
  split; [by vm_compute|].
  apply (related_ops_follow_their_owner Scenario.locale_fails Demo.fresh
           "origin" Demo.app (Some []) None false Demo.locale 1 wf_fresh);
    [by vm_compute|done|by vm_compute|by vm_compute].
Defined.

(** A deploy engine that installs the related refs of a ref along with
    it, as for a bundle: the outside world that an operation meets then
    depends on the operations before it. *)
Module Bundling.

Record World := { inner : Demo.World }.

Definition deploy (remote : string) (w : Demo.World) (ref : string)
    : Demo.World :=
  match Demo.assoc ref (Demo.w_deployed w) with
  | Some _ => w
  | None =>
      Demo.set_deployed
        ((ref, {| dd_origin := remote; dd_commit := "0123456789ab" |})
           :: Demo.w_deployed w) w
  end.

Definition install (w : World) (ref remote : string)
    : option GError * World :=
  match Demo.assoc ref (Demo.w_deployed (inner w)) with
  | Some _ => (Some (FLATPAK_ERROR_ALREADY_INSTALLED ref), w)
  | None =>
      (None,
       {| inner :=
            foldl (deploy remote) (inner w)
              (ref :: (rel_ref <$>
                         default [] (Demo.assoc ref
                                       (Demo.w_related (inner w))))) |})
  end.

#[global] Instance dir : FlatpakDir World := {|
  flatpak_dir_get_if_deployed w := flatpak_dir_get_if_deployed (inner w);
  flatpak_dir_is_user w := flatpak_dir_is_user (inner w);
  flatpak_dir_system_get_if_deployed w :=
    flatpak_dir_system_get_if_deployed (inner w);
  flatpak_dir_get_deploy_data w := flatpak_dir_get_deploy_data (inner w);
  flatpak_dir_get_remote_disabled w :=
    flatpak_dir_get_remote_disabled (inner w);
  flatpak_dir_fetch_ref_cache w := flatpak_dir_fetch_ref_cache (inner w);
  key_file_runtime metadata := Some metadata;
  flatpak_dir_find_local_related w :=
    flatpak_dir_find_local_related (inner w);
  flatpak_dir_find_remote_related w :=
    flatpak_dir_find_remote_related (inner w);
  flatpak_dir_search_for_dependency w :=
    flatpak_dir_search_for_dependency (inner w);
  flatpak_yes_no_prompt w := flatpak_yes_no_prompt (inner w);
  flatpak_number_prompt w := flatpak_number_prompt (inner w);
  flatpak_dir_install w no_pull no_deploy ref remote subpaths :=
    install w ref remote;
  flatpak_dir_update w no_pull no_deploy ref remote commit subpaths :=
    match Demo.assoc ref (Demo.w_deployed (inner w)) with
    | Some _ => (None, w)
    | None => (Some (FLATPAK_ERROR_NOT_INSTALLED ref), w)
    end
|}.

(** Nothing is deployed; [app] has the related ref [locale]. *)
Definition start : World := {| inner := Demo.with_locale [] |}.

(** [app] requested there: its operation is an install, that of [locale]
    has both flags. *)
Definition planned : FlatpakTransaction :=
  ar_tx (flatpak_transaction_add_install start Demo.fresh "origin" Demo.app
           None).

End Bundling.

